(** * LazyLLM: the function-call agent loop and the module update pass

    A shallow embedding of
      - [FuncCallAgent._run]   (lazyllm/agent/func_call_agent.py), and
      - [ModuleBase.__setattr__] and [ModuleBase.update] (lazyllm/module.py),
    together with the properties of the design document that concern them.

    Python objects that the code mutates (the chat history list and the
    messages it refers to) live in an explicit store, so that aliasing
    between the caller's list and the working list of [_run] is visible.
    Exceptions are results; the [while] loop of [_run] takes fuel, one unit
    per round, and reports [OutOfFuel] with the state reached when the fuel
    is used up. *)

From stdpp Require Import base option list strings gmap.

Open Scope string_scope.
Open Scope list_scope.
Open Scope nat_scope.

Set Warnings "-register-all".

(** ** Exceptions and outcomes *)

Inductive exn :=
  | AssertionError (msg : string)
  | IndexError
  | AttributeError
  | UnknownTool (tool : string)
  | InvalidArguments (tool : string)
  | OtherError (msg : string).

(** The outcome of a piece of code: it falls through with a value, or it
    raises; the state reached when the exception left is kept. *)
Inductive outcome (A : Type) :=
  | Return (a : A)
  | Raised (e : exn) (a : A).
Arguments Return {A} a.
Arguments Raised {A} e a.

Definition bind {A} (o : outcome A) (k : A → outcome A) : outcome A :=
  match o with
  | Return a => k a
  | Raised e a => Raised e a
  end.

Definition state_of {A} (o : outcome A) : A :=
  match o with Return a | Raised _ a => a end.

Definition raised {A} (o : outcome A) : option exn :=
  match o with Return _ => None | Raised e _ => Some e end.

(** What a loop run with fuel gives: the outcome of the loop, or the state
    in which the fuel ran out with the loop still going. *)
Inductive run_result (A : Type) :=
  | Done (o : outcome A)
  | OutOfFuel (a : A).
Arguments Done {A} o.
Arguments OutOfFuel {A} a.

Definition final {A} (r : run_result A) : A :=
  match r with Done o => state_of o | OutOfFuel a => a end.

(** ** Messages (lazyllm.agent.protocol) *)

Module Protocol.

(** Modelled from the spec: the constants [ASSISTANT] and [TOOL] of
    lazyllm.agent.protocol, which is not part of the sources at hand; the
    spec's role enumeration is {system, user, assistant, tool}. *)
Definition ASSISTANT : string := "assistant".
Definition TOOL : string := "tool".

Record FunctionCall := {
  fc_name : string;
  fc_arguments : string
}.

(** [tool_call["id"]], [tool_call["function"]["name"]],
    [tool_call["function"]["arguments"]]. *)
Record ToolCall := {
  tc_id : string;
  tc_function : FunctionCall
}.

(** Modelled from the spec: the [Message] type of lazyllm.agent.protocol
    (a Turn or a ResponseFragment of the spec): every key is optional,
    [None] is what [.get(key, None)] returns for an absent key. *)
Record Message := {
  role : option string;
  content : option string;
  name : option string;
  tool_call_id : option string;
  tool_calls : option (list ToolCall)
}.

(** [Message(role=r, content=c)] *)
Definition content_message (r : option string) (c : string) : Message :=
  {| role := r; content := Some c; name := None;
     tool_call_id := None; tool_calls := None |}.

(** [Message(role=ASSISTANT, content=c, tool_calls=tcs)] *)
Definition tool_calls_message (c : string) (tcs : list ToolCall) : Message :=
  {| role := Some ASSISTANT; content := Some c; name := None;
     tool_call_id := None; tool_calls := Some tcs |}.

(** [Message(role=TOOL, content=res, name=tool_name, tool_call_id=tool_id)] *)
Definition tool_message (res tool_name tool_id : string) : Message :=
  {| role := Some TOOL; content := Some res; name := Some tool_name;
     tool_call_id := Some tool_id; tool_calls := None |}.

(** Python truth value of [d.get(key, None)] for a text and for a list. *)
Definition truthy_str (o : option string) : option string :=
  match o with
  | Some s => if String.eqb s "" then None else Some s
  | None => None
  end.

Definition truthy_list {A} (o : option (list A)) : option (list A) :=
  match o with
  | Some (x :: l) => Some (x :: l)
  | _ => None
  end.

(** ["".join(content_cache)] *)
Definition join (cache : list string) : string :=
  foldr String.append "" cache.

Definition role_is (r : string) (m : Message) : bool :=
  match role m with
  | Some r' => String.eqb r' r
  | None => false
  end.

End Protocol.
Export Protocol.

(** ** The object store

    A Python list holds references.  The store is a growing table of
    objects, a location is an index in it, and nothing is ever freed. *)

Module Store.

Abbreviation loc := nat.

Inductive obj :=
  | OMessage (m : Message)
  | OList (items : list loc).

Abbreviation store := (list obj).

Definition alloc (σ : store) (o : obj) : store * loc :=
  (σ ++ [o], length σ).

Definition message_at (σ : store) (r : loc) : option Message :=
  match σ !! r with
  | Some (OMessage m) => Some m
  | _ => None
  end.

(** The messages a list object refers to, in order. *)
Definition view (σ : store) (l : loc) : list Message :=
  match σ !! l with
  | Some (OList items) => omap (message_at σ) items
  | _ => []
  end.

(** [lst.append(m)] for a freshly built message [m]. *)
Definition list_append (σ : store) (l : loc) (m : Message) : store :=
  let '(σ1, r) := alloc σ (OMessage m) in
  match σ1 !! l with
  | Some (OList items) => <[l := OList (items ++ [r])]> σ1
  | _ => σ1
  end.

(** [copy.deepcopy(lst)]: fresh copies of the messages, then a fresh
    list that refers to the copies.  Nothing that existed is written. *)
Definition deepcopy (σ : store) (l : loc) : store * loc :=
  let ms := view σ l in
  let σ1 := σ ++ (OMessage <$> ms) in
  alloc σ1 (OList (seq (length σ) (length ms))).

(** A list object all of whose items are messages. *)
Definition is_history (σ : store) (l : loc) : Prop :=
  ∃ items, σ !! l = Some (OList items) ∧
           Forall (λ r, is_Some (message_at σ r)) items.

(** [σ'] keeps every object of [σ] as it is. *)
Definition preserves (σ σ' : store) : Prop :=
  ∀ l o, σ !! l = Some o → σ' !! l = Some o.

End Store.
Export Store.

(** ** FuncCallAgent._run (lazyllm/agent/func_call_agent.py) *)

Module FuncCallAgent.

(** What a call of [self._call_tool] does: it returns a text or [None],
    or it raises. *)
Inductive tool_result :=
  | ToolReturn (res : option string)
  | ToolRaise (e : exn).

(** The locals of [_run], the store, the state [world] of everything
    outside the agent (backend and tools), and what an observer sees: the
    messages yielded so far, the dispatcher calls made so far, for every
    completed round of the [while] loop by how much it raised
    [tool_call_counter], and for every dispatcher call made the number of
    rounds completed before it, which tells the round it was made in.  The
    last four are only written, never read. *)
Record run_state {W : Type} := {
  heap : store;
  llm_chat_history : loc;
  last_role : option string;
  content_cache : list string;
  tool_call_counter : nat;
  world : W;
  yielded : list Message;
  tool_trace : list (string * string);
  rounds : list nat;
  call_rounds : list nat
}.
Arguments run_state : clear implicits.

Section Agent.
Context {W : Type}.

(** [MAX_CONSECUTIVE_TOOL_CALL_NUM] of lazyllm.agent.configs, whose
    value is not part of the sources at hand. *)
Variable MAX_CONSECUTIVE_TOOL_CALL_NUM : nat.

(** [self._call_llm(__input, llm_chat_history, tools, generate_cfg, ..)]
    of BaseAgent, with [tools], [generate_cfg] and the keyword
    arguments fixed: the fragments of one response, taken to be a
    finite sequence as the design document has it, and produced from
    the history as it is when the call is made. *)
Variable _call_llm : Message → list Message → W → list Message * W.

(** [self._call_tool(tool_name, tool_args, ..)] of BaseAgent. *)
Variable _call_tool : string → string → W → tool_result * W.

Abbreviation state := (run_state W).

Definition history (st : state) : list Message :=
  view (heap st) (llm_chat_history st).

(** [llm_chat_history.append(m)] *)
Definition append (m : Message) (st : state) : state :=
  {| heap := list_append (heap st) (llm_chat_history st) m;
     llm_chat_history := llm_chat_history st;
     last_role := last_role st;
     content_cache := content_cache st;
     tool_call_counter := tool_call_counter st;
     world := world st;
     yielded := yielded st;
     tool_trace := tool_trace st;
     rounds := rounds st;
     call_rounds := call_rounds st |}.

(** [yield m] *)
Definition yield (m : Message) (st : state) : state :=
  {| heap := heap st;
     llm_chat_history := llm_chat_history st;
     last_role := last_role st;
     content_cache := content_cache st;
     tool_call_counter := tool_call_counter st;
     world := world st;
     yielded := yielded st ++ [m];
     tool_trace := tool_trace st;
     rounds := rounds st;
     call_rounds := call_rounds st |}.

Definition set_last_role (r : option string) (st : state) : state :=
  {| heap := heap st;
     llm_chat_history := llm_chat_history st;
     last_role := r;
     content_cache := content_cache st;
     tool_call_counter := tool_call_counter st;
     world := world st;
     yielded := yielded st;
     tool_trace := tool_trace st;
     rounds := rounds st;
     call_rounds := call_rounds st |}.

Definition set_content_cache (c : list string) (st : state) : state :=
  {| heap := heap st;
     llm_chat_history := llm_chat_history st;
     last_role := last_role st;
     content_cache := c;
     tool_call_counter := tool_call_counter st;
     world := world st;
     yielded := yielded st;
     tool_trace := tool_trace st;
     rounds := rounds st;
     call_rounds := call_rounds st |}.

Definition set_tool_call_counter (n : nat) (st : state) : state :=
  {| heap := heap st;
     llm_chat_history := llm_chat_history st;
     last_role := last_role st;
     content_cache := content_cache st;
     tool_call_counter := n;
     world := world st;
     yielded := yielded st;
     tool_trace := tool_trace st;
     rounds := rounds st;
     call_rounds := call_rounds st |}.

Definition set_world (w : W) (st : state) : state :=
  {| heap := heap st;
     llm_chat_history := llm_chat_history st;
     last_role := last_role st;
     content_cache := content_cache st;
     tool_call_counter := tool_call_counter st;
     world := w;
     yielded := yielded st;
     tool_trace := tool_trace st;
     rounds := rounds st;
     call_rounds := call_rounds st |}.

Definition log_call (tool_name tool_args : string) (st : state) : state :=
  {| heap := heap st;
     llm_chat_history := llm_chat_history st;
     last_role := last_role st;
     content_cache := content_cache st;
     tool_call_counter := tool_call_counter st;
     world := world st;
     yielded := yielded st;
     tool_trace := tool_trace st ++ [(tool_name, tool_args)];
     rounds := rounds st;
     call_rounds := call_rounds st ++ [length (rounds st)] |}.

Definition log_round (n : nat) (st : state) : state :=
  {| heap := heap st;
     llm_chat_history := llm_chat_history st;
     last_role := last_role st;
     content_cache := content_cache st;
     tool_call_counter := tool_call_counter st;
     world := world st;
     yielded := yielded st;
     tool_trace := tool_trace st;
     rounds := rounds st ++ [n];
     call_rounds := call_rounds st |}.

(** Lines 53-55 and 76-78:
    [if content_cache: llm_chat_history.append(Message(role=last_role,
    content="".join(content_cache))); content_cache = []] *)
Definition flush (st : state) : state :=
  match content_cache st with
  | [] => st
  | _ :: _ =>
      set_content_cache []
        (append (content_message (last_role st) (join (content_cache st))) st)
  end.

(** Lines 65-73: the tools of one request list, one after the other. *)
Fixpoint dispatch (tcs : list ToolCall) (st : state) : outcome state :=
  match tcs with
  | [] => Return st
  | tool_call :: rest =>
      let tool_id := tc_id tool_call in
      let tool_name := fc_name (tc_function tool_call) in
      let tool_args := fc_arguments (tc_function tool_call) in
      let '(tool_res, w) := _call_tool tool_name tool_args (world st) in
      let st := set_world w (log_call tool_name tool_args st) in
      match tool_res with
      | ToolRaise e => Raised e st
      | ToolReturn None => dispatch rest st
      | ToolReturn (Some res) =>
          let tool_message := tool_message res tool_name tool_id in
          dispatch rest (yield tool_message (append tool_message st))
      end
  end.

(** Lines 51-56 *)
Definition on_role (response : Message) (st : state) : state :=
  match truthy_str (role response) with
  | Some r => set_last_role (Some r) (flush st)
  | None => st
  end.

(** Lines 57-59 *)
Definition on_content (response : Message) (st : state) : state :=
  match truthy_str (content response) with
  | Some c => set_content_cache (content_cache st ++ [c]) st
  | None => st
  end.

(** Lines 60-74 *)
Definition on_tool_calls (response : Message) (st : state) : outcome state :=
  match truthy_list (tool_calls response) with
  | Some tcs =>
      if bool_decide (last_role st = Some ASSISTANT) then
        let st :=
          set_content_cache []
            (append (tool_calls_message (join (content_cache st)) tcs) st) in
        bind (dispatch tcs st) (λ st,
          Return (set_tool_call_counter (tool_call_counter st + 1) st))
      else
        Raised (AssertionError "Tool calls can only be made by the assistant.") st
  | None => Return st
  end.

(** Lines 50-74: the body of [for response in llm_response]. *)
Definition on_response (response : Message) (st : state) : outcome state :=
  on_tool_calls response (on_content response (on_role response (yield response st))).

(** Lines 49-74 *)
Fixpoint for_responses (llm_response : list Message) (st : state) : outcome state :=
  match llm_response with
  | [] => Return st
  | response :: rest =>
      bind (on_response response st) (for_responses rest)
  end.

(** Lines 48-78: one round, up to the continuation check. *)
Definition round (__input : Message) (st : state) : outcome state :=
  let '(llm_response, w) := _call_llm __input (history st) (world st) in
  bind (for_responses llm_response (set_world w st)) (λ st',
    Return (log_round (tool_call_counter st' - tool_call_counter st) (flush st'))).

(** Lines 47-80.  The test of the [while] comes first, so one unit of
    fuel is one round. *)
Fixpoint while_loop (fuel : nat) (__input : Message) (st : state)
  : run_result state :=
  if bool_decide (tool_call_counter st < MAX_CONSECUTIVE_TOOL_CALL_NUM) then
    match fuel with
    | 0 => OutOfFuel st
    | S fuel =>
        match round __input st with
        | Raised e st => Done (Raised e st)
        | Return st =>
            match last (history st) with
            | None => Done (Raised IndexError st)
            | Some turn =>
                if negb (role_is TOOL turn) then Done (Return st)
                else while_loop fuel __input st
            end
        end
    end
  else Done (Return st).

(** Lines 43-46 *)
Definition enter (σ : store) (caller_history : loc) (w : W) : state :=
  let '(σ1, l) := deepcopy σ caller_history in
  {| heap := σ1;
     llm_chat_history := l;
     last_role := None;
     content_cache := [];
     tool_call_counter := 0;
     world := w;
     yielded := [];
     tool_trace := [];
     rounds := [];
     call_rounds := [] |}.

(** [_run(__input, llm_chat_history)], consumed to its end by the
    caller.  The history printed at line 81 is [history] of the final
    state. *)
Definition _run (fuel : nat) (__input : Message)
    (σ : store) (caller_history : loc) (w : W) : run_result state :=
  while_loop fuel __input (enter σ caller_history w).

End Agent.

End FuncCallAgent.

(** ** ModuleBase (lazyllm/module.py) *)

Module ModuleBase.

(** *** Attribute assignment

    An instance is its attribute dictionary.  A value that is an instance
    of [ModuleBase] is a reference to that instance. *)

Inductive value :=
  | VNone
  | VStr (s : string)
  | VList (items : list value)
  | VModule (m : loc)
  | VOther (description : string).

(** [isinstance(value, ModuleBase)] *)
Definition isinstance_ModuleBase (v : value) : bool :=
  match v with
  | VModule _ => true
  | _ => false
  end.

(** Lines 19-22.  [self.submodules.append(value)] needs the attribute
    [submodules] to be there and to be a list. *)
Definition __setattr__ (self : gmap string value) (name : string) (v : value)
  : outcome (gmap string value) :=
  if isinstance_ModuleBase v then
    match self !! "submodules" with
    | Some (VList items) =>
        Return (<[name := v]> (<["submodules" := VList (items ++ [v])]> self))
    | _ => Raised AttributeError self
    end
  else Return (<[name := v]> self).

(** Lines 15-17: [self.submodules = []; self._evalset = None], both
    through [__setattr__]. *)
Definition __init__ : outcome (gmap string value) :=
  bind (__setattr__ ∅ "submodules" (VList []))
       (λ self, __setattr__ self "_evalset" VNone).

(** *** The update pass

    For the traversal an instance is a node of a tree: what its three
    hooks return when [update] asks, and its [submodules]. *)

Inductive module (task : Type) :=
  | Module (label : string)
           (_get_train_tasks _get_deploy_tasks _get_eval_tasks : option task)
           (submodules : list (module task)).
Arguments Module {task} label _ _ _ submodules.

Inductive flow (task : Type) :=
  | Parallel (tasks : list task)
  | DPES (tasks : list task).
Arguments Parallel {task} tasks.
Arguments DPES {task} tasks.

(** What [update] asks of a flow: [.start()] and [.wait()]. *)
Inductive action (task : Type) :=
  | Start (f : flow task)
  | Wait (f : flow task).
Arguments Start {task} f.
Arguments Wait {task} f.

Record collected (task : Type) := {
  train_tasks : list task;
  deploy_tasks : list task;
  eval_tasks : list task;
  visited : list (module task)
}.
Arguments train_tasks {task} c.
Arguments deploy_tasks {task} c.
Arguments eval_tasks {task} c.
Arguments visited {task} c.

Section Update.
Context {task : Type}.

Definition label (m : module task) : string :=
  match m with Module l _ _ _ _ => l end.
Definition _get_train_tasks (m : module task) : option task :=
  match m with Module _ t _ _ _ => t end.
Definition _get_deploy_tasks (m : module task) : option task :=
  match m with Module _ _ d _ _ => d end.
Definition _get_eval_tasks (m : module task) : option task :=
  match m with Module _ _ _ e _ => e end.
Definition submodules (m : module task) : list (module task) :=
  match m with Module _ _ _ _ s => s end.

(** Modelled from the spec: [FlatList.absorb] of lazyllm, which is not
    part of the sources at hand.  A node contributes at most one
    descriptor per phase, and a node that contributes none is absent
    from the collection. *)
Definition absorb (l : list task) (item : option task) : list task :=
  match item with
  | Some t => l ++ [t]
  | None => l
  end.

(** Lines 61-64, with the popped node noted in [visited]. *)
Definition visit (top : module task) (c : collected task) : collected task :=
  {| train_tasks := absorb (train_tasks c) (_get_train_tasks top);
     deploy_tasks := absorb (deploy_tasks c) (_get_deploy_tasks top);
     eval_tasks := absorb (eval_tasks c) (_get_eval_tasks top);
     visited := visited c ++ [top] |}.

(** Lines 56-64.  The head of the list is [stack[-1]]; an iterator is
    the list of the items it has yet to give.  One unit of fuel is one
    turn of the [while]. *)
Fixpoint walk (fuel : nat) (stack : list (module task * list (module task)))
    (c : collected task) : option (collected task) :=
  match stack with
  | [] => Some c
  | (node, it) :: below =>
      match fuel with
      | 0 => None
      | S fuel =>
          match it with
          | top :: it => walk fuel ((top, submodules top) :: (node, it) :: below) c
          | [] => walk fuel below (visit node c)
          end
      end
  end.

(** Lines 54-64 *)
Definition collect (fuel : nat) (recursive : bool) (self : module task)
  : option (collected task) :=
  walk fuel [(self, if recursive then submodules self else [])]
       {| train_tasks := []; deploy_tasks := []; eval_tasks := []; visited := [] |}.

(** Lines 66-71 *)
Definition launch (mode : string) (c : collected task) : list (action task) :=
  (if bool_decide (mode = "train") && bool_decide (0 < length (train_tasks c))
   then [Start (Parallel (train_tasks c)); Wait (Parallel (train_tasks c))]
   else []) ++
  (if bool_decide (0 < length (deploy_tasks c))
   then [Start (DPES (deploy_tasks c))]
   else []) ++
  (if bool_decide (mode = "train") && bool_decide (0 < length (eval_tasks c))
   then [Start (DPES (eval_tasks c))]
   else []).

(** Lines 51-71: what was collected and what was asked of the flows. *)
Definition update (fuel : nat) (mode : string) (recursive : bool)
    (self : module task)
  : option (outcome (collected task * list (action task))) :=
  if bool_decide (mode = "train") || bool_decide (mode = "server") then
    c ← collect fuel recursive self;
    Some (Return (c, launch mode c))
  else
    Some (Raised (AssertionError "")
            ({| train_tasks := []; deploy_tasks := []; eval_tasks := [];
                visited := [] |}, [])).

(** Lines 73-74 *)
Definition update_server (fuel : nat) (recursive : bool) (self : module task) :=
  update fuel "server" recursive self.
Definition start (fuel : nat) (self : module task) :=
  update fuel "server" true self.

(** *** Post-order, as the design document words it: the children are
    fully processed, with their own descendants, before the parent. *)
Fixpoint postorder (m : module task) : list (module task) :=
  match m with
  | Module _ _ _ _ children =>
      flat_map postorder children ++ [m]
  end.

Fixpoint size (m : module task) : nat :=
  match m with
  | Module _ _ _ _ children => S (list_sum (map size children))
  end.

(** The nodes [ms] visited one after the other. *)
Definition visit_all (ms : list (module task)) (c : collected task)
  : collected task :=
  foldl (λ c m, visit m c) c ms.

(** What a pass over the nodes [ms], in that order, collects. *)
Definition collection (ms : list (module task)) : collected task :=
  {| train_tasks := omap _get_train_tasks ms;
     deploy_tasks := omap _get_deploy_tasks ms;
     eval_tasks := omap _get_eval_tasks ms;
     visited := ms |}.

(** What a call of [update] that returned had collected. *)
Definition collected_by
    (r : option (outcome (collected task * list (action task))))
  : option (collected task) :=
  match r with
  | Some (Return (c, _)) => Some c
  | _ => None
  end.




End Update.

(** The design document's reading that an assignment writes the assigned
    attribute only. *)
Definition assignment_is_local
    (self : gmap string value) (name : string) (v : value) : Prop :=
  ∀ self', __setattr__ self name v = Return self' →
           ∀ k, k ≠ name → self' !! k = self !! k.

(** A root with two children, and a node with work in every phase. *)
Definition two_children : module string :=
  Module "root" (Some "train root") None None
    [ Module "child1" (Some "train child1") (Some "deploy child1") None [];
      Module "child2" (Some "train child2") None None [] ].




(** An instance fresh from [__init__]. *)
Definition fresh_instance : gmap string value :=
  state_of __init__.

End ModuleBase.

(** ** Vocabulary of the statements about [_run] *)

Module AgentSpec.
Import FuncCallAgent.

(** [tool_name] and [tool_args] of a request, as [_run] reads them. *)
Definition call_of (tc : ToolCall) : string * string :=
  (fc_name (tc_function tc), fc_arguments (tc_function tc)).

(** The tool-result turn for a request and what its call gave. *)
Definition reply (tc : ToolCall) (r : tool_result) : option Message :=
  match r with
  | ToolReturn (Some res) =>
      Some (tool_message res (fc_name (tc_function tc)) (tc_id tc))
  | _ => None
  end.

Definition reply_turns (tcs : list ToolCall) (rs : list tool_result) : list Message :=
  omap id (zip_with reply tcs rs).

Definition raising (rs : list tool_result) : option exn :=
  match last rs with
  | Some (ToolRaise e) => Some e
  | _ => None
  end.

(** A fragment with a non-empty [tool_calls]. *)
Definition carries_tool_calls (f : Message) : bool :=
  bool_decide (is_Some (truthy_list (tool_calls f))).

(** A fragment with a non-empty [content] or a non-empty [tool_calls]. *)
Definition has_payload (f : Message) : bool :=
  bool_decide (is_Some (truthy_str (content f))) || carries_tool_calls f.

(** A response that carries something to record and in which no
    fragment opens a turn of role [TOOL]. *)
Definition well_formed_response (llm_response : list Message) : bool :=
  existsb has_payload llm_response &&
  forallb (λ f, negb (role_is TOOL f)) llm_response.

(** The role in force after the fragments [fs], with [r] in force before
    them: the role that a fragment named last (lines 51-56). *)
Definition role_in_force (r : option string) (fs : list Message) : option string :=
  foldl (λ r f, match truthy_str (role f) with
                | Some r' => Some r'
                | None => r
                end) r fs.

(** A response that requests tools once: one fragment carries tool
    calls, the role that the response names last up to that fragment is
    the assistant's, the fragments before it carry no tool calls, and the
    fragments after it carry no content and no tool calls. *)
Definition one_tool_request (llm_response : list Message) : Prop :=
  ∃ pre f post,
    llm_response = pre ++ f :: post ∧
    forallb (λ f, negb (carries_tool_calls f)) pre = true ∧
    carries_tool_calls f = true ∧
    role_in_force None (pre ++ [f]) = Some ASSISTANT ∧
    forallb (λ f, negb (has_payload f)) post = true.

(** A tool call that gives a result to report. *)
Definition reports (r : tool_result) : bool :=
  match r with
  | ToolReturn (Some _) => true
  | _ => false
  end.

Section Tools.
Context {W : Type}.
Variable _call_tool : string → string → W → tool_result * W.

(** What the calls for a request list give when made one after the
    other in request order, each in the world the calls before it
    left; nothing is called after a call that raises. *)
Fixpoint tool_results (tcs : list ToolCall) (w : W) : list tool_result :=
  match tcs with
  | [] => []
  | tc :: rest =>
      let '(r, w') :=
        _call_tool (fc_name (tc_function tc)) (fc_arguments (tc_function tc)) w in
      r :: match r with
           | ToolRaise _ => []
           | ToolReturn _ => tool_results rest w'
           end
  end.

Fixpoint world_after (tcs : list ToolCall) (w : W) : W :=
  match tcs with
  | [] => w
  | tc :: rest =>
      let '(r, w') :=
        _call_tool (fc_name (tc_function tc)) (fc_arguments (tc_function tc)) w in
      match r with
      | ToolRaise _ => w'
      | ToolReturn _ => world_after rest w'
      end
  end.
End Tools.

(** The rounds of a run in which tools were dispatched: the rounds in
    which [_call_tool] was called, each counted once, the round that a
    raising call ended among them. *)
Definition dispatch_rounds {W} (st : run_state W) : nat :=
  length (remove_dups (call_rounds st)).


(** The design document's reading that no round raises the counter by
    more than one. *)
Definition one_per_round {W} (st : run_state W) : Prop :=
  Forall (λ n, n ≤ 1) (rounds st).

Section Histories.
Context {W : Type}.
Implicit Types st : run_state W.

(** The working history is a list of messages. *)
Definition wf st : Prop :=
  is_history (heap st) (llm_chat_history st).

(** From [st] to [st'] the working history grew by [app], it is still
    the same list object, and no other object was written. *)
Definition extends st st' (app : list Message) : Prop :=
  wf st' ∧
  history st' = history st ++ app ∧
  llm_chat_history st' = llm_chat_history st ∧
  ∀ l o, l ≠ llm_chat_history st →
         heap st !! l = Some o → heap st' !! l = Some o.

(** The history grew by [app], the counter did not go down, and if the
    last turn added has role [TOOL] the counter went up. *)
Definition progresses st st' (app : list Message) : Prop :=
  extends st st' app ∧
  tool_call_counter st ≤ tool_call_counter st' ∧
  ∀ m, last app = Some m → role_is TOOL m = true →
       tool_call_counter st < tool_call_counter st'.
End Histories.

End AgentSpec.

(** ** Concrete conversations, backends and tools *)

Module Examples.
Import FuncCallAgent AgentSpec.

Definition fragment (r c : option string) (tcs : option (list ToolCall)) : Message :=
  {| role := r; content := c; name := None; tool_call_id := None; tool_calls := tcs |}.

Definition request (id tool args : string) : ToolCall :=
  {| tc_id := id; tc_function := {| fc_name := tool; fc_arguments := args |} |}.

Definition A := request "call_A" "query_weather" "{city: Beijing}".
Definition B := request "call_B" "web_search" "{q: su7}".
Definition C := request "call_C" "no_op" "{}".

Definition unknown_request := request "call_X" "no_such_tool" "{}".

Definition user_turn := content_message (Some "user") "hello".



(** Modelled from the spec: the tool registry of the design document,
    for the registry behind [BaseAgent._call_tool], which is not part of
    the sources.  "[resolve(name) -> capability or UnknownTool]"; a
    capability is what its "[invoke(args) -> result text or None]" gives
    for the serialized arguments, where "[args] deserialization may raise
    [InvalidArguments]". *)
Fixpoint resolve (registry : list (string * (string → tool_result)))
    (name : string) : exn + (string → tool_result) :=
  match registry with
  | [] => inl (UnknownTool name)
  | (registered, capability) :: registry =>
      if String.eqb registered name then inr capability
      else resolve registry name
  end.

(** Modelled from the spec: the Tool Dispatcher of the design document,
    for [BaseAgent._call_tool], which is not part of the sources.  "Looks
    up a registered capability by name; fails with [UnknownTool] if
    unregistered.  Deserializes arguments; fails with [InvalidArguments]
    on malformed input."  "A [None] result means 'no observation to
    report'."  The dispatcher itself catches nothing: the design document
    has the failure "caught by the controller".  The world is the number
    of calls that found a capability. *)
Definition invoke (registry : list (string * (string → tool_result)))
    (tool_name tool_args : string) (w : nat) : tool_result * nat :=
  match resolve registry tool_name with
  | inl e => (ToolRaise e, w)
  | inr capability => (capability tool_args, S w)
  end.

(** The dispatcher over a registry that answers [query_weather] and
    [web_search] and has nothing to report for [no_op]. *)
Definition tools : string → string → nat → tool_result * nat :=
  invoke [ ("query_weather", λ _, ToolReturn (Some "sunny"));
           ("web_search", λ _, ToolReturn (Some "2024-03-28"));
           ("no_op", λ _, ToolReturn None) ].

(** A backend that asks for the same tools on every round. *)
Definition always_calls (tcs : list ToolCall)
    (__input : Message) (h : list Message) (w : nat) : list Message * nat :=
  ([fragment (Some ASSISTANT) None (Some tcs)], w).

(** A backend that on every round says what it is about to do, asks for
    the same tools, and ends the response with an empty fragment. *)
Definition thinks_then_calls (tcs : list ToolCall)
    (__input : Message) (h : list Message) (w : nat) : list Message * nat :=
  ([fragment (Some ASSISTANT) (Some "Let me check.") None;
    fragment None None (Some tcs);
    fragment None None None], w).

(** A backend that on every round asks for tools in two fragments. *)
Definition always_two_batches
    (__input : Message) (h : list Message) (w : nat) : list Message * nat :=
  ([fragment (Some ASSISTANT) None (Some [A]);
    fragment None None (Some [B])], w).

(** A backend that on every round asks for a tool and goes on with text. *)
Definition calls_then_talks
    (__input : Message) (h : list Message) (w : nat) : list Message * nat :=
  ([fragment (Some ASSISTANT) None (Some [A]);
    fragment None (Some "One moment.") None], w).

(** A backend that asks for a tool in a turn that is not the
    assistant's. *)
Definition calls_as_user
    (__input : Message) (h : list Message) (w : nat) : list Message * nat :=
  ([fragment (Some "user") None (Some [A])], w).

(** A backend that asks for a tool after the user's turn, and in the
    next round says a word and asks for three, the second of them a tool
    that is not registered. *)
Definition asks_again
    (__input : Message) (h : list Message) (w : nat) : list Message * nat :=
  match h with
  | [_] => ([fragment (Some ASSISTANT) None (Some [A])], w)
  | _ => ([fragment (Some ASSISTANT) (Some "One more.") None;
           fragment None None (Some [B; unknown_request; A])], w)
  end.

(** A backend that asks for a tool in the first round and then has
    nothing to say. *)
Definition calls_then_silent
    (__input : Message) (h : list Message) (w : nat) : list Message * nat :=
  match h with
  | [] => ([fragment (Some ASSISTANT) None (Some [A])], w)
  | _ :: _ => ([], w)
  end.

(** A backend that answers in plain text. *)
Definition answers (text : string)
    (__input : Message) (h : list Message) (w : nat) : list Message * nat :=
  ([fragment (Some ASSISTANT) (Some text) None], w).

(** A backend that sends two tool-call fragments in one response and
    answers in the next. *)
Definition two_batches
    (__input : Message) (h : list Message) (w : nat) : list Message * nat :=
  match h with
  | [] => ([fragment (Some ASSISTANT) None (Some [A]);
            fragment None None (Some [B])], w)
  | _ :: _ => ([fragment (Some ASSISTANT) (Some "done") None], w)
  end.


(** A backend whose response carries a role and nothing else. *)
Definition role_only
    (__input : Message) (h : list Message) (w : nat) : list Message * nat :=
  ([fragment (Some ASSISTANT) None None], w).

(** A tool set in which every tool reports its arguments back. *)
Definition echo (tool_name tool_args : string) (w : nat) : tool_result * nat :=
  (ToolReturn (Some tool_args), S w).

(** A store with an empty caller history at location 0. *)
Definition empty_history_store : store := [OList []].

(** A store with the caller history [user_turn] at location 1. *)
Definition user_store : store := [OMessage user_turn; OList [0]].

End Examples.

(** ** Vocabulary of the statements about the stream of a run *)

Module Observations.
Import FuncCallAgent AgentSpec.

(** A message built at line 71: the result turn of a tool call. *)
Definition is_tool_reply (m : Message) : Prop :=
  ∃ res tool_name tool_id, m = tool_message res tool_name tool_id.

(** The role in force once lines 51-56 have seen a fragment. *)
Definition role_after {W} (f : Message) (st : run_state W) : option string :=
  match truthy_str (role f) with
  | Some r => Some r
  | None => last_role st
  end.

(** The non-empty contents of a fragment sequence, in order. *)
Definition contents (fs : list Message) : list string :=
  omap (λ f, truthy_str (content f)) fs.

(** A fragment that names no role. *)
Definition continues_turn (f : Message) : bool :=
  bool_decide (truthy_str (role f) = None).

End Observations.

(** ** Vocabulary of the statements about [ModuleBase] *)

Module ModuleBaseSpec.
Import ModuleBase.

(** The turns of the [while] loop of [update] that a stack still needs:
    two for every node yet to be pushed, one for every node on it. *)
Definition stack_cost {task : Type}
    (stack : list (module task * list (module task))) : nat :=
  list_sum (map (λ frame, 2 * list_sum (map size frame.2) + 1) stack).

(** Assignments [self.name = v], one after the other. *)
Fixpoint setattrs (self : gmap string value) (assignments : list (string * value))
  : outcome (gmap string value) :=
  match assignments with
  | [] => Return self
  | (name, v) :: rest =>
      bind (__setattr__ self name v) (λ self, setattrs self rest)
  end.

(** The value last assigned to [name]. *)
Definition last_assigned (name : string) (assignments : list (string * value))
  : option value :=
  snd <$> last (filter (λ a, a.1 = name) assignments).

End ModuleBaseSpec.

(** ** UrlModule (lazyllm/module.py, lines 103-139) *)

Module PyStr.

(** Python texts as lists of characters where the code takes them apart. *)
Abbreviation chars := String.list_ascii_of_string.
Abbreviation text := String.string_of_list_ascii.

(** [old] starts [s], as a test. *)
Fixpoint starts_with (old s : list Ascii.ascii) : bool :=
  match old, s with
  | [], _ => true
  | a :: old, b :: s => bool_decide (a = b) && starts_with old s
  | _ :: _, [] => false
  end.

(** [s.replace(old, new, 1)] on characters: the leftmost occurrence. *)
Fixpoint replace_first (old new s : list Ascii.ascii) : list Ascii.ascii :=
  if starts_with old s then new ++ drop (length old) s
  else match s with
       | [] => []
       | c :: s => c :: replace_first old new s
       end.

(** [s[::-1]] *)
Definition reversed (s : string) : string := text (rev (chars s)).

(** [s.replace(old, new, 1)] *)
Definition replace1 (old new s : string) : string :=
  text (replace_first (chars old) (chars new) (chars s)).

(** The last piece of [s.split(sep)] for a non-empty [sep]: the scan goes
    from the left, an occurrence found is skipped whole, and [piece] is
    what follows the occurrence found last. *)
Fixpoint last_piece (sep s : list Ascii.ascii) (skip : nat) (piece : list Ascii.ascii)
  : list Ascii.ascii :=
  match s with
  | [] => piece
  | _ :: s' =>
      match skip with
      | S skip => last_piece sep s' skip piece
      | 0 =>
          if starts_with sep s
          then last_piece sep s' (length sep - 1) (drop (length sep) s)
          else last_piece sep s' 0 piece
      end
  end.

(** [s.split(sep)[-1]]; an empty separator is a [ValueError]. *)
Definition split_last (sep s : string) : exn + string :=
  match chars sep with
  | [] => inl (OtherError "ValueError: empty separator")
  | _ :: _ => inr (text (last_piece (chars sep) (chars s) 0 (chars s)))
  end.

(** What follows the leftmost occurrence of [old] in [s]. *)
Fixpoint after_first (old s : list Ascii.ascii) : option (list Ascii.ascii) :=
  if starts_with old s then Some (drop (length old) s)
  else match s with
       | [] => None
       | _ :: s => after_first old s
       end.

(** [s.rsplit(sep, 1)[0]]: what precedes the rightmost occurrence of
    [sep], and [s] when there is none; an empty separator is a
    [ValueError]. *)
Definition rsplit_head (sep s : string) : exn + string :=
  match chars sep with
  | [] => inl (OtherError "ValueError: empty separator")
  | _ :: _ =>
      inr match after_first (rev (chars sep)) (rev (chars s)) with
          | Some r => text (rev r)
          | None => s
          end
  end.

(** [sep.join(l)] *)
Fixpoint join_with (sep : string) (l : list string) : string :=
  match l with
  | [] => ""
  | x :: l =>
      match l with
      | [] => x
      | _ :: _ => x +:+ sep +:+ join_with sep l
      end
  end.

(** [old] occurs in [s]. *)
Definition occurs (old s : string) : Prop :=
  ∃ a b, s = a +:+ old +:+ b.

End PyStr.

Module UrlModule.
Import PyStr.

(** The attributes that [UrlModule.__init__] sets, besides those of
    [ModuleBase].  They are texts, [None] and a flag, so that assigning
    them registers no submodule. *)
Record instance := {
  _url : option string;
  _prompt_url : option string;
  _remote_prompt : bool;
  _prompt : string;
  _response_split : option string
}.

(** The body of a request. *)
Inductive body :=
  | PromptBody (prompt : string) (response_split : option string)
  | ForwardBody (kw : gmap string string).

(** What [client.post(..)] gives: [response.text], or an exception of the
    transport. *)
Inductive reply :=
  | Text (t : string)
  | Fails (e : exn).

(** An instance, the world outside, and the requests sent so far. *)
Record state {W : Type} := {
  self : instance;
  world : W;
  sent : list (string * body)
}.
Arguments state : clear implicits.

(** Lines 104-108 *)
Definition __init__ (url : option string) (remote_prompt : bool) : instance :=
  {| _url := url; _prompt_url := None; _remote_prompt := remote_prompt;
     _prompt := "{input}"; _response_split := None |}.

(** Lines 110-114, without the [print]. *)
Definition url (self : instance) (u : string) : instance :=
  {| _url := Some u;
     _prompt_url :=
       if _remote_prompt self
       then Some (reversed (replace1 (reversed "/generate") (reversed "/prompt")
                              (reversed u)))
       else _prompt_url self;
     _remote_prompt := _remote_prompt self;
     _prompt := _prompt self;
     _response_split := _response_split self |}.

Section Transport.
Context {W : Type}.

(** [httpx.Client(timeout=90).post(url, json=body, headers=..)] *)
Variable post : string → body → W → reply * W.

(** [self._prompt.format] applied to the keyword arguments [kw]. *)
Variable format : string → gmap string string → exn + string.

Definition send (to : string) (b : body) (st : state W) : reply * state W :=
  let '(r, w) := post to b (world st) in
  (r, {| self := self st; world := w; sent := sent st ++ [(to, b)] |}).

Definition with_prompt (p : string) (rs : option string) (st : state W) : state W :=
  {| self := {| _url := _url (self st);
                _prompt_url := _prompt_url (self st);
                _remote_prompt := _remote_prompt (self st);
                _prompt := p;
                _response_split := rs |};
     world := world st;
     sent := sent st |}.

(** Lines 131-139.  The assignment of line 138 is inside the [if]. *)
Definition prompt (p : string) (rs : option string) (update_remote : bool)
    (st : state W) : outcome (state W) :=
  match truthy_str (_prompt_url (self st)) with
  | Some prompt_url =>
      if _remote_prompt (self st) && update_remote &&
         (negb (bool_decide (_prompt (self st) = p))
          || negb (bool_decide (_response_split (self st) = rs)))
      then
        let '(r, st') := send prompt_url (PromptBody p rs) st in
        match r with
        | Fails e => Raised e st'
        | Text r =>
            if bool_decide (r = "set prompt done!")
            then Return (with_prompt p rs st')
            else Raised (AssertionError "") st'
        end
      else Return st
  | None => Return st
  end.

(** Lines 116-129 *)
Definition forward (__input : option string) (kw : gmap string string)
    (st : state W) : outcome (state W) * option string :=
  match _url (self st) with
  | None =>
      (Raised (AssertionError "Please start <class 'lazyllm.module.UrlModule'> first") st,
       None)
  | Some to =>
      if xorb (bool_decide (__input = None)) (bool_decide (size kw = 0)) then
        let kw := match __input with
                  | Some x => <["input" := x]> kw
                  | None => kw
                  end in
        let formatted :=
          if _remote_prompt (self st) then inr kw
          else match format (_prompt (self st)) kw with
               | inl e => inl e
               | inr t => inr {["input" := t]}
               end in
        match formatted with
        | inl e => (Raised e st, None)
        | inr kw =>
            let '(r, st') := send to (ForwardBody kw) st in
            match r with
            | Fails e => (Raised e st', None)
            | Text t =>
                match _remote_prompt (self st), _response_split (self st) with
                | false, Some sep =>
                    match split_last sep t with
                    | inl e => (Raised e st', None)
                    | inr piece => (Return st', Some piece)
                    end
                | _, _ => (Return st', Some t)
                end
            end
        end
      else (Raised (AssertionError "") st, None)
  end.

(** Lines 179-183 and 307-311, [ServerModule.__reduce__] and
    [TrainableModule.__reduce__]: the instance that stands in for [self]
    when it is pickled. *)
Definition __reduce__ (st : state W) : outcome (state W) :=
  match _url (self st) with
  | None => Raised (AssertionError "") st
  | Some u =>
      prompt (_prompt (self st)) (_response_split (self st)) false
        {| self := __init__ (Some u) (_remote_prompt (self st));
           world := world st;
           sent := sent st |}
  end.

End Transport.

End UrlModule.

(** ** Vocabulary of the statements about [UrlModule] *)

Module UrlModuleSpec.
Import PyStr UrlModule.

(** The calls that a user of an instance makes on it. *)
Inductive call :=
  | CallUrl (u : string)
  | CallPrompt (p : string) (response_split : option string) (update_remote : bool)
  | CallForward (__input : option string) (kw : gmap string string).

Section Calls.
Context {W : Type}.
Variable post : string → body → W → reply * W.
Variable format : string → gmap string string → exn + string.

(** The state that a call leaves, whether it returns or raises. *)
Definition step (c : call) (st : state W) : state W :=
  match c with
  | CallUrl u => {| self := url (self st) u; world := world st; sent := sent st |}
  | CallPrompt p rs update_remote => state_of (prompt post p rs update_remote st)
  | CallForward __input kw => state_of (forward post format __input kw st).1
  end.

Definition calls (cs : list call) (st : state W) : state W :=
  foldl (λ st c, step c st) st cs.

End Calls.

(** A request body that carries one text, under the key [input]. *)
Definition formatted_input (b : body) : Prop :=
  ∃ t, b = ForwardBody {["input" := t]}.

(** A state fresh from [UrlModule(url, remote_prompt=..)]. *)
Definition fresh {W} (u : option string) (remote_prompt : bool) (w : W) : state W :=
  {| self := __init__ u remote_prompt; world := w; sent := [] |}.

(** A server that confirms every prompt and answers every other request
    with the same text; its world counts the requests. *)
Definition server (to : string) (b : body) (w : nat) : reply * nat :=
  match b with
  | PromptBody _ _ => (Text "set prompt done!", S w)
  | ForwardBody _ => (Text "Q: is it late? A: no. A: yes", S w)
  end.

(** [str.format] for the prompt of [__init__]: the text under [input]. *)
Definition format_input (p : string) (kw : gmap string string) : exn + string :=
  match kw !! "input" with
  | Some x => inr x
  | None => inl (OtherError "KeyError: input")
  end.

(** A deployed instance that keeps its prompt on the server. *)
Definition deployed : state nat :=
  {| self := url (__init__ None true) "http://host:8000/generate";
     world := 0; sent := [] |}.

(** An instance that formats its prompt itself and has been given a
    separator by assignment to [_response_split]. *)
Definition splitting : state nat :=
  {| self := {| _url := Some "http://host:8000/generate"; _prompt_url := None;
                _remote_prompt := false; _prompt := "{input}";
                _response_split := Some "A: " |};
     world := 0; sent := [] |}.

End UrlModuleSpec.

(** ** [update] with hooks that raise (lazyllm/module.py, lines 51-71)

    [TrainableModule._get_train_tasks] raises when no mode is set, and a
    hook of a subclass may raise for reasons of its own.  In a tree of
    type [module (exn + task)] a hook [None] returns [None], a hook
    [Some (inr t)] returns the task [t], and a hook [Some (inl e)] raises
    [e]. *)

Module UpdateHooks.
Import ModuleBase.

Section Hooks.
Context {task : Type}.

(** The call [top._get_.._tasks()]. *)
Definition call (hook : option (exn + task)) : exn + option task :=
  match hook with
  | None => inr None
  | Some (inr t) => inr (Some t)
  | Some (inl e) => inl e
  end.

(** What a hook returned, [None] for one that raises. *)
Definition returned (hook : option (exn + task)) : option task :=
  match hook with
  | Some (inr t) => Some t
  | _ => None
  end.

(** The node as [visited] keeps it: with the hooks as they returned. *)
Fixpoint returning (m : module (exn + task)) : module task :=
  match m with
  | Module l t d e children =>
      Module l (returned t) (returned d) (returned e) (map returning children)
  end.

(** Lines 61-64: the three hooks are called in this order, and the first
    exception leaves [update]. *)
Definition visit (top : module (exn + task)) (c : collected task)
  : exn + collected task :=
  match call (_get_train_tasks top) with
  | inl e => inl e
  | inr t =>
      match call (_get_deploy_tasks top) with
      | inl e => inl e
      | inr d =>
          match call (_get_eval_tasks top) with
          | inl e => inl e
          | inr ev =>
              inr {| train_tasks := absorb (train_tasks c) t;
                     deploy_tasks := absorb (deploy_tasks c) d;
                     eval_tasks := absorb (eval_tasks c) ev;
                     visited := visited c ++ [returning top] |}
          end
      end
  end.

(** Lines 56-64 *)
Fixpoint walk (fuel : nat)
    (stack : list (module (exn + task) * list (module (exn + task))))
    (c : collected task) : option (exn + collected task) :=
  match stack with
  | [] => Some (inr c)
  | (node, it) :: below =>
      match fuel with
      | 0 => None
      | S fuel =>
          match it with
          | top :: it => walk fuel ((top, submodules top) :: (node, it) :: below) c
          | [] =>
              match visit node c with
              | inl e => Some (inl e)
              | inr c => walk fuel below c
              end
          end
      end
  end.

(** Lines 51-71: the exception that left [update], or what was collected
    and what was asked of the flows. *)
Definition update (fuel : nat) (mode : string) (recursive : bool)
    (self : module (exn + task))
  : option (exn + collected task * list (action task)) :=
  if bool_decide (mode = "train") || bool_decide (mode = "server") then
    match walk fuel [(self, if recursive then submodules self else [])]
            {| train_tasks := []; deploy_tasks := []; eval_tasks := [];
               visited := [] |} with
    | None => None
    | Some (inl e) => Some (inl e)
    | Some (inr c) => Some (inr (c, launch mode c))
    end
  else Some (inl (AssertionError "")).

(** Line 74 *)
Definition start (fuel : nat) (self : module (exn + task)) :=
  update fuel "server" true self.

(** The exception that a visit of [m] raises, if any. *)
Definition first_exception (m : module (exn + task)) : option exn :=
  match call (_get_train_tasks m), call (_get_deploy_tasks m),
        call (_get_eval_tasks m) with
  | inl e, _, _ => Some e
  | inr _, inl e, _ => Some e
  | inr _, inr _, inl e => Some e
  | inr _, inr _, inr _ => None
  end.

(** The nodes [ms] visited one after the other, up to the first
    exception. *)
Fixpoint visit_each (ms : list (module (exn + task))) (c : collected task)
  : exn + collected task :=
  match ms with
  | [] => inr c
  | m :: ms =>
      match visit m c with
      | inl e => inl e
      | inr c => visit_each ms c
      end
  end.

End Hooks.

(** A service with a web front and a trainable model that was given no
    mode. *)
Definition web : module (exn + string) :=
  Module "web" None (Some (inr "deploy web")) None [].

Definition model_without_mode : module (exn + string) :=
  Module "model"
    (Some (inl (OtherError "RuntimeError: mode must be train or finetune")))
    (Some (inr "deploy model")) None [].

Definition no_mode : module (exn + string) :=
  Module "service" None (Some (inr "deploy service")) None
    [web; model_without_mode].

(** The same service with the mode of the model set. *)
Definition with_mode : module (exn + string) :=
  Module "service" None (Some (inr "deploy service")) None
    [web; Module "model" (Some (inr "finetune model")) (Some (inr "deploy model"))
            None []].

End UpdateHooks.

(** ** TrainableModule (lazyllm/module.py, lines 270-304)

    As for [ModuleBase], an instance is its attribute dictionary. *)

Module TrainableModule.
Import ModuleBase ModuleBaseSpec PyStr.

(** Line 299 *)
Definition keys : list string :=
  ["trainset"; "train"; "finetune"; "deploy"; "pre_func"; "post_func"; "mode"].

(** What reading an attribute gives: a value, or the closure [_setattr]
    of lines 296-298 made for [key]. *)
Inductive attribute :=
  | Value (v : value)
  | _setattr (key : string).

(** Lines 295-304 *)
Definition __getattr__ (key : string) : exn + attribute :=
  if bool_decide (key ∈ keys) then inr (_setattr key)
  else if starts_with (chars "_") (chars key)
          && bool_decide (text (drop 1 (chars key)) ∈ keys)
  then inr (Value VNone)
  else inl AttributeError.

(** [self.key] for a name that the classes of the instance do not
    define: the instance dictionary first, [__getattr__] when the name is
    not there. *)
Definition getattr (self : gmap string value) (key : string) : exn + attribute :=
  match self !! key with
  | Some v => inr (Value v)
  | None => __getattr__ key
  end.

(** Lines 296-298, the call [_setattr(v)] of the closure made for [key];
    [setattr] goes through [ModuleBase.__setattr__], and the call returns
    [self]. *)
Definition call_setattr (key : string) (v : value) (self : gmap string value)
  : outcome (gmap string value) :=
  __setattr__ self ("_" +:+ key) v.

(** Lines 271-277, with [UrlModule.__init__(url=None, remote_prompt=True)]
    of lines 104-108. *)
Definition __init__ (base_model target_path : value) : outcome (gmap string value) :=
  bind ModuleBase.__init__ (λ self,
    setattrs self
      [("_url", VNone); ("_prompt_url", VNone); ("_remote_prompt", VOther "True");
       ("_prompt", VStr "{input}"); ("_response_split", VNone);
       ("base_model", base_model); ("target_path", target_path);
       ("_train", VNone); ("_finetune", VOther "lazyllm.finetune.auto");
       ("_deploy", VNone)]).

Section Calls.

(** The call of a callable object, and [os.path.join]. *)
Variable call : value → list value → exn + value.
Variable os_path_join : value → string → exn + value.

(** The call of [f]: [None], a text and a list are not callable. *)
Definition apply (f : value) (args : list value) : exn + value :=
  match f with
  | VNone | VStr _ | VList _ => inl (OtherError "TypeError: object is not callable")
  | VModule _ | VOther _ => call f args
  end.

(** The value of the expression [self.key]. *)
Definition read (self : gmap string value) (key : string) : exn + value :=
  match getattr self key with
  | inr (Value v) => inr v
  | inr (_setattr _) => inr (VOther "_setattr")
  | inl e => inl e
  end.

(** [self.key(v)], as in [m.mode('train')]. *)
Definition configure (key : string) (v : value) (self : gmap string value)
  : outcome (gmap string value) :=
  match getattr self key with
  | inr (_setattr k) => call_setattr k v self
  | inr (Value f) =>
      match apply f [v] with
      | inl e => Raised e self
      | inr _ => Return self
      end
  | inl e => Raised e self
  end.

(** [v == text] *)
Definition equals (v : value) (text : string) : bool :=
  match v with
  | VStr s => String.eqb s text
  | _ => false
  end.

(** Lines 283 and 285: [attr(self.base_model, os.path.join(self.target_path, dir))]
    with [attr] read from [self]. *)
Definition trainer (self : gmap string value) (attr dir : string) : exn + value :=
  match read self attr with
  | inl e => inl e
  | inr f =>
      match read self "base_model" with
      | inl e => inl e
      | inr base_model =>
          match read self "target_path" with
          | inl e => inl e
          | inr target_path =>
              match os_path_join target_path dir with
              | inl e => inl e
              | inr path => apply f [base_model; path]
              end
          end
      end
  end.

(** Lines 279-288: the stages of the [Pipeline] returned.  The [lambda]
    of line 280 is made, not called. *)
Definition _get_train_tasks (self : gmap string value) : exn + list value :=
  match read self "_mode" with
  | inl e => inl e
  | inr mode =>
      if equals mode "train" then
        match trainer self "_train" "train" with
        | inl e => inl e
        | inr train => inr [VOther "trainset_getf"; train]
        end
      else if equals mode "finetune" then
        match trainer self "_finetune" "finetune" with
        | inl e => inl e
        | inr train => inr [VOther "trainset_getf"; train]
        end
      else inl (OtherError "RuntimeError: mode must be train or finetune")
  end.

(** Calls [self.key(v)] one after the other. *)
Fixpoint configures (calls : list (string * value)) (self : gmap string value)
  : outcome (gmap string value) :=
  match calls with
  | [] => Return self
  | (key, v) :: rest => bind (configure key v self) (configures rest)
  end.

End Calls.

(** What [__init__] leaves in the option [key]. *)
Definition initial (key : string) : value :=
  if String.eqb key "finetune" then VOther "lazyllm.finetune.auto" else VNone.

(** Backends for the examples: every call gives the callee back, and a
    path is the directory and the name. *)
Definition call_gives_callee (f : value) (args : list value) : exn + value := inr f.

Definition join_texts (dir : value) (name : string) : exn + value :=
  match dir with
  | VStr d => inr (VStr (d +:+ "/" +:+ name))
  | _ => inl (OtherError "TypeError: expected str")
  end.

End TrainableModule.

(** ** Module.__new__ (lazyllm/module.py, lines 319-340) *)

Module Factory.
Import ModuleBase.

(** The constructor call whose result [__new__] returns. *)
Inductive made :=
  | SequenceModule (args : list value)
  | ActionModule (action : value)
  | UrlModule (url : value).

(** [kw[key]] *)
Definition item (kw : gmap string value) (key : string) : exn + value :=
  match kw !! key with
  | Some v => inr v
  | None => inl (OtherError ("KeyError: " +:+ key))
  end.

(** [isinstance(x, str)] *)
Definition isinstance_str (x : value) : bool :=
  match x with
  | VStr _ => true
  | _ => false
  end.

Section New.

(** [isinstance(x, Module)] and [isinstance(x, FlowBase)] *)
Variable isinstance_Module isinstance_FlowBase : value → bool.

(** The test of line 327; its [args[0][0]] raises on an empty list.  It
    gives the list when it holds. *)
Definition list_of_modules (args : list value) : exn + option (list value) :=
  match args with
  | [VList items] =>
      match items with
      | [] => inl IndexError
      | x :: _ => inr (if isinstance_Module x then Some items else None)
      end
  | _ => inr None
  end.

(** Lines 324-340.  The last test is the constant [...], which holds, and
    [TrainableModule()] lacks the two arguments of its [__init__]. *)
Definition __new__ (args : list value) (kw : gmap string value) : exn + made :=
  if bool_decide (1 ≤ length args) && from_option isinstance_Module false (args !! 0)
  then inr (SequenceModule args)
  else
    match list_of_modules args with
    | inl e => inl e
    | inr (Some items) => inr (SequenceModule items)
    | inr None =>
        if bool_decide (length args = 0) && bool_decide (is_Some (kw !! "modules"))
        then
          match item kw "modules" with
          | inl e => inl e
          | inr modules => inr (SequenceModule [modules])
          end
        else if bool_decide (length args = 1)
                && from_option isinstance_FlowBase false (args !! 0)
        then
          match args !! 0 with
          | Some action => inr (ActionModule action)
          | None => inl IndexError
          end
        else if bool_decide (length args = 0) && bool_decide (is_Some (kw !! "action"))
        then
          match item kw "modules" with
          | inl e => inl e
          | inr modules => inr (ActionModule modules)
          end
        else if bool_decide (length args = 1)
                && from_option isinstance_str false (args !! 0)
        then
          match args !! 0 with
          | Some url => inr (UrlModule url)
          | None => inl IndexError
          end
        else if bool_decide (length args = 0) && bool_decide (is_Some (kw !! "url"))
        then
          match item kw "url" with
          | inl e => inl e
          | inr url => inr (UrlModule url)
          end
        else
          inl (OtherError
                 "TypeError: __init__() missing 2 required positional arguments")
    end.

End New.

(** No value is a [Module] or a flow. *)
Definition neither (x : value) : bool := false.

End Factory.

(** ** WebModule (lazyllm/module.py, lines 223-252) *)

Module WebModule.
Import PyStr.

(** Lines 81-84 *)
Record ModuleResponse := {
  messages : string;
  trace : string;
  err : Z * string
}.

(** A value [s] for which [isinstance(s, (ModuleResponse, str))] holds. *)
Inductive message :=
  | Str (s : string)
  | Response (r : ModuleResponse).

(** A value that the wrapped module returns, or that its generator
    yields. *)
Inductive item :=
  | Message (s : message)
  | Other (description : string).

(** What the call [self.m(input)] gives: a value, or a generator that
    yields [items] and then ends or raises [ending]. *)
Inductive result :=
  | Plain (i : item)
  | Generator (items : list item) (ending : option exn).

(** The log that is yielded: [None], a text, or [str(e)] for the
    exception [e] caught at line 249. *)
Inductive log :=
  | NoLog
  | Log (s : string)
  | ErrorText (e : exn).

(** A chat history: the turns [[query, answer]], the answer [None] while
    it is awaited. *)
Abbreviation turns := (list (string * option string)).

(** Lines 223-227: the flag that [self.m.stream_output] is set to, and
    what is returned. *)
Definition _prepare (query : string) (chat_history : option turns)
    (stream_output : bool) : bool * (string * turns) :=
  (stream_output, ("", default [] chat_history ++ [(query, None)])).

(** Lines 235-237, on the values that the tests of lines 238 and 243 let
    through. *)
Definition get_log_and_message (s : message) (l : log) : string * log :=
  match s with
  | Response r =>
      (messages r,
       Log (if bool_decide ((err r).1 ≠ 0%Z) then (err r).2 else trace r))
  | Str s => (s, l)
  end.

(** The text of line 232 for one turn; an answer [None] reads [None]. *)
Definition render (h : string * option string) : string :=
  h.1 +:+ "\<eou\>" +:+ default "None" h.2.

(** Lines 232-233 *)
Definition input (use_context : bool) (chat_history : turns) : exn + string :=
  if use_context then
    rsplit_head "\<eou\>" (join_with "\<eos\>" (render <$> chat_history))
  else
    match last chat_history with
    | Some h => inr h.1
    | None => inl IndexError
    end.

(** [chat_history[-1][1] = a] *)
Definition set_answer (chat_history : turns) (a : string) : exn + turns :=
  match last chat_history with
  | Some h => inr (removelast chat_history ++ [(h.1, Some a)])
  | None => inl IndexError
  end.

(** [chat_history[-1][1] += s], with [s = None] for a value that is no
    text. *)
Definition add_answer (chat_history : turns) (s : option string) : exn + turns :=
  match last chat_history with
  | Some h =>
      match h.2, s with
      | Some a, Some s => inr (removelast chat_history ++ [(h.1, Some (a +:+ s))])
      | _, _ => inl (OtherError "TypeError: unsupported operand for +=")
      end
  | None => inl IndexError
  end.

(** Lines 242-246: what the loop yields, and the exception that left it
    or the history and the log after it.  What is yielded is the history
    as it is at that moment. *)
Fixpoint for_items (items : list item) (ending : option exn)
    (chat_history : turns) (l : log)
  : list (option turns * log) * (exn + turns * log) :=
  match items with
  | [] =>
      ([], match ending with
           | Some e => inl e
           | None => inr (chat_history, l)
           end)
  | s :: items =>
      let '(s, l) := match s with
                     | Message s =>
                         let '(s, l) := get_log_and_message s l in (Some s, l)
                     | Other _ => (None, l)
                     end in
      match add_answer chat_history s with
      | inl e => ([], inl e)
      | inr chat_history =>
          let '(ys, r) := for_items items ending chat_history l in
          ((Some chat_history, l) :: ys, r)
      end
  end.

Section Respond.

(** The call [self.m(input)]. *)
Variable m : string → exn + result.

(** Lines 230-248, the body of the [try]. *)
Definition attempt (use_context : bool) (chat_history : turns)
  : list (option turns * log) * (exn + turns * log) :=
  match input use_context chat_history with
  | inl e => ([], inl e)
  | inr i =>
      match m i with
      | inl e => ([], inl e)
      | inr (Plain (Message s)) =>
          let '(a, l) := get_log_and_message s (Log "") in
          match set_answer chat_history a with
          | inl e => ([], inl e)
          | inr chat_history => ([], inr (chat_history, l))
          end
      | inr (Generator items ending) =>
          match set_answer chat_history "" with
          | inl e => ([], inl e)
          | inr chat_history => for_items items ending chat_history NoLog
          end
      | inr (Plain (Other _)) =>
          ([], inl (OtherError
                      "TypeError: function result should only be ModuleResponse or str"))
      end
  end.

(** Lines 229-252: everything that the generator yields. *)
Definition _respond_stream (use_context : bool) (chat_history : turns)
  : list (option turns * log) :=
  let '(ys, r) := attempt use_context chat_history in
  ys ++ [match r with
         | inl e => (None, ErrorText e)
         | inr (chat_history, l) => (Some chat_history, l)
         end].

End Respond.

(** [h'] is [h] but for the answer of the last turn. *)
Definition same_but_last_answer (h h' : turns) : Prop :=
  h'.*1 = h.*1 ∧ removelast h' = removelast h.

(** A module that answers in three pieces, whatever it is asked. *)
Definition in_pieces (i : string) : exn + result :=
  inr (Generator [Message (Str "It "); Message (Str "is "); Message (Str "late.")]
         None).

End WebModule.

(** * Properties *)

(** ** The store *)

Module StoreFacts.

Lemma preserves_refl (σ : store) : preserves σ σ.
Proof. by intros l o. Qed.

Lemma preserves_trans (σ1 σ2 σ3 : store) :
  preserves σ1 σ2 → preserves σ2 σ3 → preserves σ1 σ3.
Proof. intros H12 H23 l o Hl. eauto. Qed.

Lemma preserves_app (σ τ : store) : preserves σ (σ ++ τ).
Proof. intros l o Hl. by apply lookup_app_l_Some. Qed.

Lemma preserves_length (σ σ' : store) : preserves σ σ' → length σ ≤ length σ'.
Proof.
  intros Hp. destruct (decide (length σ ≤ length σ')) as [|Hn]; [done|].
  destruct (lookup_lt_is_Some_2 σ (length σ')) as [o Ho]; [lia|].
  apply Hp, lookup_lt_Some in Ho. lia.
Qed.

Lemma message_at_preserves (σ σ' : store) (r : loc) (m : Message) :
  preserves σ σ' → message_at σ r = Some m → message_at σ' r = Some m.
Proof.
  unfold message_at. intros Hp Hr.
  destruct (σ !! r) as [[m'|]|] eqn:E; simplify_eq.
  by rewrite (Hp _ _ E).
Qed.

Lemma omap_agree {A B} (f g : A → option B) (l : list A) :
  (∀ a b, f a = Some b → g a = Some b) →
  Forall (λ a, is_Some (f a)) l →
  omap g l = omap f l.
Proof.
  intros Hfg. induction 1 as [|a l [b Hb] _ IH]; [done|].
  cbn. rewrite Hb, (Hfg _ _ Hb). cbn. by rewrite IH.
Qed.

Lemma omap_message_at_preserves (σ σ' : store) (items : list loc) :
  preserves σ σ' →
  Forall (λ r, is_Some (message_at σ r)) items →
  omap (message_at σ') items = omap (message_at σ) items.
Proof.
  intros Hp. apply omap_agree. intros r m. by apply message_at_preserves.
Qed.

(** What a well-formed list refers to is not changed by anything that
    keeps the objects of the store. *)
Lemma view_preserves (σ σ' : store) (l : loc) :
  preserves σ σ' → is_history σ l → view σ' l = view σ l.
Proof.
  intros Hp (items & Hl & Hitems). unfold view.
  rewrite Hl, (Hp _ _ Hl). by apply omap_message_at_preserves.
Qed.

(** [append] writes the list it is applied to and nothing else. *)
Lemma list_append_other (σ : store) (l l0 : loc) (m : Message) (o : obj) :
  l0 ≠ l → σ !! l0 = Some o → list_append σ l m !! l0 = Some o.
Proof.
  intros Hne Hl0. unfold list_append, alloc.
  destruct ((σ ++ [OMessage m]) !! l) as [[|items]|] eqn:E;
    try by apply lookup_app_l_Some.
  rewrite list_lookup_insert_ne by done. by apply lookup_app_l_Some.
Qed.

Lemma list_append_length (σ : store) (l : loc) (m : Message) :
  length (list_append σ l m) = S (length σ).
Proof.
  unfold list_append, alloc.
  destruct ((σ ++ [OMessage m]) !! l) as [[|items]|];
    rewrite ?length_insert, length_app; cbn; lia.
Qed.

Lemma list_append_history (σ : store) (l : loc) (m : Message) :
  is_history σ l →
  is_history (list_append σ l m) l ∧ view (list_append σ l m) l = view σ l ++ [m].
Proof.
  intros (items & Hl & Hitems).
  assert (Hlt : l < length σ) by by eapply lookup_lt_Some.
  assert (Hσ' : list_append σ l m
                = <[l := OList (items ++ [length σ])]> (σ ++ [OMessage m])).
  { unfold list_append, alloc. by rewrite (lookup_app_l_Some _ _ _ _ Hl). }
  assert (Hnew : list_append σ l m !! l = Some (OList (items ++ [length σ]))).
  { rewrite Hσ'. apply list_lookup_insert_eq. rewrite length_app. lia. }
  assert (Hold : ∀ r m', message_at σ r = Some m' →
                         message_at (list_append σ l m) r = Some m').
  { intros r m' Hr. unfold message_at in *.
    destruct (σ !! r) as [[m''|]|] eqn:E; simplify_eq.
    rewrite (list_append_other σ l r m (OMessage m')); [done| |done].
    intros ->. congruence. }
  assert (Hfresh : message_at (list_append σ l m) (length σ) = Some m).
  { unfold message_at. rewrite Hσ', list_lookup_insert_ne by lia.
    by rewrite lookup_app_r, Nat.sub_diag by lia. }
  assert (Hmap : omap (message_at (list_append σ l m)) items
                 = omap (message_at σ) items).
  { by apply omap_agree. }
  split.
  - exists (items ++ [length σ]). split; [done|].
    apply Forall_app. split.
    + eapply Forall_impl; [exact Hitems|]. intros r [m' Hm']. eauto.
    + repeat constructor. eauto.
  - unfold view. rewrite Hnew, Hl, omap_app, Hmap.
    change (omap (message_at (list_append σ l m)) [length σ])
      with (from_option (λ x, [x]) [] (message_at (list_append σ l m) (length σ))).
    by rewrite Hfresh.
Qed.

Lemma deepcopy_fresh (σ : store) (l : loc) :
  length σ ≤ (deepcopy σ l).2 ∧ preserves σ (deepcopy σ l).1.
Proof.
  unfold deepcopy, alloc. cbn. rewrite length_app. split; [lia|].
  rewrite <- (assoc_L (++)). apply preserves_app.
Qed.

Lemma omap_seq_lookup {B} (f : nat → option B) (ms : list B) (n : nat) :
  (∀ i m, ms !! i = Some m → f (n + i) = Some m) →
  omap f (seq n (length ms)) = ms.
Proof.
  revert n. induction ms as [|m ms IH]; intros n Hm; [done|].
  cbn. rewrite <- (Nat.add_0_r n) at 1. rewrite (Hm 0 m eq_refl). cbn.
  f_equal. apply IH. intros i m' Hi.
  replace (S n + i) with (n + S i) by lia. by apply Hm.
Qed.

Lemma deepcopy_history (σ : store) (l : loc) :
  is_history (deepcopy σ l).1 (deepcopy σ l).2 ∧
  view (deepcopy σ l).1 (deepcopy σ l).2 = view σ l.
Proof.
  unfold deepcopy, alloc. cbn.
  set (ms := view σ l). set (σ' := (σ ++ (OMessage <$> ms)) ++ _).
  assert (Hl : σ' !! length (σ ++ (OMessage <$> ms))
               = Some (OList (seq (length σ) (length ms)))).
  { unfold σ'. by rewrite lookup_app_r, Nat.sub_diag by lia. }
  assert (Hm : ∀ i m, ms !! i = Some m → message_at σ' (length σ + i) = Some m).
  { intros i m Hi. unfold message_at, σ'.
    assert (i < length ms) by by eapply lookup_lt_Some.
    rewrite lookup_app_l by (rewrite length_app, length_fmap; lia).
    rewrite lookup_app_r by lia.
    replace (length σ + i - length σ) with i by lia.
    by rewrite list_lookup_fmap, Hi. }
  split.
  - eexists. split; [exact Hl|].
    apply Forall_forall. intros r Hr. apply elem_of_seq in Hr.
    destruct (lookup_lt_is_Some_2 ms (r - length σ)) as [m Hi]; [lia|].
    exists m. replace r with (length σ + (r - length σ)) by lia. by apply Hm.
  - unfold view at 1. rewrite Hl. by apply omap_seq_lookup.
Qed.

End StoreFacts.

(** ** The steps of [_run] *)

Module AgentFacts.
Import FuncCallAgent AgentSpec StoreFacts.

Section Steps.
Context {W : Type}.
Variable MAX_CONSECUTIVE_TOOL_CALL_NUM : nat.
Variable _call_llm : Message → list Message → W → list Message * W.
Variable _call_tool : string → string → W → tool_result * W.

Abbreviation state := (run_state W).
Abbreviation dispatch := (dispatch _call_tool).
Abbreviation on_tool_calls := (on_tool_calls _call_tool).
Abbreviation on_response := (on_response _call_tool).
Abbreviation for_responses := (for_responses _call_tool).
Abbreviation round := (round _call_llm _call_tool).
Abbreviation while_loop :=
  (while_loop MAX_CONSECUTIVE_TOOL_CALL_NUM _call_llm _call_tool).
Abbreviation _run := (_run MAX_CONSECUTIVE_TOOL_CALL_NUM _call_llm _call_tool).

Lemma extends_same (st st' : state) :
  heap st' = heap st → llm_chat_history st' = llm_chat_history st →
  wf st → extends st st' [].
Proof.
  intros Hh Hl Hwf. unfold extends, wf, history.
  rewrite Hh, Hl, app_nil_r. auto.
Qed.

Lemma extends_refl (st : state) : wf st → extends st st [].
Proof. by apply extends_same. Qed.

Lemma extends_trans (st1 st2 st3 : state) (a b : list Message) :
  extends st1 st2 a → extends st2 st3 b → extends st1 st3 (a ++ b).
Proof.
  intros (_ & Hh12 & Hl12 & Hk12) (Hwf & Hh23 & Hl23 & Hk23).
  split; [done|]. split; [by rewrite Hh23, Hh12, (assoc_L (++))|].
  split; [congruence|].
  intros l o Hne Hl. apply Hk23; [congruence|]. by apply Hk12.
Qed.

Lemma extends_append (m : Message) (st : state) :
  wf st → extends st (append m st) [m].
Proof.
  intros Hwf. destruct (list_append_history _ _ m Hwf) as [Hwf' Hv].
  split; [done|]. split; [done|]. split; [done|].
  intros l o Hne Hl. by apply list_append_other.
Qed.

Lemma extends_wf (st st' : state) (app : list Message) :
  extends st st' app → wf st'.
Proof. by intros [? _]. Qed.

Lemma extends_then_same (st st' st'' : state) (app : list Message) :
  extends st st' app →
  heap st'' = heap st' → llm_chat_history st'' = llm_chat_history st' →
  extends st st'' app.
Proof.
  intros H Hh Hl. rewrite <- (app_nil_r app).
  eapply extends_trans; [exact H|].
  apply extends_same; [done..|]. by eapply extends_wf.
Qed.

Lemma extends_flush (st : state) :
  wf st →
  extends st (flush st)
    (match content_cache st with
     | [] => []
     | _ :: _ => [content_message (last_role st) (join (content_cache st))]
     end).
Proof.
  intros Hwf. unfold flush. destruct (content_cache st) as [|c cs].
  - by apply extends_refl.
  - eapply extends_then_same; [by apply extends_append|done..].
Qed.

(** *** The tools of one request list *)

Lemma reply_turns_nil_r (tcs : list ToolCall) : reply_turns tcs [] = [].
Proof. unfold reply_turns. by destruct tcs. Qed.

Lemma dispatch_locals (tcs : list ToolCall) (st : state) :
  let st' := state_of (dispatch tcs st) in
  last_role st' = last_role st ∧
  content_cache st' = content_cache st ∧
  tool_call_counter st' = tool_call_counter st ∧
  rounds st' = rounds st.
Proof.
  revert st. induction tcs as [|tc tcs IH]; intros st; [done|].
  cbn. destruct (_call_tool _ _ _) as [[[res|]|e] w]; cbn; [| |done].
  - destruct (IH (yield (tool_message res (fc_name (tc_function tc)) (tc_id tc))
                   (append (tool_message res (fc_name (tc_function tc)) (tc_id tc))
                      (set_world w (log_call (fc_name (tc_function tc))
                                      (fc_arguments (tc_function tc)) st)))))
      as (-> & -> & -> & ->). done.
  - destruct (IH (set_world w (log_call (fc_name (tc_function tc))
                                 (fc_arguments (tc_function tc)) st)))
      as (-> & -> & -> & ->). done.
Qed.

Lemma dispatch_spec (tcs : list ToolCall) (st : state) :
  wf st →
  let rs := tool_results _call_tool tcs (world st) in
  let st' := state_of (dispatch tcs st) in
  raised (dispatch tcs st) = raising rs ∧
  extends st st' (reply_turns tcs rs) ∧
  yielded st' = yielded st ++ reply_turns tcs rs ∧
  tool_trace st' = tool_trace st ++ (call_of <$> take (length rs) tcs) ∧
  world st' = world_after _call_tool tcs (world st).
Proof.
  revert st. induction tcs as [|tc tcs IH]; intros st Hwf.
  { cbn. rewrite !app_nil_r. split; [done|]. split; [by apply extends_refl|done]. }
  cbn -[reply_turns call_of].
  destruct (_call_tool _ _ _) as [[[res|]|e] w] eqn:E; cbn -[reply_turns call_of].
  - set (m := tool_message res _ _).
    set (st1 := yield m (append m (set_world w (log_call _ _ st)))).
    assert (Hext1 : extends st st1 [m]).
    { eapply extends_then_same; [by apply (extends_append m)|done..]. }
    destruct (IH st1 (extends_wf _ _ _ Hext1)) as (Hr & Hext & Hy & Ht & Hw).
    change (world st1) with w in *.
    split.
    { rewrite Hr. unfold raising. cbn.
      by destruct (tool_results _call_tool tcs w). }
    split.
    { change (reply_turns (tc :: tcs) (_ :: ?rs)) with (m :: reply_turns tcs rs).
      by apply (extends_trans st st1 _ [m]). }
    split.
    { rewrite Hy. cbn -[reply_turns]. by rewrite <- (assoc_L (++)). }
    split; [|done].
    rewrite Ht. cbn. by rewrite <- (assoc_L (++)).
  - set (st1 := set_world w (log_call _ _ st)).
    assert (Hext1 : extends st st1 []) by by apply extends_same.
    destruct (IH st1 (extends_wf _ _ _ Hext1)) as (Hr & Hext & Hy & Ht & Hw).
    change (world st1) with w in *.
    split.
    { rewrite Hr. unfold raising. cbn.
      by destruct (tool_results _call_tool tcs w). }
    split.
    { change (reply_turns (tc :: tcs) (_ :: ?rs)) with (reply_turns tcs rs).
      by apply (extends_trans st st1 _ []). }
    split; [done|]. split; [|done].
    rewrite Ht. cbn. by rewrite <- (assoc_L (++)).
  - change (reply_turns (tc :: tcs) [ToolRaise e]) with (reply_turns tcs []).
    rewrite reply_turns_nil_r.
    split; [done|]. split; [by apply extends_same|].
    rewrite !app_nil_r. done.
Qed.

(** *** One fragment *)

Lemma extends_on_role (f : Message) (st : state) :
  wf st → ∃ app, extends st (on_role f st) app.
Proof.
  intros Hwf. unfold on_role. destruct (truthy_str (role f)).
  - eexists. eapply extends_then_same; [by apply extends_flush|done..].
  - exists []. by apply extends_refl.
Qed.

Lemma extends_on_tool_calls (f : Message) (st : state) :
  wf st → ∃ app, extends st (state_of (on_tool_calls f st)) app.
Proof.
  intros Hwf. unfold on_tool_calls.
  destruct (truthy_list (tool_calls f)) as [tcs|]; [|exists []; by apply extends_refl].
  case_bool_decide; [|exists []; by apply extends_refl].
  set (m := tool_calls_message _ tcs).
  set (st1 := set_content_cache [] (append m st)).
  assert (H1 : extends st st1 [m]).
  { eapply extends_then_same; [by apply (extends_append m)|done..]. }
  destruct (dispatch_spec tcs st1 (extends_wf _ _ _ H1)) as (_ & H2 & _).
  eexists. eapply extends_trans; [exact H1|].
  unfold bind. destruct (dispatch tcs st1) as [st2|e st2]; cbn in *.
  - eapply extends_then_same; [exact H2|done..].
  - exact H2.
Qed.

Lemma extends_on_response (f : Message) (st : state) :
  wf st → ∃ app, extends st (state_of (on_response f st)) app.
Proof.
  intros Hwf. unfold on_response.
  assert (H0 : extends st (yield f st) []) by by apply extends_same.
  destruct (extends_on_role f (yield f st) (extends_wf _ _ _ H0)) as [a1 H1].
  set (st1 := on_role f (yield f st)) in *.
  assert (H2 : extends st1 (on_content f st1) []).
  { apply extends_same; [by unfold on_content; destruct (truthy_str _)..|].
    by eapply extends_wf. }
  destruct (extends_on_tool_calls f _ (extends_wf _ _ _ H2)) as [a3 H3].
  eexists. eapply extends_trans; [exact H0|].
  eapply extends_trans; [exact H1|].
  eapply extends_trans; [exact H2|exact H3].
Qed.

Lemma extends_for_responses (fs : list Message) (st : state) :
  wf st → ∃ app, extends st (state_of (for_responses fs st)) app.
Proof.
  revert st. induction fs as [|f fs IH]; intros st Hwf.
  { exists []. by apply extends_refl. }
  destruct (extends_on_response f st Hwf) as [a1 H1]. cbn.
  destruct (on_response f st) as [st1|e st1]; cbn in *; [|by eauto].
  destruct (IH st1 (extends_wf _ _ _ H1)) as [a2 H2].
  eexists. eapply extends_trans; [exact H1|exact H2].
Qed.

Lemma extends_round (__input : Message) (st : state) :
  wf st → ∃ app, extends st (state_of (round __input st)) app.
Proof.
  intros Hwf. unfold round.
  destruct (_call_llm __input (history st) (world st)) as [fs w].
  assert (H0 : extends st (set_world w st) []) by by apply extends_same.
  destruct (extends_for_responses fs _ (extends_wf _ _ _ H0)) as [a1 H1].
  destruct (for_responses fs (set_world w st)) as [st1|e st1]; cbn in *.
  - eexists. eapply extends_trans; [exact H0|].
    eapply extends_trans; [exact H1|].
    eapply extends_then_same; [apply extends_flush; by eapply extends_wf|done..].
  - eexists. eapply extends_trans; [exact H0|exact H1].
Qed.

Lemma extends_while_loop (fuel : nat) (__input : Message) (st : state) :
  wf st → ∃ app, extends st (final (while_loop fuel __input st)) app.
Proof.
  revert st. induction fuel as [|fuel IH]; intros st Hwf; cbn.
  { case_bool_decide; exists []; by apply extends_refl. }
  case_bool_decide; [|exists []; by apply extends_refl].
  destruct (extends_round __input st Hwf) as [a1 H1].
  destruct (round __input st) as [st1|e st1]; cbn in *; [|by eauto].
  destruct (last (history st1)) as [turn|]; [|by eauto].
  destruct (negb (role_is TOOL turn)); [by eauto|].
  destruct (IH st1 (extends_wf _ _ _ H1)) as [a2 H2].
  eexists. eapply extends_trans; [exact H1|exact H2].
Qed.

(** *** The counter and the round log *)

Lemma before_tool_calls_counter (f : Message) (st : state) :
  let st1 := on_content f (on_role f (yield f st)) in
  tool_call_counter st1 = tool_call_counter st ∧ rounds st1 = rounds st.
Proof.
  unfold on_content, on_role, flush. cbn.
  destruct (truthy_str (role f)), (truthy_str (content f)),
    (content_cache st); done.
Qed.

Lemma carries_tool_calls_spec (f : Message) :
  carries_tool_calls f = true ↔ ∃ tcs, truthy_list (tool_calls f) = Some tcs.
Proof. unfold carries_tool_calls. by rewrite bool_decide_eq_true. Qed.

Lemma on_response_counter (f : Message) (st : state) :
  rounds (state_of (on_response f st)) = rounds st ∧
  tool_call_counter st ≤ tool_call_counter (state_of (on_response f st)) ∧
  ∀ st', on_response f st = Return st' →
         tool_call_counter st' =
         tool_call_counter st + (if carries_tool_calls f then 1 else 0).
Proof.
  unfold on_response, on_tool_calls.
  destruct (before_tool_calls_counter f st) as [Hc Hr].
  set (st1 := on_content f (on_role f (yield f st))) in *.
  unfold carries_tool_calls.
  destruct (truthy_list (tool_calls f)) as [tcs|]; cbn.
  2: { rewrite Hc, Hr. split; [done|]. split; [lia|].
       intros st' [= <-]. lia. }
  case_bool_decide; cbn.
  2: { rewrite Hc, Hr. split; [done|]. split; [lia|]. done. }
  set (st2 := set_content_cache [] _).
  destruct (dispatch_locals tcs st2) as (_ & _ & Hc2 & Hr2).
  destruct (dispatch tcs st2) as [st3|e st3]; cbn in *.
  - rewrite Hc2, Hr2. change (tool_call_counter st2) with (tool_call_counter st1).
    change (rounds st2) with (rounds st1). rewrite Hc, Hr.
    split; [done|]. split; [lia|]. intros st' [= <-]. cbn. lia.
  - rewrite Hc2, Hr2. change (tool_call_counter st2) with (tool_call_counter st1).
    change (rounds st2) with (rounds st1). rewrite Hc, Hr.
    split; [done|]. split; [lia|]. done.
Qed.

Lemma for_responses_counter (fs : list Message) (st : state) :
  rounds (state_of (for_responses fs st)) = rounds st ∧
  tool_call_counter st ≤ tool_call_counter (state_of (for_responses fs st)) ∧
  ∀ st', for_responses fs st = Return st' →
         tool_call_counter st' =
         tool_call_counter st + length (filter (λ f, carries_tool_calls f = true) fs).
Proof.
  revert st. induction fs as [|f fs IH]; intros st.
  { cbn. split; [done|]. split; [lia|]. intros st' [= <-]. lia. }
  cbn -[filter]. destruct (on_response_counter f st) as (Hr & Hle & Hc).
  destruct (on_response f st) as [st1|e st1]; cbn -[filter] in *.
  2: { split; [done|]. split; [lia|]. done. }
  destruct (IH st1) as (Hr' & Hle' & Hc').
  split; [congruence|]. split; [lia|].
  intros st' Hst'. rewrite (Hc' _ Hst'), (Hc _ eq_refl).
  rewrite filter_cons. destruct (carries_tool_calls f); cbn.
  - rewrite decide_True by done. cbn. lia.
  - rewrite decide_False by done. lia.
Qed.

(** A round that returns logs by how much it raised the counter: the
    number of fragments of the response that carry tool calls. *)
Lemma round_counter (__input : Message) (st : state) :
  match round __input st with
  | Return st' =>
      let fs := (_call_llm __input (history st) (world st)).1 in
      let n := length (filter (λ f, carries_tool_calls f = true) fs) in
      tool_call_counter st' = tool_call_counter st + n ∧
      rounds st' = rounds st ++ [n]
  | Raised _ st' =>
      tool_call_counter st ≤ tool_call_counter st' ∧ rounds st' = rounds st
  end.
Proof.
  unfold round. destruct (_call_llm __input (history st) (world st)) as [fs w].
  destruct (for_responses_counter fs (set_world w st)) as (Hr & Hle & Hc).
  destruct (for_responses fs (set_world w st)) as [st1|e st1]; cbn in *; [|done].
  specialize (Hc _ eq_refl).
  assert (tool_call_counter (flush st1) = tool_call_counter st1
          ∧ rounds (flush st1) = rounds st1) as [-> ->].
  { unfold flush. by destruct (content_cache st1). }
  rewrite Hc, Hr. split; [done|]. f_equal. f_equal. lia.
Qed.

(** *** The rounds in which the dispatcher is called *)

Lemma remove_dups_replicate (k n : nat) :
  length (remove_dups (replicate k n)) = if decide (0 < k) then 1 else 0.
Proof.
  induction k as [|k IH]; [done|]. cbn [replicate remove_dups].
  rewrite (decide_True (P := 0 < S k)) by lia.
  destruct (decide_rel elem_of n (replicate k n)) as [Hin|Hnin].
  - rewrite IH. apply elem_of_replicate in Hin as [_ Hk].
    by rewrite decide_True by lia.
  - destruct k as [|k]; [done|]. destruct Hnin. cbn. left.
Qed.

Lemma remove_dups_round (l : list nat) (n k : nat) :
  Forall (λ i, i < n) l →
  length (remove_dups (l ++ replicate k n))
  = length (remove_dups l) + (if decide (0 < k) then 1 else 0).
Proof.
  induction 1 as [|x l Hx _ IH]; [apply remove_dups_replicate|].
  cbn [app remove_dups].
  assert (Hin : x ∈ l ++ replicate k n ↔ x ∈ l).
  { rewrite elem_of_app, elem_of_replicate. intuition lia. }
  destruct (decide_rel elem_of x (l ++ replicate k n)) as [Hl|Hl],
           (decide_rel elem_of x l) as [Hl'|Hl']; cbn.
  - done.
  - by apply Hin in Hl.
  - destruct Hl. by apply Hin.
  - by rewrite IH.
Qed.

Lemma dispatch_calls (tcs : list ToolCall) (st : state) :
  ∃ k, call_rounds (state_of (dispatch tcs st))
       = call_rounds st ++ replicate k (length (rounds st)) ∧
       (tcs = [] → k = 0) ∧ (tcs ≠ [] → 0 < k).
Proof.
  revert st. induction tcs as [|tc tcs IH]; intros st.
  { exists 0. by rewrite app_nil_r. }
  cbn [FuncCallAgent.dispatch].
  destruct (_call_tool _ _ _) as [[[res|]|e] w].
  - destruct (IH (yield (tool_message res (fc_name (tc_function tc)) (tc_id tc))
                   (append (tool_message res (fc_name (tc_function tc)) (tc_id tc))
                      (set_world w (log_call (fc_name (tc_function tc))
                                      (fc_arguments (tc_function tc)) st)))))
      as (k & Hk & _).
    exists (S k). rewrite Hk. cbn. rewrite <- (assoc_L (++)).
    split; [done|]. split; [done|lia].
  - destruct (IH (set_world w (log_call (fc_name (tc_function tc))
                                 (fc_arguments (tc_function tc)) st)))
      as (k & Hk & _).
    exists (S k). rewrite Hk. cbn. rewrite <- (assoc_L (++)).
    split; [done|]. split; [done|lia].
  - exists 1. cbn. split; [done|]. split; [done|lia].
Qed.

Lemma before_tool_calls_call_rounds (f : Message) (st : state) :
  call_rounds (on_content f (on_role f (yield f st))) = call_rounds st.
Proof.
  unfold on_content, on_role, flush. cbn.
  destruct (truthy_str (role f)), (truthy_str (content f)),
    (content_cache st); done.
Qed.

(** The calls of one fragment are made in the round in progress, and
    there are some when the fragment carries tool calls that the
    assertion lets through. *)
Lemma on_response_calls (f : Message) (st : state) :
  ∃ k, call_rounds (state_of (on_response f st))
       = call_rounds st ++ replicate k (length (rounds st)) ∧
       (0 < k → carries_tool_calls f = true) ∧
       (∀ st', on_response f st = Return st' →
               carries_tool_calls f = true → 0 < k).
Proof.
  unfold on_response, on_tool_calls.
  pose proof (before_tool_calls_call_rounds f st) as Hcalls.
  destruct (before_tool_calls_counter f st) as [_ Hr].
  set (st1 := on_content f (on_role f (yield f st))) in *.
  unfold carries_tool_calls.
  destruct (truthy_list (tool_calls f)) as [tcs|] eqn:Htcs; cbn.
  2: { exists 0. rewrite Hcalls, app_nil_r. split; [done|].
       split; [lia|]. done. }
  assert (Hne : tcs ≠ []).
  { unfold truthy_list in Htcs. by destruct (tool_calls f) as [[|]|]; simplify_eq. }
  case_bool_decide; cbn.
  2: { exists 0. rewrite Hcalls, app_nil_r. split; [done|]. split; [lia|done]. }
  set (st2 := set_content_cache [] _).
  destruct (dispatch_calls tcs st2) as (k & Hk & _ & Hpos).
  exists k. split.
  - change (call_rounds st2) with (call_rounds st1) in Hk.
    change (rounds st2) with (rounds st1) in Hk. rewrite Hcalls, Hr in Hk.
    by destruct (dispatch tcs st2).
  - split; [done|]. auto.
Qed.

Lemma for_responses_calls (fs : list Message) (st : state) :
  ∃ k, call_rounds (state_of (for_responses fs st))
       = call_rounds st ++ replicate k (length (rounds st)) ∧
       ∀ st', for_responses fs st = Return st' →
              (0 < k ↔ tool_call_counter st < tool_call_counter st').
Proof.
  revert st. induction fs as [|f fs IH]; intros st.
  { exists 0. cbn. rewrite app_nil_r. split; [done|]. intros st' [= <-]. lia. }
  cbn [for_responses].
  destruct (on_response_calls f st) as (k1 & Hk1 & Hcarries & Hpos).
  destruct (on_response_counter f st) as (Hr & Hle & Hc).
  destruct (on_response f st) as [st1|e st1]; cbn [bind state_of] in *.
  2: { exists k1. split; [done|]. done. }
  destruct (IH st1) as (k2 & Hk2 & Hiff).
  destruct (for_responses_counter fs st1) as (_ & Hle2 & _).
  exists (k1 + k2). split.
  - rewrite Hk2, Hk1, Hr, <- (assoc_L (++)), replicate_add. done.
  - intros st' Hst'. specialize (Hiff st' Hst'). specialize (Hc st1 eq_refl).
    specialize (Hpos st1 eq_refl). rewrite Hst' in Hle2. cbn in Hle2.
    destruct (carries_tool_calls f); [|destruct k1; [|by specialize (Hcarries ltac:(lia))]; lia].
    specialize (Hpos eq_refl). lia.
Qed.

(** The calls of a round, whether it returns or raises, are made in that
    round, and a round that returns has called the dispatcher exactly
    when it raised the counter. *)
Lemma round_calls (__input : Message) (st : state) :
  ∃ k, call_rounds (state_of (round __input st))
       = call_rounds st ++ replicate k (length (rounds st)) ∧
       ∀ st', round __input st = Return st' →
              (0 < k ↔ tool_call_counter st < tool_call_counter st').
Proof.
  unfold round. destruct (_call_llm __input (history st) (world st)) as [fs w].
  destruct (for_responses_calls fs (set_world w st)) as (k & Hk & Hiff).
  exists k.
  destruct (for_responses fs (set_world w st)) as [st1|e st1]; cbn in *.
  - assert (call_rounds (flush st1) = call_rounds st1
            ∧ tool_call_counter (flush st1) = tool_call_counter st1) as [-> Hc].
    { unfold flush. by destruct (content_cache st1). }
    split; [done|]. intros st' [= <-]. cbn. rewrite Hc. by apply Hiff.
  - split; [done|]. done.
Qed.

Lemma dispatch_rounds_round (st st' : state) (k : nat) :
  Forall (λ i, i < length (rounds st)) (call_rounds st) →
  call_rounds st' = call_rounds st ++ replicate k (length (rounds st)) →
  dispatch_rounds st' = dispatch_rounds st + (if decide (0 < k) then 1 else 0).
Proof.
  intros Hbefore Hcalls. unfold dispatch_rounds. rewrite Hcalls.
  by apply remove_dups_round.
Qed.

(** The rounds that dispatched tools are at most as many as the bound
    allows: between rounds each of them has been counted, and a round
    begins only while the counter is under the bound. *)
Lemma while_loop_dispatch_rounds (fuel : nat) (__input : Message) (st : state) :
  Forall (λ i, i < length (rounds st)) (call_rounds st) →
  dispatch_rounds st ≤ tool_call_counter st →
  dispatch_rounds st ≤ MAX_CONSECUTIVE_TOOL_CALL_NUM →
  dispatch_rounds (final (while_loop fuel __input st))
  ≤ MAX_CONSECUTIVE_TOOL_CALL_NUM.
Proof.
  revert st. induction fuel as [|fuel IH]; intros st Hold Hc Hm; cbn.
  { by case_bool_decide. }
  case_bool_decide as Hlt; [|done].
  pose proof (round_counter __input st) as Hround.
  destruct (round_calls __input st) as (k & Hk & Hiff).
  pose proof (dispatch_rounds_round st _ k Hold Hk) as Hdr.
  destruct (round __input st) as [st1|e st1]; cbn in *.
  2: { rewrite Hdr. case_decide; lia. }
  destruct Hround as [Hc1 Hr1]. specialize (Hiff st1 eq_refl).
  assert (dispatch_rounds st1 ≤ tool_call_counter st1
          ∧ dispatch_rounds st1 ≤ MAX_CONSECUTIVE_TOOL_CALL_NUM) as [? ?].
  { rewrite Hdr. case_decide; lia. }
  assert (Hold1 : Forall (λ i, i < length (rounds st1)) (call_rounds st1)).
  { rewrite Hk, Hr1, length_app. cbn. apply Forall_app. split.
    - eapply Forall_impl; [done|]. cbn. lia.
    - apply Forall_replicate. lia. }
  destruct (last (history st1)) as [turn|]; [|done].
  destruct (negb (role_is TOOL turn)); [done|]. by apply IH.
Qed.

(** *** Progress of a round *)

Lemma progresses_trans (st1 st2 st3 : state) (a b : list Message) :
  progresses st1 st2 a → progresses st2 st3 b → progresses st1 st3 (a ++ b).
Proof.
  intros (He1 & Hc1 & Ht1) (He2 & Hc2 & Ht2).
  split; [by eapply extends_trans|]. split; [lia|].
  intros m Hm Hrole. destruct b as [|x b] using rev_ind.
  - rewrite app_nil_r in Hm. specialize (Ht1 _ Hm Hrole). lia.
  - rewrite (assoc_L (++)), last_snoc in Hm. simplify_eq.
    rewrite last_snoc in Ht2. specialize (Ht2 _ eq_refl Hrole). lia.
Qed.

Lemma truthy_role_not_tool (f : Message) (r : string) :
  role_is TOOL f = false → truthy_str (role f) = Some r → r ≠ TOOL.
Proof.
  unfold role_is, truthy_str. destruct (role f) as [s|]; [|done].
  destruct (String.eqb s ""); [done|]. intros Hne [= <-].
  by apply String.eqb_neq.
Qed.

Lemma on_response_progress (f : Message) (st st' : state) :
  wf st → last_role st ≠ Some TOOL → role_is TOOL f = false →
  on_response f st = Return st' →
  ∃ app, progresses st st' app ∧
         last_role st' ≠ Some TOOL ∧
         (has_payload f = true ∨ content_cache st ≠ [] →
          app ≠ [] ∨ content_cache st' ≠ []).
Proof.
  intros Hwf Hlr Hf. unfold on_response, on_tool_calls, has_payload, carries_tool_calls.
  assert (H0 : extends st (yield f st) []) by by apply extends_same.
  (* the role *)
  assert (∃ a1, progresses st (on_role f (yield f st)) a1 ∧
                last_role (on_role f (yield f st)) ≠ Some TOOL ∧
                tool_call_counter (on_role f (yield f st)) = tool_call_counter st ∧
                (content_cache st ≠ [] →
                 a1 ≠ [] ∨ content_cache (on_role f (yield f st)) ≠ []))
    as (a1 & (He1 & _ & Ht1) & Hlr1 & Hc1 & Hp1).
  { unfold on_role. destruct (truthy_str (role f)) as [r|] eqn:Er.
    - exists (match content_cache st with
              | [] => []
              | _ :: _ => [content_message (last_role st) (join (content_cache st))]
              end).
      assert (Hfl : extends st (flush (yield f st))
                      (match content_cache st with
                       | [] => []
                       | _ :: _ => [content_message (last_role st) (join (content_cache st))]
                       end)).
      { apply (extends_trans _ _ _ [] _ H0).
        apply (extends_flush (yield f st)). by eapply extends_wf. }
      split; [split; [|split]|split; [|split]].
      + eapply extends_then_same; [exact Hfl|done..].
      + cbn. unfold flush. cbn. destruct (content_cache st); cbn; lia.
      + intros m Hm Hrole. exfalso. destruct (content_cache st); [done|].
        cbn in Hm. simplify_eq. unfold role_is in Hrole. cbn in Hrole.
        destruct (last_role st) as [lr|]; [|done].
        apply String.eqb_eq in Hrole. congruence.
      + cbn. intros [= ->]. by eapply truthy_role_not_tool.
      + cbn. unfold flush. cbn. by destruct (content_cache st).
      + intros Hne. left. by destruct (content_cache st).
    - exists []. split; [split; [done|split; [cbn; lia|done]]|].
      split; [done|]. split; [done|]. intros Hne. by right. }
  set (st1 := on_role f (yield f st)) in *.
  (* the content *)
  assert (He2 : extends st1 (on_content f st1) []).
  { apply extends_same; [by unfold on_content; destruct (truthy_str _)..|].
    by eapply extends_wf. }
  assert (Hlr2 : last_role (on_content f st1) = last_role st1)
    by by unfold on_content; destruct (truthy_str _).
  assert (Hc2 : tool_call_counter (on_content f st1) = tool_call_counter st1)
    by by unfold on_content; destruct (truthy_str _).
  assert (Hp2 : (is_Some (truthy_str (content f)) ∨ content_cache st1 ≠ []) →
                content_cache (on_content f st1) ≠ []).
  { unfold on_content. intros [[c ->]|Hne]; cbn.
    - by destruct (content_cache st1).
    - destruct (truthy_str (content f)); [|done]. cbn.
      by destruct (content_cache st1). }
  set (st2 := on_content f st1) in *.
  pose proof (extends_trans _ _ _ _ _ He1 He2) as He12. rewrite app_nil_r in He12.
  (* the tool calls *)
  destruct (truthy_list (tool_calls f)) as [tcs|] eqn:Et.
  - case_bool_decide as Hassistant; [|done].
    set (m := tool_calls_message _ tcs).
    set (st3 := set_content_cache [] (append m st2)).
    assert (He3 : extends st2 st3 [m]).
    { eapply extends_then_same;
        [apply (extends_append m); by eapply extends_wf|done..]. }
    destruct (dispatch_spec tcs st3 (extends_wf _ _ _ He3)) as (_ & He4 & _).
    destruct (dispatch_locals tcs st3) as (Hlr4 & _ & Hc4 & _).
    destruct (dispatch tcs st3) as [st4|e st4]; cbn in *; [|done].
    intros [= <-].
    exists (a1 ++ [m] ++ reply_turns tcs (tool_results _call_tool tcs (world st3))).
    split; [split; [|split]|split].
    + eapply extends_trans; [exact He12|].
      eapply extends_trans; [exact He3|].
      eapply extends_then_same; [exact He4|done..].
    + cbn. rewrite Hc4. change (tool_call_counter st3) with (tool_call_counter st2).
      lia.
    + intros _ _ _. cbn. rewrite Hc4.
      change (tool_call_counter st3) with (tool_call_counter st2). lia.
    + cbn. rewrite Hlr4. change (last_role st3) with (last_role st2). congruence.
    + intros _. left. by destruct a1.
  - intros [= <-]. exists a1.
    split; [split; [done|split; [lia|]]|split; [congruence|]].
    + intros m Hm Hrole. specialize (Ht1 _ Hm Hrole). lia.
    + rewrite orb_false_r, bool_decide_eq_true. intros [Hpay|Hne].
      * right. apply Hp2. by left.
      * destruct (Hp1 Hne) as [?|?]; [by left|]. right. apply Hp2. by right.
Qed.

Lemma for_responses_progress (fs : list Message) (st st' : state) :
  wf st → last_role st ≠ Some TOOL →
  forallb (λ f, negb (role_is TOOL f)) fs = true →
  for_responses fs st = Return st' →
  ∃ app, progresses st st' app ∧
         last_role st' ≠ Some TOOL ∧
         (existsb has_payload fs = true ∨ content_cache st ≠ [] →
          app ≠ [] ∨ content_cache st' ≠ []).
Proof.
  revert st. induction fs as [|f fs IH]; intros st Hwf Hlr Hfs Hrun.
  { cbn in *. simplify_eq. exists [].
    split; [split; [by apply extends_refl|split; [lia|done]]|].
    split; [done|]. intros [?|?]; [done|by right]. }
  cbn in Hfs, Hrun. apply andb_true_iff in Hfs as [Hf Hfs].
  apply negb_true_iff in Hf.
  destruct (on_response f st) as [st1|e st1] eqn:E1; cbn in Hrun; [|done].
  destruct (on_response_progress f st st1 Hwf Hlr Hf E1) as (a1 & Hp1 & Hlr1 & Hn1).
  destruct (IH st1 (extends_wf _ _ _ (proj1 Hp1)) Hlr1 Hfs Hrun)
    as (a2 & Hp2 & Hlr2 & Hn2).
  exists (a1 ++ a2). split; [by eapply progresses_trans|]. split; [done|].
  cbn. rewrite orb_true_iff. intros Hsome.
  assert (a1 ≠ [] ∨ content_cache st1 ≠ [] ∨ existsb has_payload fs = true)
    as [Ha1|Hrest] by tauto.
  - left. by destruct a1.
  - destruct Hn2 as [Ha2|?]; [tauto| |by right].
    left. intros [_ ?]%app_eq_nil. done.
Qed.

(** A round on a well-formed response that returns has added a turn,
    and if the last turn of the history then has role [TOOL] the round
    has raised the counter. *)
Lemma round_progress (__input : Message) (st st' : state) :
  wf st → last_role st ≠ Some TOOL →
  well_formed_response (_call_llm __input (history st) (world st)).1 = true →
  round __input st = Return st' →
  wf st' ∧ last_role st' ≠ Some TOOL ∧
  ∃ turn, last (history st') = Some turn ∧
          (role_is TOOL turn = true →
           tool_call_counter st < tool_call_counter st').
Proof.
  intros Hwf Hlr Hok. unfold round.
  destruct (_call_llm __input (history st) (world st)) as [fs w]. cbn in Hok.
  apply andb_true_iff in Hok as [Hpay Hroles].
  destruct (for_responses fs (set_world w st)) as [st1|e st1] eqn:E1; cbn; [|done].
  intros [= <-].
  destruct (for_responses_progress fs (set_world w st) st1) as
    (a1 & (He1 & Hc1 & Ht1) & Hlr1 & Hn1); [done..|].
  specialize (Hn1 (or_introl Hpay)).
  pose proof (extends_flush st1 (extends_wf _ _ _ He1)) as He2.
  pose proof (extends_trans _ _ _ _ _ He1 He2) as (Hwf' & Hh & _).
  assert (Hlr' : last_role (flush st1) = last_role st1)
    by by unfold flush; destruct (content_cache st1).
  assert (Hc' : tool_call_counter (flush st1) = tool_call_counter st1)
    by by unfold flush; destruct (content_cache st1).
  split; [done|]. split; [by cbn; rewrite Hlr'|].
  change (history (log_round _ (flush st1))) with (history (flush st1)).
  change (history (set_world w st)) with (history st) in Hh.
  rewrite Hh. cbn [tool_call_counter log_round]. rewrite Hc'.
  change (tool_call_counter (set_world w st)) with (tool_call_counter st) in *.
  destruct (content_cache st1) as [|c cs] eqn:Ecache.
  - destruct Hn1 as [Ha1|?]; [|done]. rewrite app_nil_r.
    destruct (last a1) as [turn|] eqn:El.
    + exists turn. rewrite last_app, El. split; [done|]. by apply Ht1.
    + by apply last_None in El.
  - eexists. rewrite (assoc_L (++)), last_snoc. split; [done|].
    unfold role_is. cbn. intros Hrole.
    destruct (last_role st1) as [lr|]; [|done].
    apply String.eqb_eq in Hrole. congruence.
Qed.

(** The loop ends within the rounds the bound leaves, whatever the
    fuel beyond them. *)
Lemma while_loop_terminates (__input : Message) (n : nat) (st : state) :
  (∀ h w, well_formed_response (_call_llm __input h w).1 = true) →
  wf st → last_role st ≠ Some TOOL →
  MAX_CONSECUTIVE_TOOL_CALL_NUM - tool_call_counter st ≤ n →
  ∃ o, ∀ fuel, n ≤ fuel → while_loop fuel __input st = Done o.
Proof.
  intros Hok. revert st. induction n as [|n IH]; intros st Hwf Hlr Hn.
  { exists (Return st). intros [|fuel] _; cbn; by rewrite bool_decide_eq_false_2 by lia. }
  destruct (decide (tool_call_counter st < MAX_CONSECUTIVE_TOOL_CALL_NUM)) as [Hlt|Hge].
  2: { exists (Return st). intros [|fuel] _; cbn; by rewrite bool_decide_eq_false_2. }
  destruct (round __input st) as [st1|e st1] eqn:E1.
  2: { exists (Raised e st1). intros [|fuel] ?; [lia|]. cbn.
       by rewrite bool_decide_eq_true_2, E1. }
  destruct (round_progress __input st st1 Hwf Hlr (Hok _ _) E1)
    as (Hwf1 & Hlr1 & turn & Hlast & Hturn).
  destruct (role_is TOOL turn) eqn:Erole.
  - destruct (IH st1 Hwf1 Hlr1) as [o Ho]; [specialize (Hturn eq_refl); lia|].
    exists o. intros [|fuel] ?; [lia|]. cbn.
    rewrite bool_decide_eq_true_2, E1, Hlast, Erole by done. cbn.
    apply Ho. lia.
  - exists (Return st1). intros [|fuel] ?; [lia|]. cbn.
    by rewrite bool_decide_eq_true_2, E1, Hlast, Erole.
Qed.

(** *** Responses that carry nothing to record *)

Lemma on_response_silent (f : Message) (st : state) :
  has_payload f = false → content_cache st = [] →
  ∃ st', on_response f st = Return st' ∧
         heap st' = heap st ∧ llm_chat_history st' = llm_chat_history st ∧
         content_cache st' = [] ∧
         tool_call_counter st' = tool_call_counter st.
Proof.
  unfold has_payload, carries_tool_calls. intros Hf Hcache.
  apply orb_false_iff in Hf as [Hc Ht].
  apply bool_decide_eq_false in Hc, Ht.
  unfold on_response, on_tool_calls, on_content, on_role, flush.
  destruct (truthy_str (content f)); [by destruct Hc|].
  destruct (truthy_list (tool_calls f)); [by destruct Ht|].
  destruct (truthy_str (role f)); cbn; rewrite ?Hcache; cbn;
    eexists; (split; [done|]); by rewrite ?Hcache.
Qed.

Lemma for_responses_silent (fs : list Message) (st : state) :
  existsb has_payload fs = false → content_cache st = [] →
  ∃ st', for_responses fs st = Return st' ∧
         heap st' = heap st ∧ llm_chat_history st' = llm_chat_history st ∧
         content_cache st' = [] ∧
         tool_call_counter st' = tool_call_counter st.
Proof.
  revert st. induction fs as [|f fs IH]; intros st Hfs Hcache.
  { exists st. by cbn. }
  cbn in Hfs. apply orb_false_iff in Hfs as [Hf Hfs].
  destruct (on_response_silent f st Hf Hcache) as (st1 & E1 & Hh1 & Hl1 & Hc1 & Hn1).
  destruct (IH st1 Hfs Hc1) as (st2 & E2 & Hh2 & Hl2 & Hc2 & Hn2).
  exists st2. cbn. rewrite E1. cbn. rewrite E2.
  repeat split; congruence.
Qed.

(** A round on such a response leaves the history as it was. *)
Lemma round_silent (__input : Message) (st : state) :
  existsb has_payload (_call_llm __input (history st) (world st)).1 = false →
  content_cache st = [] →
  ∃ st', round __input st = Return st' ∧ history st' = history st ∧
         tool_call_counter st' = tool_call_counter st ∧
         content_cache st' = [].
Proof.
  intros Hfs Hcache. unfold round.
  destruct (_call_llm __input (history st) (world st)) as [fs w]. cbn in Hfs.
  destruct (for_responses_silent fs (set_world w st) Hfs Hcache)
    as (st1 & -> & Hh1 & Hl1 & Hc1 & Hn1).
  cbn. eexists. split; [done|]. unfold flush. rewrite Hc1.
  unfold history. cbn. by rewrite Hh1, Hl1.
Qed.

(** *** A loop that returns has a history to look at *)

Lemma while_loop_returns_nonempty
    (fuel : nat) (__input : Message) (st st' : state) :
  while_loop fuel __input st = Done (Return st') →
  tool_call_counter st < MAX_CONSECUTIVE_TOOL_CALL_NUM ∨ history st ≠ [] →
  history st' ≠ [].
Proof.
  revert st. induction fuel as [|fuel IH]; intros st; cbn.
  { case_bool_decide; [done|]. intros [= <-] [?|?]; [lia|done]. }
  case_bool_decide.
  2: { intros [= <-] [?|?]; [lia|done]. }
  destruct (round __input st) as [st1|e st1]; [|done].
  destruct (last (history st1)) as [turn|] eqn:El; [|done].
  assert (history st1 ≠ []) by by intros E; rewrite E in El.
  destruct (negb (role_is TOOL turn)).
  - by intros [= <-] _.
  - intros Hrun _. apply (IH st1 Hrun). by right.
Qed.

(** *** Tools that always report, and a backend that always asks *)

Lemma raising_cons_return (o : option string) (rs : list tool_result) :
  raising (ToolReturn o :: rs) = raising rs.
Proof. unfold raising. by destruct rs. Qed.

Lemma tool_results_length (tcs : list ToolCall) (w : W) :
  raising (tool_results _call_tool tcs w) = None →
  length (tool_results _call_tool tcs w) = length tcs.
Proof.
  revert w. induction tcs as [|tc tcs IH]; intros w; [done|]. cbn.
  destruct (_call_tool _ _ w) as [[o|e] w']; [|done].
  rewrite raising_cons_return. intros Hr. cbn. by rewrite IH.
Qed.

Lemma tool_results_reports (tcs : list ToolCall) (w : W) :
  (∀ n a w, reports (_call_tool n a w).1 = true) →
  raising (tool_results _call_tool tcs w) = None ∧
  (tcs ≠ [] →
   ∃ m, last (reply_turns tcs (tool_results _call_tool tcs w)) = Some m ∧
        role_is TOOL m = true).
Proof.
  intros Htools. revert w. induction tcs as [|tc tcs IH]; intros w; [done|].
  cbn -[reply_turns]. pose proof (Htools (fc_name (tc_function tc))
                                    (fc_arguments (tc_function tc)) w) as Hr.
  destruct (_call_tool _ _ w) as [[[res|]|e] w']; try done.
  destruct (IH w') as [Hraise Hlast].
  rewrite raising_cons_return. split; [done|]. intros _.
  change (reply_turns (tc :: tcs) (_ :: ?rs))
    with (tool_message res (fc_name (tc_function tc)) (tc_id tc)
          :: reply_turns tcs rs).
  destruct tcs as [|tc' tcs].
  - eexists. split; [done|]. done.
  - destruct Hlast as (m & Hm & Hrole); [done|].
    exists m. split; [|done].
    rewrite last_cons, Hm. done.
Qed.

(** *** The tool calls of one fragment *)

Lemma on_tool_calls_history (f : Message) (tcs : list ToolCall) (st : state) :
  wf st →
  last_role st = Some ASSISTANT →
  truthy_list (tool_calls f) = Some tcs →
  history (state_of (on_tool_calls f st)) =
  history st ++ tool_calls_message (join (content_cache st)) tcs
                :: reply_turns tcs (tool_results _call_tool tcs (world st)).
Proof.
  intros Hwf Hrole Htcs. unfold on_tool_calls. rewrite Htcs.
  rewrite bool_decide_eq_true_2 by done.
  set (m := tool_calls_message _ tcs).
  set (st1 := set_content_cache [] (append m st)).
  assert (He1 : extends st st1 [m]).
  { eapply extends_then_same; [by apply (extends_append m)|done..]. }
  destruct (dispatch_spec tcs st1 (extends_wf _ _ _ He1)) as (_ & He2 & _).
  pose proof (extends_trans _ _ _ _ _ He1 He2) as (_ & Hh & _).
  by destruct (dispatch tcs st1).
Qed.

Lemma on_response_no_tool_calls (f : Message) (st : state) :
  truthy_list (tool_calls f) = None →
  on_response f st = Return (on_content f (on_role f (yield f st))).
Proof. intros Ht. unfold on_response, on_tool_calls. by rewrite Ht. Qed.


(** *** A tool that raises in the first request of a round *)


(** *** The equations of the loop *)

Lemma while_loop_exhausted (__input : Message) (st : state) :
  tool_call_counter st < MAX_CONSECUTIVE_TOOL_CALL_NUM →
  while_loop 0 __input st = OutOfFuel st.
Proof. intros Hc. cbn. by rewrite bool_decide_eq_true_2. Qed.

Lemma while_loop_continue
    (fuel : nat) (__input : Message) (st st1 : state) (turn : Message) :
  tool_call_counter st < MAX_CONSECUTIVE_TOOL_CALL_NUM →
  round __input st = Return st1 →
  last (history st1) = Some turn → role_is TOOL turn = true →
  while_loop (S fuel) __input st = while_loop fuel __input st1.
Proof.
  intros Hc Hround Hlast Hrole. cbn [FuncCallAgent.while_loop].
  by rewrite bool_decide_eq_true_2, Hround, Hlast, Hrole.
Qed.

Lemma while_loop_raise
    (fuel : nat) (__input : Message) (st st1 : state) (e : exn) :
  tool_call_counter st < MAX_CONSECUTIVE_TOOL_CALL_NUM →
  round __input st = Raised e st1 →
  while_loop (S fuel) __input st = Done (Raised e st1).
Proof.
  intros Hc Hround. cbn [FuncCallAgent.while_loop].
  by rewrite bool_decide_eq_true_2, Hround.
Qed.

(** *** A backend that asks for tools once in every response *)

Lemma for_responses_app (fs1 fs2 : list Message) (st : state) :
  for_responses (fs1 ++ fs2) st = bind (for_responses fs1 st) (for_responses fs2).
Proof.
  revert st. induction fs1 as [|f fs1 IH]; intros st; [done|].
  cbn [app for_responses]. destruct (on_response f st); cbn [bind]; [apply IH|done].
Qed.

Lemma role_in_force_named (r : option string) (fs : list Message) :
  role_in_force r fs
  = match role_in_force None fs with
    | Some r' => Some r'
    | None => r
    end.
Proof.
  revert r. induction fs as [|f fs IH]; intros r; [done|].
  unfold role_in_force in *. cbn [foldl].
  rewrite (IH (match truthy_str (role f) with Some r' => Some r' | None => r end)).
  rewrite (IH (match truthy_str (role f) with Some r' => Some r' | None => None end)).
  by destruct (truthy_str (role f)), (foldl _ None fs).
Qed.

Lemma role_in_force_app (r : option string) (fs1 fs2 : list Message) :
  role_in_force r (fs1 ++ fs2) = role_in_force (role_in_force r fs1) fs2.
Proof. apply foldl_app. Qed.

(** Fragments without tool calls are all taken in. *)
Lemma for_responses_plain (fs : list Message) (st : state) :
  forallb (λ f, negb (carries_tool_calls f)) fs = true → wf st →
  ∃ st', for_responses fs st = Return st' ∧ wf st' ∧
         last_role st' = role_in_force (last_role st) fs.
Proof.
  revert st. induction fs as [|f fs IH]; intros st Hplain Hwf.
  { by exists st. }
  cbn [forallb] in Hplain. apply andb_true_iff in Hplain as [Hf Hplain].
  assert (Hnone : truthy_list (tool_calls f) = None).
  { apply negb_true_iff, bool_decide_eq_false in Hf.
    destruct (truthy_list (tool_calls f)); [|done]. destruct Hf. by eexists. }
  destruct (extends_on_response f st Hwf) as [app Happ].
  cbn [for_responses]. rewrite on_response_no_tool_calls in * by done.
  cbn [bind state_of] in *.
  destruct (IH _ Hplain (extends_wf _ _ _ Happ)) as (st' & Hrun & Hwf' & Hrole).
  exists st'. split; [done|]. split; [done|]. rewrite Hrole.
  unfold role_in_force. cbn [foldl]. f_equal.
  unfold on_content, on_role.
  by destruct (truthy_str (role f)), (truthy_str (content f)).
Qed.

(** Fragments that carry nothing add nothing. *)
Lemma for_responses_empty (fs : list Message) (st : state) :
  forallb (λ f, negb (has_payload f)) fs = true → content_cache st = [] →
  ∃ st', for_responses fs st = Return st' ∧
         history st' = history st ∧ content_cache st' = [].
Proof.
  revert st. induction fs as [|f fs IH]; intros st Hempty Hcache.
  { by exists st. }
  cbn [forallb] in Hempty. apply andb_true_iff in Hempty as [Hf Hempty].
  apply negb_true_iff, orb_false_iff in Hf as [Hcontent Hcalls].
  apply bool_decide_eq_false in Hcontent, Hcalls.
  assert (Hnone : truthy_list (tool_calls f) = None).
  { destruct (truthy_list (tool_calls f)); [|done]. destruct Hcalls. by eexists. }
  assert (Hnone' : truthy_str (content f) = None).
  { destruct (truthy_str (content f)); [|done]. destruct Hcontent. by eexists. }
  cbn [for_responses]. rewrite on_response_no_tool_calls by done. cbn [bind].
  set (st1 := on_content f (on_role f (yield f st))).
  assert (history st1 = history st ∧ content_cache st1 = []) as [Hh Hc].
  { unfold st1, on_content, on_role, flush. rewrite Hnone'. cbn. rewrite Hcache.
    by destruct (truthy_str (role f)). }
  destruct (IH st1 Hempty Hc) as (st' & Hrun & Hh' & Hc').
  exists st'. split; [done|]. split; [congruence|done].
Qed.

(** The fragment that asks for tools, when every tool reports. *)
Lemma on_response_request (f : Message) (st : state) :
  (∀ n a w, reports (_call_tool n a w).1 = true) →
  wf st → carries_tool_calls f = true →
  role_in_force (last_role st) [f] = Some ASSISTANT →
  ∃ st', on_response f st = Return st' ∧ wf st' ∧ content_cache st' = [] ∧
         ∃ turn, last (history st') = Some turn ∧ role_is TOOL turn = true.
Proof.
  intros Htools Hwf Hcalls Hrole.
  apply carries_tool_calls_spec in Hcalls as [tcs Htcs].
  assert (Hne : tcs ≠ []).
  { unfold truthy_list in Htcs. by destruct (tool_calls f) as [[|]|]; simplify_eq. }
  destruct (extends_on_response f st Hwf) as [app Happ].
  unfold on_response in *.
  set (st2 := on_content f (on_role f (yield f st))) in *.
  assert (Hlr2 : last_role st2 = Some ASSISTANT).
  { rewrite <- Hrole. unfold st2, on_content, on_role, role_in_force. cbn.
    by destruct (truthy_str (role f)), (truthy_str (content f)). }
  assert (Hwf2 : wf st2).
  { unfold st2.
    destruct (extends_on_role f (yield f st)) as [a Ha]; [done|].
    apply extends_wf in Ha. revert Ha. unfold on_content.
    by destruct (truthy_str (content f)). }
  pose proof (on_tool_calls_history f tcs st2 Hwf2 Hlr2 Htcs) as Hh.
  unfold on_tool_calls in *. rewrite Htcs in *.
  rewrite bool_decide_eq_true_2 in * by done.
  set (m := tool_calls_message _ tcs) in *.
  set (st3 := set_content_cache [] (append m st2)) in *.
  assert (He3 : extends st2 st3 [m]).
  { eapply extends_then_same; [by apply (extends_append m)|done..]. }
  destruct (dispatch_spec tcs st3 (extends_wf _ _ _ He3)) as (Hraised & _).
  destruct (dispatch_locals tcs st3) as (_ & Hcache4 & _ & _).
  destruct (tool_results_reports tcs (world st3) Htools) as [Hnone Hlast].
  destruct (Hlast Hne) as (turn & Hturn & Hturn_role).
  rewrite Hnone in Hraised.
  destruct (dispatch tcs st3) as [st4|e st4]; [|done].
  cbn [bind state_of] in *.
  eexists. split; [done|]. split; [by eapply extends_wf|]. split; [done|].
  exists turn. split; [|done].
  rewrite Hh. change (world st2) with (world st3).
  by rewrite last_app, last_cons, Hturn.
Qed.

Lemma filter_no_tool_calls (fs : list Message) :
  forallb (λ f, negb (carries_tool_calls f)) fs = true →
  filter (λ f, carries_tool_calls f = true) fs = [].
Proof.
  induction fs as [|f fs IH]; [done|]. cbn [forallb].
  intros [Hf Hfs]%andb_true_iff. apply negb_true_iff in Hf.
  rewrite filter_cons_False by congruence. by apply IH.
Qed.

Lemma empty_no_tool_calls (fs : list Message) :
  forallb (λ f, negb (has_payload f)) fs = true →
  forallb (λ f, negb (carries_tool_calls f)) fs = true.
Proof.
  induction fs as [|f fs IH]; [done|]. cbn [forallb].
  intros [Hf Hfs]%andb_true_iff. rewrite IH by done.
  apply negb_true_iff, orb_false_iff in Hf as [_ ->]. done.
Qed.

Lemma round_one_request (__input : Message) (st : state) :
  (∀ h w, one_tool_request (_call_llm __input h w).1) →
  (∀ n a w, reports (_call_tool n a w).1 = true) →
  wf st → content_cache st = [] →
  ∃ st', round __input st = Return st' ∧ wf st' ∧ content_cache st' = [] ∧
         tool_call_counter st' = tool_call_counter st + 1 ∧
         rounds st' = rounds st ++ [1] ∧
         ∃ turn, last (history st') = Some turn ∧ role_is TOOL turn = true.
Proof.
  intros Hllm Htools Hwf Hcache.
  pose proof (round_counter __input st) as Hcount.
  destruct (Hllm (history st) (world st))
    as (pre & f & post & Hfs & Hpre & Hf & Hrole & Hpost).
  unfold round in *.
  destruct (_call_llm __input (history st) (world st)) as [fs w].
  cbn [fst] in Hfs. subst fs.
  assert (Hn : length (filter (λ f, carries_tool_calls f = true) (pre ++ f :: post))
               = 1).
  { rewrite filter_app, filter_cons_True, length_app by done. cbn [length].
    rewrite (filter_no_tool_calls pre), (filter_no_tool_calls post);
      [done|by apply empty_no_tool_calls|done]. }
  rewrite for_responses_app in *.
  destruct (for_responses_plain pre (set_world w st) Hpre)
    as (st1 & Hrun1 & Hwf1 & Hlr1); [done|].
  rewrite Hrun1 in *. cbn [bind for_responses] in *.
  destruct (on_response_request f st1 Htools Hwf1 Hf)
    as (st2 & Hrun2 & Hwf2 & Hcache2 & turn & Hlast & Hturn).
  { rewrite Hlr1, <- role_in_force_app, role_in_force_named. by rewrite Hrole. }
  rewrite Hrun2 in *. cbn [bind] in *.
  destruct (for_responses_empty post st2 Hpost Hcache2) as (st3 & Hrun3 & Hh3 & Hcache3).
  destruct (extends_for_responses post st2 Hwf2) as [app Happ].
  rewrite Hrun3 in *. cbn [bind state_of] in *.
  cbv zeta in Hcount. cbn [fst] in Hcount. rewrite Hn in Hcount.
  destruct Hcount as [Hc Hr].
  eexists. split; [done|].
  assert (Hflush : flush st3 = st3) by (unfold flush; by rewrite Hcache3).
  rewrite Hflush in *.
  split; [by eapply extends_wf|]. split; [done|]. split; [done|]. split; [done|].
  exists turn. split; [|done].
  change (last (history st3) = Some turn). by rewrite Hh3.
Qed.

Lemma while_loop_one_request (__input : Message) (n : nat) (st : state) :
  (∀ h w, one_tool_request (_call_llm __input h w).1) →
  (∀ n a w, reports (_call_tool n a w).1 = true) →
  wf st → content_cache st = [] →
  Forall (λ i, i < length (rounds st)) (call_rounds st) →
  tool_call_counter st + n = MAX_CONSECUTIVE_TOOL_CALL_NUM →
  ∃ st', (∀ fuel, n ≤ fuel → while_loop fuel __input st = Done (Return st')) ∧
         tool_call_counter st' = MAX_CONSECUTIVE_TOOL_CALL_NUM ∧
         rounds st' = rounds st ++ replicate n 1 ∧
         dispatch_rounds st' = dispatch_rounds st + n.
Proof.
  intros Hllm Htools. revert st.
  induction n as [|n IH]; intros st Hwf Hcache Hold Hn.
  { exists st. split; [|split; [lia|split; [by rewrite app_nil_r|lia]]].
    intros [|fuel] _; cbn; by rewrite bool_decide_eq_false_2 by lia. }
  destruct (round_one_request __input st Hllm Htools Hwf Hcache)
    as (st1 & E1 & Hwf1 & Hcache1 & Hc1 & Hr1 & turn & Hlast & Hrole).
  destruct (round_calls __input st) as (k & Hk & Hiff).
  rewrite E1 in Hk. cbn [state_of] in Hk.
  assert (Hpos : 0 < k) by (apply (Hiff st1 E1); lia).
  pose proof (dispatch_rounds_round st st1 k Hold Hk) as Hdr.
  rewrite decide_True in Hdr by done.
  destruct (IH st1 Hwf1 Hcache1) as (st' & Hrun & Hc' & Hr' & Hdr'); [|lia|].
  { rewrite Hk, Hr1, length_app. cbn. apply Forall_app. split.
    - eapply Forall_impl; [done|]. cbn. lia.
    - apply Forall_replicate. lia. }
  exists st'. split; [|split; [done|split]].
  - intros [|fuel] ?; [lia|]. cbn.
    rewrite bool_decide_eq_true_2, E1, Hlast, Hrole by lia. cbn.
    apply Hrun. lia.
  - rewrite Hr', Hr1, <- (assoc_L (++)). done.
  - lia.
Qed.

(** *** A call that raises *)

Lemma raising_snoc (rs : list tool_result) (e : exn) :
  raising (rs ++ [ToolRaise e]) = Some e.
Proof. unfold raising. by rewrite last_snoc. Qed.

Lemma tool_results_raise
    (before : list ToolCall) (tc : ToolCall) (after : list ToolCall)
    (w w' : W) (e : exn) :
  raising (tool_results _call_tool before w) = None →
  _call_tool (fc_name (tc_function tc)) (fc_arguments (tc_function tc))
    (world_after _call_tool before w) = (ToolRaise e, w') →
  tool_results _call_tool (before ++ tc :: after) w
  = tool_results _call_tool before w ++ [ToolRaise e].
Proof.
  revert w. induction before as [|b before IH]; intros w Hnone Hcall.
  - cbn in *. by rewrite Hcall.
  - cbn in *.
    destruct (_call_tool (fc_name (tc_function b)) (fc_arguments (tc_function b)) w)
      as [[o|e'] w1]; [|done].
    rewrite raising_cons_return in Hnone. cbn. by rewrite IH.
Qed.

Lemma reply_turns_raise
    (before : list ToolCall) (tc : ToolCall) (after : list ToolCall)
    (rs : list tool_result) (e : exn) :
  length rs = length before →
  reply_turns (before ++ tc :: after) (rs ++ [ToolRaise e]) = reply_turns before rs.
Proof.
  unfold reply_turns. revert rs.
  induction before as [|b before IH]; intros [|r rs] Hlen; cbn in *; try done.
  - by destruct after.
  - rewrite IH by lia. done.
Qed.

(** A round in which a call of the dispatcher raises: whatever the
    fragments before and the calls before, the exception leaves the round
    after the turn with the requests and the results of the calls before,
    and no later call is made. *)
Lemma round_tool_raises
    (__input : Message) (st st1 : state) (pre : list Message) (f : Message)
    (rest : list Message) (w1 w2 : W)
    (before : list ToolCall) (tc : ToolCall) (after : list ToolCall) (e : exn) :
  wf st →
  _call_llm __input (history st) (world st) = (pre ++ f :: rest, w1) →
  for_responses pre (set_world w1 st) = Return st1 →
  let st2 := on_content f (on_role f (yield f st1)) in
  last_role st2 = Some ASSISTANT →
  truthy_list (tool_calls f) = Some (before ++ tc :: after) →
  raising (tool_results _call_tool before (world st2)) = None →
  _call_tool (fc_name (tc_function tc)) (fc_arguments (tc_function tc))
    (world_after _call_tool before (world st2)) = (ToolRaise e, w2) →
  ∃ st', round __input st = Raised e st' ∧
         history st' =
           history st2 ++
           tool_calls_message (join (content_cache st2)) (before ++ tc :: after)
           :: reply_turns before (tool_results _call_tool before (world st2)) ∧
         yielded st' =
           yielded st2 ++ reply_turns before (tool_results _call_tool before (world st2)) ∧
         tool_trace st' = tool_trace st2 ++ (call_of <$> before ++ [tc]).
Proof.
  intros Hwf Hllm Hpre st2 Hrole Htcs Hnone Hcall.
  assert (Hwf1 : wf st1).
  { destruct (extends_for_responses pre (set_world w1 st)) as [a Ha]; [done|].
    rewrite Hpre in Ha. by eapply extends_wf. }
  assert (Hwf2 : wf st2).
  { unfold st2.
    destruct (extends_on_role f (yield f st1)) as [a Ha]; [done|].
    apply extends_wf in Ha. revert Ha. unfold on_content.
    by destruct (truthy_str (content f)). }
  unfold round. rewrite Hllm, for_responses_app, Hpre.
  cbn [bind for_responses]. unfold on_response. fold st2.
  unfold on_tool_calls. rewrite Htcs, bool_decide_eq_true_2 by done.
  set (m := tool_calls_message _ _).
  set (st3 := set_content_cache [] (append m st2)).
  assert (He3 : extends st2 st3 [m]).
  { eapply extends_then_same; [by apply (extends_append m)|done..]. }
  destruct (dispatch_spec (before ++ tc :: after) st3 (extends_wf _ _ _ He3))
    as (Hraised & He4 & Hy & Ht & _).
  change (world st3) with (world st2) in *.
  rewrite (tool_results_raise before tc after _ w2 e Hnone Hcall) in *.
  rewrite raising_snoc in Hraised.
  pose proof (tool_results_length before (world st2) Hnone) as Hlen.
  rewrite reply_turns_raise in * by done.
  assert (Htake : take (length before + 1) (before ++ tc :: after) = before ++ [tc]).
  { rewrite (cons_middle tc before after), (assoc_L (++)).
    apply take_app_length'. rewrite length_app. done. }
  rewrite length_app, Hlen in Ht. cbn [length] in Ht. rewrite Htake in Ht.
  destruct (dispatch (before ++ tc :: after) st3) as [st4|e' st4]; [done|].
  cbn in Hraised. injection Hraised as ->. cbn [bind state_of] in *.
  exists st4. split; [done|].
  pose proof (extends_trans _ _ _ _ _ He3 He4) as (_ & Hh & _).
  split; [exact Hh|]. split; [exact Hy|exact Ht].
Qed.

(** Fuel adds up: a loop that is still going after [n] rounds goes on
    from the state it is in. *)
Lemma while_loop_resume (n : nat) (__input : Message) :
  ∀ st0 st : state,
    while_loop n __input st0 = OutOfFuel st →
    tool_call_counter st < MAX_CONSECUTIVE_TOOL_CALL_NUM ∧
    ∀ m, while_loop (n + m) __input st0 = while_loop m __input st.
Proof.
  induction n as [|n IH]; intros st0 st Hrun.
  - cbn in Hrun. case_bool_decide; [|done]. injection Hrun as <-. done.
  - cbn [FuncCallAgent.while_loop] in Hrun.
    case_bool_decide as Hlt; [|done].
    destruct (round __input st0) as [st1|e st1] eqn:Hround; [|done].
    destruct (last (history st1)) as [turn|] eqn:Hlast; [|done].
    destruct (negb (role_is TOOL turn)) eqn:Hrole; [done|].
    destruct (IH st1 st Hrun) as [Hc Hgo]. split; [done|]. intros m.
    change (S n + m) with (S (n + m)). cbn [FuncCallAgent.while_loop].
    rewrite bool_decide_eq_true_2, Hround, Hlast, Hrole by done. apply Hgo.
Qed.

End Steps.

Lemma enter_spec {W} (σ : store) (caller_history : loc) (w : W) :
  let st := enter σ caller_history w in
  wf st ∧ history st = view σ caller_history ∧
  last_role st = None ∧ content_cache st = [] ∧ tool_call_counter st = 0 ∧
  world st = w ∧ yielded st = [] ∧ tool_trace st = [] ∧ rounds st = [].
Proof.
  destruct (deepcopy_history σ caller_history) as [Hwf Hview].
  unfold enter, wf, history.
  destruct (deepcopy σ caller_history) as [σ1 l]. cbn in *. auto 10.
Qed.

Lemma enter_call_rounds {W} (σ : store) (caller_history : loc) (w : W) :
  call_rounds (enter σ caller_history w) = [].
Proof. unfold enter. by destruct (deepcopy σ caller_history). Qed.

End AgentFacts.

(** ** The update pass *)

Module UpdateFacts.
Import ModuleBase.

Section Walk.
Context {task : Type}.
Implicit Types (m : module task) (c : collected task).

Lemma visit_all_app (ms1 ms2 : list (module task)) c :
  visit_all (ms1 ++ ms2) c = visit_all ms2 (visit_all ms1 c).
Proof. apply foldl_app. Qed.

Lemma visit_all_spec (ms : list (module task)) c :
  visit_all ms c =
  {| train_tasks := train_tasks c ++ omap _get_train_tasks ms;
     deploy_tasks := deploy_tasks c ++ omap _get_deploy_tasks ms;
     eval_tasks := eval_tasks c ++ omap _get_eval_tasks ms;
     visited := visited c ++ ms |}.
Proof.
  revert c. induction ms as [|m ms IH]; intros c.
  { cbn. rewrite !app_nil_r. by destruct c. }
  change (visit_all (m :: ms) c) with (visit_all ms (visit m c)).
  rewrite IH. cbn. unfold absorb.
  destruct (_get_train_tasks m), (_get_deploy_tasks m), (_get_eval_tasks m);
    cbn; by rewrite <- ?(assoc_L (++)).
Qed.

Lemma size_pos m : 0 < size m.
Proof. destruct m. cbn. lia. Qed.

Lemma size_submodules m : size m = S (list_sum (map size (submodules m))).
Proof. by destruct m. Qed.

Lemma postorder_submodules m :
  postorder m = flat_map postorder (submodules m) ++ [m].
Proof. by destruct m. Qed.

(** A frame on the stack is worked off in post-order: the nodes below
    the remaining children first, then the node of the frame. *)
Lemma walk_frame (n : nat) :
  ∀ (it : list (module task)) (node : module task)
    (below : list (module task * list (module task))) c (fuel : nat),
    list_sum (map size it) ≤ n →
    walk (2 * list_sum (map size it) + 1 + fuel) ((node, it) :: below) c
    = walk fuel below (visit node (visit_all (flat_map postorder it) c)).
Proof.
  induction n as [|n IH]; intros it node below c fuel Hn.
  - destruct it as [|top it]; [done|].
    cbn in Hn. pose proof (size_pos top). lia.
  - destruct it as [|top it]; [done|].
    cbn [map list_sum] in *. pose proof (size_pos top) as Hpos.
    rewrite (size_submodules top) in *.
    change (list_sum (S ?a :: ?l)) with (S a + list_sum l) in *.
    replace (2 * (S (list_sum (map size (submodules top)))
                  + list_sum (map size it)) + 1 + fuel)
      with (S (2 * list_sum (map size (submodules top)) + 1
               + (2 * list_sum (map size it) + 1 + fuel))) by lia.
    cbn [walk]. rewrite (IH (submodules top)) by lia.
    rewrite (IH it) by lia.
    cbn [flat_map]. rewrite visit_all_app, (postorder_submodules top).
    rewrite visit_all_app. done.
Qed.

Lemma length_postorder m : length (postorder m) = size m.
Proof.
  revert m. fix IH 1. intros [l t d e children]. cbn.
  rewrite length_app. cbn. rewrite Nat.add_1_r. f_equal.
  induction children as [|m ms IHms]; [done|].
  cbn. rewrite length_app, IHms, (IH m). done.
Qed.

Lemma collect_recursive (fuel : nat) (self : module task) :
  2 * size self ≤ fuel →
  collect fuel true self = Some (collection (postorder self)).
Proof.
  intros Hfuel. unfold collect.
  rewrite (size_submodules self) in Hfuel.
  replace fuel with (2 * list_sum (map size (submodules self)) + 1
                     + (fuel - (2 * list_sum (map size (submodules self)) + 1)))
    by lia.
  rewrite (walk_frame _ _ _ _ _ _ (Nat.le_refl _)).
  change (visit self ?c) with (visit_all [self] c).
  rewrite <- visit_all_app, <- postorder_submodules, visit_all_spec.
  by destruct (fuel - _).
Qed.

Lemma collect_flat (fuel : nat) (self : module task) :
  0 < fuel → collect fuel false self = Some (collection [self]).
Proof.
  intros Hfuel. destruct fuel as [|fuel]; [lia|]. unfold collect. cbn.
  change (visit self ?c) with (visit_all [self] c).
  rewrite visit_all_spec. by destruct fuel.
Qed.





End Walk.
End UpdateFacts.

(** * The properties of the design document *)

Import FuncCallAgent AgentSpec StoreFacts AgentFacts Examples.

(** C3.  A run of [_run] writes no object of the caller's store, whatever
    the fuel, the backend and the tools, and whether it returns, raises or
    is still going: the working history is a list object of its own, and
    the caller's history list refers to the same messages, unchanged,
    afterwards. *)
Theorem run_leaves_caller_history
    {W : Type} (MAX_CONSECUTIVE_TOOL_CALL_NUM : nat)
    (_call_llm : Message → list Message → W → list Message * W)
    (_call_tool : string → string → W → tool_result * W)
    (fuel : nat) (__input : Message) (σ : store) (caller_history : loc) (w : W) :
  is_history σ caller_history →
  let st' := final (_run MAX_CONSECUTIVE_TOOL_CALL_NUM _call_llm _call_tool
                      fuel __input σ caller_history w) in
  preserves σ (heap st') ∧
  llm_chat_history st' ≠ caller_history ∧
  view (heap st') caller_history = view σ caller_history.
Proof.
  intros Hcaller. unfold _run.
  destruct (deepcopy_fresh σ caller_history) as [Hfresh Hkept].
  destruct (deepcopy_history σ caller_history) as [Hwf _].
  assert (Hlt : caller_history < length σ).
  { destruct Hcaller as (items & Hl & _). by eapply lookup_lt_Some. }
  set (st0 := enter σ caller_history w).
  assert (Hheap0 : heap st0 = (deepcopy σ caller_history).1)
    by (unfold st0, enter; by destruct (deepcopy σ caller_history)).
  assert (Hloc0 : llm_chat_history st0 = (deepcopy σ caller_history).2)
    by (unfold st0, enter; by destruct (deepcopy σ caller_history)).
  assert (Hwf0 : wf st0) by (unfold wf; by rewrite Hheap0, Hloc0).
  destruct (extends_while_loop MAX_CONSECUTIVE_TOOL_CALL_NUM _call_llm _call_tool
              fuel __input st0 Hwf0) as (app & _ & _ & Hloc & Hothers).
  cbn zeta.
  assert (Hpres : preserves σ (heap (final
            (while_loop MAX_CONSECUTIVE_TOOL_CALL_NUM _call_llm _call_tool
               fuel __input st0)))).
  { intros l o Hl. apply Hothers.
    - apply lookup_lt_Some in Hl. lia.
    - rewrite Hheap0. by apply Hkept. }
  split; [done|]. split; [lia|]. by apply view_preserves.
Qed.

Lemma run_leaves_caller_history_witness :
  let st' := final (_run 3 (always_calls [A; B]) tools 5 user_turn user_store 1 0) in
  preserves user_store (heap st') ∧
  llm_chat_history st' ≠ 1 ∧
  view (heap st') 1 = [user_turn].
Proof.
  apply (run_leaves_caller_history 3 (always_calls [A; B]) tools 5 user_turn
           user_store 1 0).
  exists [0]. split; [reflexivity|]. repeat constructor. by exists user_turn.
Defined.

(** C4.  The tool calls of an assistant turn are dispatched one after the
    other in request order: the calls made are the requests from the first
    on, all of them unless one raises, each in the world its predecessors
    left; and the tool-result turns of those that report are appended to
    the history after the assistant turn, and yielded, in that same
    order. *)
Theorem tool_dispatch_in_request_order
    {W : Type} (_call_tool : string → string → W → tool_result * W)
    (f : Message) (tcs : list ToolCall) (st : run_state W) :
  wf st →
  last_role st = Some ASSISTANT →
  truthy_list (tool_calls f) = Some tcs →
  let rs := tool_results _call_tool tcs (world st) in
  let st' := state_of (on_tool_calls _call_tool f st) in
  raised (on_tool_calls _call_tool f st) = raising rs ∧
  tool_trace st' = tool_trace st ++ (call_of <$> take (length rs) tcs) ∧
  (raising rs = None → tool_trace st' = tool_trace st ++ (call_of <$> tcs)) ∧
  history st' =
    history st ++ tool_calls_message (join (content_cache st)) tcs
                  :: reply_turns tcs rs ∧
  yielded st' = yielded st ++ reply_turns tcs rs ∧
  world st' = world_after _call_tool tcs (world st).
Proof.
  intros Hwf Hrole Htcs. unfold on_tool_calls. rewrite Htcs.
  rewrite bool_decide_eq_true_2 by done.
  set (m := tool_calls_message _ tcs).
  set (st1 := set_content_cache [] (append m st)).
  assert (He1 : extends st st1 [m]).
  { eapply extends_then_same; [by apply (extends_append m)|done..]. }
  destruct (dispatch_spec _call_tool tcs st1 (extends_wf _ _ _ He1))
    as (Hraised & He2 & Hy & Ht & Hw).
  change (world st1) with (world st) in *.
  change (yielded st1) with (yielded st) in *.
  change (tool_trace st1) with (tool_trace st) in *.
  pose proof (extends_trans _ _ _ _ _ He1 He2) as (_ & Hh & _).
  cbn zeta.
  destruct (FuncCallAgent.dispatch _call_tool tcs st1) as [st2|e st2];
    cbn in *; (split; [done|]); (split; [done|]);
    (split; [intros Hnone; rewrite Ht, (tool_results_length _ _ _ Hnone);
             by rewrite firstn_all|done]).
Qed.

Lemma tool_dispatch_in_request_order_witness :
  let st := enter user_store 1 0 in
  let st0 := set_last_role (Some ASSISTANT) st in
  let st' := state_of (on_tool_calls tools
                         (fragment None None (Some [A; B; C])) st0) in
  tool_trace st' = [call_of A; call_of B; call_of C] ∧
  history st' = [user_turn; tool_calls_message "" [A; B; C];
                 tool_message "sunny" "query_weather" "call_A";
                 tool_message "2024-03-28" "web_search" "call_B"] ∧
  yielded st' = [tool_message "sunny" "query_weather" "call_A";
                 tool_message "2024-03-28" "web_search" "call_B"].
Proof.
  pose proof (tool_dispatch_in_request_order tools
                (fragment None None (Some [A; B; C])) [A; B; C]
                (set_last_role (Some ASSISTANT) (enter user_store 1 0))) as H.
  destruct H as (_ & Ht & _ & Hh & Hy & _).
  - exists [2]. split; [reflexivity|]. repeat constructor. by exists user_turn.
  - reflexivity.
  - reflexivity.
  - cbn zeta. rewrite Ht, Hh, Hy. by vm_compute.
Defined.

(** C5, as the code has it.  A round that returns raises the counter by
    the number of fragments of its response that carry tool calls: by one
    for each such fragment, however many calls the fragment holds, and by
    nothing for the other fragments; a round without such a fragment
    leaves the counter as it was. *)
Theorem counter_counts_tool_call_fragments
    {W : Type} (_call_llm : Message → list Message → W → list Message * W)
    (_call_tool : string → string → W → tool_result * W)
    (__input : Message) (st st' : run_state W) :
  round _call_llm _call_tool __input st = Return st' →
  let fs := (_call_llm __input (history st) (world st)).1 in
  let n := length (filter (λ f, carries_tool_calls f = true) fs) in
  tool_call_counter st' = tool_call_counter st + n ∧
  rounds st' = rounds st ++ [n] ∧
  ∀ f st1 st2,
    on_response _call_tool f st1 = Return st2 →
    tool_call_counter st2 =
    tool_call_counter st1 + (if carries_tool_calls f then 1 else 0).
Proof.
  intros Hround. pose proof (round_counter _call_llm _call_tool __input st) as H.
  rewrite Hround in H. destruct H as [Hc Hr].
  split; [done|]. split; [done|].
  intros f st1 st2 Hf. by apply (on_response_counter _call_tool f st1).
Qed.

Lemma counter_counts_tool_call_fragments_witness :
  let st := enter empty_history_store 0 0 in
  let st' := state_of (round two_batches tools user_turn st) in
  tool_call_counter st' = 2 ∧ rounds st' = [2].
Proof.
  destruct (counter_counts_tool_call_fragments two_batches tools user_turn
              (enter empty_history_store 0 0)
              (state_of (round two_batches tools user_turn
                           (enter empty_history_store 0 0))))
    as (Hc & Hr & _).
  - by vm_compute.
  - cbn zeta. rewrite Hc, Hr. by vm_compute.
Defined.

(** C5 as stated fails: two fragments with tool calls in one response
    raise the counter by two in that round. *)
Lemma counter_twice_in_one_round :
  let st' := final (_run 3 two_batches tools 5 user_turn empty_history_store 0 0) in
  rounds st' = [2; 0] ∧ ¬ one_per_round st'.
Proof.
  split; [by vm_compute|].
  intros H. vm_compute in H. apply Forall_cons_1 in H as [H _]. lia.
Qed.

(** C10.  With an empty caller history, a first round whose response
    carries neither content nor tool calls appends nothing, and the
    continuation check raises [IndexError]; and whenever the loop is
    entered and [_run] returns, the history it leaves is not empty. *)
Theorem empty_history_index_error
    {W : Type} (MAX_CONSECUTIVE_TOOL_CALL_NUM : nat)
    (_call_llm : Message → list Message → W → list Message * W)
    (_call_tool : string → string → W → tool_result * W)
    (__input : Message) (σ : store) (caller_history : loc) (w : W) :
  0 < MAX_CONSECUTIVE_TOOL_CALL_NUM →
  view σ caller_history = [] →
  existsb has_payload (_call_llm __input [] w).1 = false →
  (∀ fuel, ∃ st',
     _run MAX_CONSECUTIVE_TOOL_CALL_NUM _call_llm _call_tool
       (S fuel) __input σ caller_history w = Done (Raised IndexError st')
     ∧ history st' = []) ∧
  (∀ σ0 l0 w0 fuel st',
     _run MAX_CONSECUTIVE_TOOL_CALL_NUM _call_llm _call_tool
       fuel __input σ0 l0 w0 = Done (Return st') →
     history st' ≠ []).
Proof.
  intros Hmax Hempty Hsilent. split.
  - intros fuel. unfold _run.
    destruct (enter_spec σ caller_history w)
      as (_ & Hh & _ & Hcache & Hc & Hw & _).
    set (st0 := enter σ caller_history w) in *.
    rewrite Hempty in Hh.
    destruct (round_silent _call_llm _call_tool __input st0)
      as (st1 & Hround & Hh1 & _); [by rewrite Hh, Hw|done|].
    exists st1. cbn [FuncCallAgent.while_loop].
    rewrite bool_decide_eq_true_2 by lia.
    rewrite Hround, Hh1, Hh. done.
  - intros σ0 l0 w0 fuel st' Hrun.
    eapply while_loop_returns_nonempty; [exact Hrun|].
    left. destruct (enter_spec σ0 l0 w0) as (_ & _ & _ & _ & -> & _). done.
Qed.

Lemma empty_history_index_error_witness :
  ∃ st', _run 3 role_only tools 1 user_turn empty_history_store 0 0
         = Done (Raised IndexError st') ∧ history st' = [].
Proof.
  destruct (empty_history_index_error 3 role_only tools user_turn
              empty_history_store 0 0) as [H _].
  - lia.
  - reflexivity.
  - reflexivity.
  - exact (H 0).
Defined.

Lemma silent_rounds_stall (fuel : nat) (st : run_state nat) :
  (∃ turn, last (history st) = Some turn ∧ role_is TOOL turn = true) →
  content_cache st = [] → tool_call_counter st < 3 →
  ∃ st', while_loop 3 calls_then_silent tools fuel user_turn st = OutOfFuel st'.
Proof.
  revert st. induction fuel as [|fuel IH]; intros st (turn & Hlast & Hrole) Hcache Hc.
  { exists st. by apply while_loop_exhausted. }
  destruct (round_silent calls_then_silent tools user_turn st)
    as (st1 & Hround & Hh & Hc1 & Hcache1); [|done|].
  { destruct (history st); [done|]. done. }
  destruct (IH st1) as [st' Hst']; [by rewrite Hh; eauto|done|lia|].
  exists st'. rewrite <- Hst'.
  apply (while_loop_continue _ _ _ _ _ _ _ turn); [done..|by rewrite Hh|done].
Qed.

Lemma silent_first_round :
  let st0 := enter empty_history_store 0 0 in
  let st1 := state_of (round calls_then_silent tools user_turn st0) in
  tool_call_counter st0 < 3 ∧
  round calls_then_silent tools user_turn st0 = Return st1 ∧
  last (history st1) = Some (tool_message "sunny" "query_weather" "call_A") ∧
  role_is TOOL (tool_message "sunny" "query_weather" "call_A") = true ∧
  content_cache st1 = [] ∧ tool_call_counter st1 < 3.
Proof. vm_compute. repeat split; lia. Qed.

(** After a first round that called a tool, a backend that has nothing
    more to say is asked again and again, for the history still ends with
    the tool turn and the counter stays where it is. *)
Lemma silent_backend_never_ends :
  ¬ ∃ fuel o,
      _run 3 calls_then_silent tools fuel user_turn empty_history_store 0 0
      = Done o.
Proof.
  intros (fuel & o & Hrun). unfold _run in Hrun.
  destruct silent_first_round as (Hc0 & Hround & Hlast & Hrole & Hcache & Hc).
  destruct fuel as [|fuel].
  - by rewrite (while_loop_exhausted _ _ _ _ _ Hc0) in Hrun.
  - rewrite (while_loop_continue _ _ _ _ _ _ _ _ Hc0 Hround Hlast Hrole) in Hrun.
    destruct (silent_rounds_stall fuel
                (state_of (round calls_then_silent tools user_turn
                             (enter empty_history_store 0 0))))
      as [st' Hst']; [by eauto|done..|].
    congruence.
Qed.

(** A round that a raising call ends is among the rounds in which tools
    were dispatched: with a bound of two, a run whose second round ends
    with [UnknownTool] after two calls has dispatched in two rounds. *)
Lemma raising_round_is_counted :
  let r := _run 2 asks_again tools 5 user_turn user_store 1 0 in
  r = Done (Raised (UnknownTool "no_such_tool") (final r)) ∧
  rounds (final r) = [1] ∧
  call_rounds (final r) = [0; 1; 1] ∧
  dispatch_rounds (final r) = 2.
Proof. by vm_compute. Qed.

(** C2 as stated fails.  The loop does not end for every backend: one
    that is silent after a round of tool calls is asked for ever.  And a
    backend that asks for tools on every round does not make the loop
    stop after exactly the bound: with a bound of three, one that asks in
    two fragments of a response stops it after two rounds, one that goes
    on with text after asking stops it after one, one whose tool has
    nothing to report stops it after one, and one that asks in a turn
    that is not the assistant's ends the run with [AssertionError] in the
    first. *)
Lemma loop_bound_fails_as_stated :
  (¬ ∃ fuel o,
       _run 3 calls_then_silent tools fuel user_turn empty_history_store 0 0
       = Done o) ∧
  (let r := _run 3 always_two_batches echo 5 user_turn user_store 1 0 in
   r = Done (Return (final r)) ∧ rounds (final r) = [2; 2]) ∧
  (let r := _run 3 calls_then_talks echo 5 user_turn user_store 1 0 in
   r = Done (Return (final r)) ∧ rounds (final r) = [1]) ∧
  (let r := _run 3 (always_calls [C]) tools 5 user_turn user_store 1 0 in
   r = Done (Return (final r)) ∧ rounds (final r) = [1]) ∧
  (let r := _run 3 calls_as_user echo 5 user_turn user_store 1 0 in
   r = Done (Raised (AssertionError "Tool calls can only be made by the assistant.")
               (final r)) ∧
   rounds (final r) = []).
Proof.
  split; [exact silent_backend_never_ends|].
  split; [by vm_compute|]. split; [by vm_compute|].
  split; by vm_compute.
Qed.

(** C2, as the code has it.  Whatever the backend, the tools and the fuel,
    and however the run ends, the dispatcher is called in at most
    [MAX_CONSECUTIVE_TOOL_CALL_NUM] rounds of it.  When every response of
    the backend carries content or a tool call and no fragment opens a
    turn of role [TOOL], the loop ends within that many rounds.  When
    every response asks for tools once, in an assistant turn and with
    nothing after the request, and every tool reports a result, the loop
    returns after exactly that many rounds, each of which called the
    dispatcher and raised the counter by one. *)
Theorem tool_call_loop_bounded
    {W : Type} (MAX_CONSECUTIVE_TOOL_CALL_NUM : nat)
    (_call_llm : Message → list Message → W → list Message * W)
    (_call_tool : string → string → W → tool_result * W)
    (__input : Message) (σ : store) (caller_history : loc) (w : W) :
  let run fuel := _run MAX_CONSECUTIVE_TOOL_CALL_NUM _call_llm _call_tool
                    fuel __input σ caller_history w in
  (∀ fuel, dispatch_rounds (final (run fuel)) ≤ MAX_CONSECUTIVE_TOOL_CALL_NUM) ∧
  ((∀ h w, well_formed_response (_call_llm __input h w).1 = true) →
   ∃ o, ∀ fuel, MAX_CONSECUTIVE_TOOL_CALL_NUM ≤ fuel → run fuel = Done o) ∧
  ((∀ h w, one_tool_request (_call_llm __input h w).1) →
   (∀ n a w, reports (_call_tool n a w).1 = true) →
   ∃ st', (∀ fuel, MAX_CONSECUTIVE_TOOL_CALL_NUM ≤ fuel →
                   run fuel = Done (Return st')) ∧
          rounds st' = replicate MAX_CONSECUTIVE_TOOL_CALL_NUM 1 ∧
          dispatch_rounds st' = MAX_CONSECUTIVE_TOOL_CALL_NUM).
Proof.
  cbn zeta. unfold _run.
  destruct (enter_spec σ caller_history w)
    as (Hwf & _ & Hlr & Hcache & Hc & _ & _ & _ & Hr).
  pose proof (enter_call_rounds σ caller_history w) as Hcalls.
  set (st0 := enter σ caller_history w) in *.
  assert (Hnone : dispatch_rounds st0 = 0) by (unfold dispatch_rounds; by rewrite Hcalls).
  split; [|split].
  - intros fuel.
    apply (while_loop_dispatch_rounds MAX_CONSECUTIVE_TOOL_CALL_NUM
             _call_llm _call_tool fuel __input st0);
      [by rewrite Hcalls|lia..].
  - intros Hok.
    apply (while_loop_terminates MAX_CONSECUTIVE_TOOL_CALL_NUM
             _call_llm _call_tool __input _ st0 Hok Hwf); [by rewrite Hlr|lia].
  - intros Hllm Htools.
    destruct (while_loop_one_request MAX_CONSECUTIVE_TOOL_CALL_NUM
                _call_llm _call_tool __input MAX_CONSECUTIVE_TOOL_CALL_NUM st0
                Hllm Htools Hwf Hcache) as (st' & Hrun & _ & Hrounds & Hdr);
      [by rewrite Hcalls|lia|].
    rewrite Hr in Hrounds. cbn in Hrounds.
    exists st'. split; [done|]. split; [done|]. lia.
Qed.

Lemma tool_call_loop_bounded_witness :
  (∀ fuel, dispatch_rounds
             (final (_run 3 (thinks_then_calls [A; B]) echo fuel
                       user_turn user_store 1 0)) ≤ 3) ∧
  (∃ o, ∀ fuel, 3 ≤ fuel →
        _run 3 (answers "hi") tools fuel user_turn user_store 1 0 = Done o) ∧
  (∃ st', (∀ fuel, 3 ≤ fuel →
           _run 3 (thinks_then_calls [A; B]) echo fuel user_turn user_store 1 0
           = Done (Return st')) ∧
          rounds st' = [1; 1; 1] ∧ dispatch_rounds st' = 3).
Proof.
  split; [|split].
  - apply (tool_call_loop_bounded 3 (thinks_then_calls [A; B]) echo
             user_turn user_store 1 0).
  - apply (tool_call_loop_bounded 3 (answers "hi") tools user_turn user_store 1 0).
    intros h w. reflexivity.
  - apply (tool_call_loop_bounded 3 (thinks_then_calls [A; B]) echo
             user_turn user_store 1 0).
    + intros h w.
      exists [fragment (Some ASSISTANT) (Some "Let me check.") None],
             (fragment None None (Some [A; B])), [fragment None None None].
      by repeat split.
    + intros n a w. reflexivity.
Defined.

(** C6 as stated fails: with the dispatcher of the design document a call
    for a tool that is not registered fails with [UnknownTool], and the
    run ends with that exception and without a tool-result turn. *)
Lemma unknown_tool_ends_run :
  let r := _run 3 (always_calls [unknown_request]) tools 5 user_turn user_store 1 0 in
  r = Done (Raised (UnknownTool "no_such_tool") (final r)) ∧
  filter (λ m, role_is TOOL m = true) (history (final r)) = [].
Proof. by vm_compute. Qed.

(** C6, as the code has it.  [_run] has no handler around the tool call.
    In whatever round of a run, in whatever fragment of the response and
    at whatever place among the requests of the fragment a call of the
    dispatcher raises, the exception leaves [_run]: the history ends with
    the assistant turn of the requests and the results of the calls made
    before, there is no turn for the failed call, and no later call is
    made.  Here [_run .. n .. = OutOfFuel st] says that [n] rounds have
    gone by and that the loop is about to begin another in the state [st].
    A text that the dispatcher returns, an error description included,
    becomes a tool-result turn, is yielded, and lets the dispatch go
    on. *)
Theorem tool_failure_not_caught
    {W : Type} (MAX_CONSECUTIVE_TOOL_CALL_NUM : nat)
    (_call_llm : Message → list Message → W → list Message * W)
    (_call_tool : string → string → W → tool_result * W)
    (__input : Message) (σ : store) (caller_history : loc) (w : W)
    (tc : ToolCall) :
  (∀ (n : nat) (st st1 : run_state W) (w1 w2 : W)
     (pre : list Message) (f : Message) (rest : list Message)
     (before after : list ToolCall) (e : exn),
     _run MAX_CONSECUTIVE_TOOL_CALL_NUM _call_llm _call_tool
       n __input σ caller_history w = OutOfFuel st →
     _call_llm __input (history st) (world st) = (pre ++ f :: rest, w1) →
     for_responses _call_tool pre (set_world w1 st) = Return st1 →
     let st2 := on_content f (on_role f (yield f st1)) in
     last_role st2 = Some ASSISTANT →
     truthy_list (tool_calls f) = Some (before ++ tc :: after) →
     raising (tool_results _call_tool before (world st2)) = None →
     _call_tool (fc_name (tc_function tc)) (fc_arguments (tc_function tc))
       (world_after _call_tool before (world st2)) = (ToolRaise e, w2) →
     ∃ st',
       (∀ fuel, n < fuel →
          _run MAX_CONSECUTIVE_TOOL_CALL_NUM _call_llm _call_tool
            fuel __input σ caller_history w = Done (Raised e st')) ∧
       history st' =
         history st2 ++
         tool_calls_message (join (content_cache st2)) (before ++ tc :: after)
         :: reply_turns before (tool_results _call_tool before (world st2)) ∧
       yielded st' =
         yielded st2
         ++ reply_turns before (tool_results _call_tool before (world st2)) ∧
       tool_trace st' = tool_trace st2 ++ (call_of <$> before ++ [tc])) ∧
  (∀ text w2 (st : run_state W),
     wf st →
     _call_tool (fc_name (tc_function tc)) (fc_arguments (tc_function tc)) (world st)
     = (ToolReturn (Some text), w2) →
     let reply := tool_message text (fc_name (tc_function tc)) (tc_id tc) in
     let st' := state_of (dispatch _call_tool [tc] st) in
     raised (dispatch _call_tool [tc] st) = None ∧
     history st' = history st ++ [reply] ∧
     yielded st' = yielded st ++ [reply]).
Proof.
  split.
  - intros n st st1 w1 w2 pre f rest before after e Hrun Hllm Hpre st2
      Hrole Htcs Hnone Hcall.
    unfold _run in *.
    destruct (enter_spec σ caller_history w) as (Hwf0 & _).
    set (st0 := enter σ caller_history w) in *.
    assert (Hwf : wf st).
    { destruct (extends_while_loop MAX_CONSECUTIVE_TOOL_CALL_NUM
                  _call_llm _call_tool n __input st0 Hwf0) as [app Happ].
      rewrite Hrun in Happ. by eapply extends_wf. }
    destruct (while_loop_resume MAX_CONSECUTIVE_TOOL_CALL_NUM
                _call_llm _call_tool n __input st0 st Hrun) as [Hc Hgo].
    destruct (round_tool_raises _call_llm _call_tool __input st st1 pre f rest
                w1 w2 before tc after e Hwf Hllm Hpre Hrole Htcs Hnone Hcall)
      as (st' & Hround & Hh & Hy & Ht).
    exists st'. split; [|done].
    intros fuel Hfuel. replace fuel with (n + S (fuel - S n)) by lia.
    rewrite Hgo. by apply while_loop_raise.
  - intros text w2 st Hwf Htool.
    destruct (dispatch_spec _call_tool [tc] st Hwf) as (Hr & (_ & Hh & _) & Hy & _).
    cbn zeta. cbn [FuncCallAgent.dispatch tool_results] in *.
    rewrite Htool in *. done.
Qed.

Lemma tool_failure_not_caught_witness :
  ∃ st', _run 3 asks_again tools 2 user_turn user_store 1 0
         = Done (Raised (UnknownTool "no_such_tool") st') ∧
         history st' = [ user_turn;
                         tool_calls_message "" [A];
                         tool_message "sunny" "query_weather" "call_A";
                         tool_calls_message "One more." [B; unknown_request; A];
                         tool_message "2024-03-28" "web_search" "call_B" ] ∧
         tool_trace st' = [call_of A; call_of B; call_of unknown_request].
Proof.
  pose (st := final (_run 3 asks_again tools 1 user_turn user_store 1 0)).
  pose (f1 := fragment (Some ASSISTANT) (Some "One more.") None).
  pose (f2 := fragment None None (Some [B; unknown_request; A])).
  pose (st1 := state_of (for_responses tools [f1] (set_world (world st) st))).
  destruct (tool_failure_not_caught 3 asks_again tools user_turn user_store 1 0
              unknown_request) as [Hraise _].
  destruct (Hraise 1 st st1 (world st) 2 [f1] f2 [] [B] [A]
              (UnknownTool "no_such_tool"))
    as (st' & Hrun & Hh & _ & Ht); try (vm_compute; reflexivity).
  exists st'. split; [apply Hrun; lia|].
  split; [rewrite Hh|rewrite Ht]; vm_compute; reflexivity.
Defined.




Import ModuleBase UpdateFacts.

(** C7.  With [recursive=True] and fuel for the walk, [update] visits the
    nodes of the tree in post-order, each node once, and collects for each
    phase the descriptors of the nodes that have one, in that order; for a
    root with two leaf children that all have a train descriptor the train
    list is [child1, child2, root]. *)
Theorem update_collects_in_postorder
    {task : Type} (self : module task) (mode : string) (fuel : nat) :
  mode = "train" ∨ mode = "server" →
  2 * size self ≤ fuel →
  update fuel mode true self
  = Some (Return (collection (postorder self),
                  launch mode (collection (postorder self)))) ∧
  visited (collection (postorder self)) = postorder self ∧
  length (postorder self) = size self ∧
  train_tasks (collection (postorder self)) = omap _get_train_tasks (postorder self) ∧
  ∀ l0 l1 l2 (t0 t1 t2 : task) d0 d1 d2 e0 e1 e2,
    self = Module l0 (Some t0) d0 e0
             [Module l1 (Some t1) d1 e1 []; Module l2 (Some t2) d2 e2 []] →
    train_tasks <$> collected_by (update fuel mode true self) = Some [t1; t2; t0].
Proof.
  intros Hmode Hfuel.
  assert (Hupdate : update fuel mode true self
                    = Some (Return (collection (postorder self),
                                    launch mode (collection (postorder self))))).
  { unfold update. rewrite (collect_recursive fuel self Hfuel).
    destruct Hmode as [-> | ->]; done. }
  split; [done|]. split; [done|]. split; [apply length_postorder|]. split; [done|].
  intros l0 l1 l2 t0 t1 t2 d0 d1 d2 e0 e1 e2 Hself.
  rewrite Hupdate. by subst self.
Qed.

Lemma update_collects_in_postorder_witness :
  train_tasks <$> collected_by (update 6 "train" true two_children)
  = Some ["train child1"; "train child2"; "train root"] ∧
  (λ c, label <$> visited c) <$> collected_by (update 6 "train" true two_children)
  = Some ["child1"; "child2"; "root"].
Proof.
  destruct (update_collects_in_postorder two_children "train" 6)
    as (Hupdate & _ & _ & _ & Htrain).
  - by left.
  - vm_compute. lia.
  - split.
    + by apply (Htrain "root" "child1" "child2" "train root" "train child1"
                  "train child2" None (Some "deploy child1") None None None None).
    + rewrite Hupdate. reflexivity.
Defined.




(** C9 as stated fails: assigning a module to an attribute of a fresh
    instance also appends it to [submodules]. *)
Lemma module_assignment_registers :
  (fresh_instance !! "submodules" = Some (VList [])) ∧
  (∃ self', __setattr__ fresh_instance "m1" (VModule 7) = Return self' ∧
            self' !! "submodules" = Some (VList [VModule 7])) ∧
  ¬ assignment_is_local fresh_instance "m1" (VModule 7).
Proof.
  assert (Hsub : fresh_instance !! "submodules" = Some (VList [])) by by vm_compute.
  assert (Hset : __setattr__ fresh_instance "m1" (VModule 7)
                 = Return (<["m1" := VModule 7]>
                             (<["submodules" := VList [VModule 7]]> fresh_instance))).
  { unfold __setattr__. cbn [isinstance_ModuleBase]. by rewrite Hsub. }
  split; [done|]. split.
  - eexists. split; [exact Hset|].
    rewrite lookup_insert_ne by done. by rewrite lookup_insert_eq.
  - intros Hlocal. specialize (Hlocal _ Hset "submodules").
    rewrite lookup_insert_ne, lookup_insert_eq, Hsub in Hlocal by done.
    by specialize (Hlocal ltac:(done)).
Qed.

(** C9, as the code has it.  Assigning a value that is not a module
    writes the attribute and nothing else.  Assigning a module to an
    attribute of an instance whose [submodules] is a list registers it: the
    module is appended to [submodules], then the attribute is written, and
    no third attribute changes. *)
Theorem setattr_registers_modules
    (self : gmap string value) (name : string) (v : value) (items : list value) :
  self !! "submodules" = Some (VList items) →
  (isinstance_ModuleBase v = false →
   __setattr__ self name v = Return (<[name := v]> self) ∧
   assignment_is_local self name v) ∧
  (isinstance_ModuleBase v = true →
   ∃ self', __setattr__ self name v = Return self' ∧
            self' !! name = Some v ∧
            (name ≠ "submodules" →
             self' !! "submodules" = Some (VList (items ++ [v]))) ∧
            ∀ k, k ≠ name → k ≠ "submodules" → self' !! k = self !! k).
Proof.
  intros Hsub. unfold assignment_is_local, __setattr__. split; intros ->.
  - split; [done|]. intros self' [= <-] k Hk. by rewrite lookup_insert_ne.
  - rewrite Hsub. eexists. split; [done|]. split; [by rewrite lookup_insert_eq|].
    split.
    + intros Hne. rewrite lookup_insert_ne by done. by rewrite lookup_insert_eq.
    + intros k Hk1 Hk2. by rewrite !lookup_insert_ne.
Qed.

Lemma setattr_registers_modules_witness :
  (__setattr__ fresh_instance "title" (VStr "demo")
   = Return (<["title" := VStr "demo"]> fresh_instance)) ∧
  (∃ self', __setattr__ fresh_instance "m1" (VModule 7) = Return self' ∧
            self' !! "m1" = Some (VModule 7) ∧
            self' !! "submodules" = Some (VList [VModule 7])).
Proof.
  destruct (setattr_registers_modules fresh_instance "title" (VStr "demo") [])
    as [Hplain _]; [by vm_compute|].
  destruct (setattr_registers_modules fresh_instance "m1" (VModule 7) [])
    as [_ Hmodule]; [by vm_compute|].
  split; [by apply Hplain|].
  destruct (Hmodule eq_refl) as (self' & Hset & Hname & Hsubs & _).
  exists self'. split; [done|]. split; [done|]. by apply Hsubs.
Defined.


(** * Further properties of the code *)

(** ** The stream and the history of a run *)

Module StreamFacts.
Import FuncCallAgent AgentSpec StoreFacts AgentFacts Observations.

Section Stream.
Context {W : Type}.
Variable MAX_CONSECUTIVE_TOOL_CALL_NUM : nat.
Variable _call_llm : Message → list Message → W → list Message * W.
Variable _call_tool : string → string → W → tool_result * W.

Lemma reply_turns_are_replies (tcs : list ToolCall) (rs : list tool_result) :
  Forall is_tool_reply (reply_turns tcs rs).
Proof.
  revert rs. induction tcs as [|tc tcs IH]; intros [|r rs]; try by constructor.
  change (reply_turns (tc :: tcs) (r :: rs))
    with (from_option (λ m, m :: reply_turns tcs rs) (reply_turns tcs rs) (reply tc r)).
  destruct r as [[res|]|e]; cbn; [|done..].
  constructor; [|done]. by eexists _, _, _.
Qed.

Lemma tool_reply_facts (m : Message) :
  is_tool_reply m → carries_tool_calls m = false ∧ role_is TOOL m = true.
Proof. by intros (res & n & i & ->). Qed.

(** What one fragment that is processed to its end adds: to the history
    the turns [pre] (the flushed cache, then the turn of the tool calls)
    and the tool replies; to the stream the fragment and the replies. *)
Lemma on_response_shape (f : Message) (st st' : run_state W) :
  wf st → on_response _call_tool f st = Return st' →
  ∃ pre replies,
    wf st' ∧
    history st' = history st ++ pre ++ replies ∧
    yielded st' = yielded st ++ f :: replies ∧
    Forall is_tool_reply replies ∧
    length (filter (λ m, carries_tool_calls m = true) pre)
    = (if carries_tool_calls f then 1 else 0) ∧
    Forall (λ m, role m = last_role st ∨ role m = Some ASSISTANT) pre ∧
    last_role st' = role_after f st.
Proof.
  intros Hwf. unfold on_response, on_tool_calls, role_after.
  assert (H0 : extends st (yield f st) []) by by apply extends_same.
  (* lines 51-56 *)
  assert (∃ a1, extends st (on_role f (yield f st)) a1 ∧
                Forall (λ m, role m = last_role st ∧ carries_tool_calls m = false) a1 ∧
                yielded (on_role f (yield f st)) = yielded st ++ [f] ∧
                last_role (on_role f (yield f st))
                = match truthy_str (role f) with
                  | Some r => Some r
                  | None => last_role st
                  end)
    as (a1 & He1 & Ha1 & Hy1 & Hlr1).
  { unfold on_role. destruct (truthy_str (role f)) as [r|].
    - exists (match content_cache st with
              | [] => []
              | _ :: _ => [content_message (last_role st) (join (content_cache st))]
              end).
      split.
      + eapply extends_then_same;
          [apply (extends_trans _ _ _ [] _ H0), (extends_flush (yield f st));
           by eapply extends_wf|done..].
      + split; [destruct (content_cache st); by repeat constructor|].
        cbn. unfold flush. cbn. by destruct (content_cache st).
    - exists []. split; [done|]. split; [by constructor|]. by split. }
  set (st1 := on_role f (yield f st)) in *.
  (* lines 57-59 *)
  assert (He2 : extends st1 (on_content f st1) []).
  { apply extends_same;
      [by unfold on_content; destruct (truthy_str (content f))..|].
    by eapply extends_wf. }
  assert (Hy2 : yielded (on_content f st1) = yielded st1)
    by by unfold on_content; destruct (truthy_str (content f)).
  assert (Hlr2 : last_role (on_content f st1) = last_role st1)
    by by unfold on_content; destruct (truthy_str (content f)).
  set (st2 := on_content f st1) in *.
  pose proof (extends_trans _ _ _ _ _ He1 He2) as He12. rewrite app_nil_r in He12.
  (* lines 60-74 *)
  destruct (truthy_list (tool_calls f)) as [tcs|] eqn:Et.
  - case_bool_decide as Hassistant; [|done].
    set (m := tool_calls_message _ tcs).
    set (st3 := set_content_cache [] (append m st2)).
    assert (He3 : extends st2 st3 [m]).
    { eapply extends_then_same;
        [apply (extends_append m); by eapply extends_wf|done..]. }
    destruct (dispatch_spec _call_tool tcs st3 (extends_wf _ _ _ He3))
      as (_ & He4 & Hy4 & _).
    destruct (dispatch_locals _call_tool tcs st3) as (Hlr4 & _).
    destruct (FuncCallAgent.dispatch _call_tool tcs st3) as [st4|e st4];
      cbn [state_of bind] in *; [|done].
    intros [= <-].
    exists (a1 ++ [m]), (reply_turns tcs (tool_results _call_tool tcs (world st3))).
    assert (Hall : extends st (set_tool_call_counter (tool_call_counter st4 + 1) st4)
                     (a1 ++ [m] ++
                      reply_turns tcs (tool_results _call_tool tcs (world st3)))).
    { eapply extends_then_same;
        [exact (extends_trans _ _ _ _ _ He12 (extends_trans _ _ _ _ _ He3 He4))
        |done..]. }
    split; [by apply (extends_wf _ _ _ Hall)|].
    split; [destruct Hall as (_ & -> & _); by rewrite !(assoc_L (++))|].
    split; [cbn; rewrite Hy4; change (yielded st3) with (yielded st2);
            by rewrite Hy2, Hy1, <- (assoc_L (++))|].
    split; [apply reply_turns_are_replies|].
    split.
    + assert (carries_tool_calls f = true) as ->
        by (apply carries_tool_calls_spec; eauto).
      rewrite filter_app, length_app.
      assert (filter (λ m, carries_tool_calls m = true) a1 = []) as ->.
      { clear -Ha1. induction Ha1 as [|x l [_ Hx] _ IH]; [done|].
        by rewrite filter_cons_False by by rewrite Hx. }
      assert (carries_tool_calls m = true) as Hm.
      { apply carries_tool_calls_spec. exists tcs. unfold m. cbn.
        unfold truthy_list in Et |- *. by destruct (tool_calls f) as [[|]|]; simplify_eq. }
      by rewrite filter_cons_True, filter_nil.
    + split; [|cbn; rewrite Hlr4; change (last_role st3) with (last_role st2);
               by rewrite Hlr2, Hlr1].
      apply Forall_app. split; [|by repeat constructor; right].
      eapply Forall_impl; [exact Ha1|]. by intros x [? _]; left.
  - intros [= <-]. exists a1, [].
    split; [by apply (extends_wf _ _ _ He12)|].
    split; [destruct He12 as (_ & -> & _); by rewrite app_nil_r|].
    split; [by rewrite Hy2, Hy1|]. split; [done|]. split.
    + assert (carries_tool_calls f = false) as ->.
      { unfold carries_tool_calls. rewrite Et.
        apply bool_decide_eq_false_2. by intros [? ?]. }
      clear -Ha1. induction Ha1 as [|x l [_ Hx] _ IH]; [done|].
      by rewrite filter_cons_False by by rewrite Hx.
    + split; [|by rewrite Hlr2, Hlr1].
      eapply Forall_impl; [exact Ha1|]. by intros x [? _]; left.
Qed.

Lemma filter_tool_pre (lr : option string) (pre : list Message) :
  lr ≠ Some TOOL →
  Forall (λ m, role m = lr ∨ role m = Some ASSISTANT) pre →
  filter (λ m, role_is TOOL m = true) pre = [].
Proof.
  intros Hlr. induction 1 as [|m pre Hm _ IH]; [done|].
  rewrite filter_cons_False; [done|].
  unfold role_is. destruct Hm as [-> | ->]; [|done].
  destruct lr as [r|]; [|done]. intros Heq%String.eqb_eq. congruence.
Qed.

Lemma filter_tool_replies (replies : list Message) :
  Forall is_tool_reply replies →
  filter (λ m, role_is TOOL m = true) replies = replies.
Proof.
  induction 1 as [|m l Hm _ IH]; [done|].
  rewrite filter_cons_True by by apply tool_reply_facts. by rewrite IH.
Qed.

Lemma filter_carries_replies (replies : list Message) :
  Forall is_tool_reply replies →
  filter (λ m, carries_tool_calls m = true) replies = [].
Proof.
  induction 1 as [|m l Hm _ IH]; [done|].
  rewrite filter_cons_False; [done|].
  by rewrite (proj1 (tool_reply_facts m Hm)).
Qed.

Lemma role_after_not_tool (f : Message) (st : run_state W) :
  last_role st ≠ Some TOOL → role_is TOOL f = false →
  role_after f st ≠ Some TOOL.
Proof.
  intros Hlr Hf. unfold role_after.
  destruct (truthy_str (role f)) as [r|] eqn:Er; [|done].
  intros [= ->]. by eapply truthy_role_not_tool.
Qed.

(** The fragments of a response that is processed to its end, seen from
    the history and from the stream. *)
Lemma for_responses_stream (fs : list Message) (st st' : run_state W) :
  wf st → for_responses _call_tool fs st = Return st' →
  ∃ app ys,
    wf st' ∧
    history st' = history st ++ app ∧
    yielded st' = yielded st ++ ys ∧
    fs `sublist_of` ys ∧
    Forall (λ m, m ∈ fs ∨ is_tool_reply m) ys ∧
    length (filter (λ m, carries_tool_calls m = true) app)
    = length (filter (λ f, carries_tool_calls f = true) fs) ∧
    (last_role st ≠ Some TOOL →
     forallb (λ f, negb (role_is TOOL f)) fs = true →
     last_role st' ≠ Some TOOL ∧
     filter (λ m, role_is TOOL m = true) app
     = filter (λ m, role_is TOOL m = true) ys).
Proof.
  revert st. induction fs as [|f fs IH]; intros st Hwf Hrun.
  { cbn in Hrun. simplify_eq. exists [], [].
    rewrite !app_nil_r. repeat split; try done. }
  cbn [FuncCallAgent.for_responses] in Hrun.
  destruct (on_response _call_tool f st) as [st1|e st1] eqn:E1; [|done].
  cbn [bind] in Hrun.
  destruct (on_response_shape f st st1 Hwf E1)
    as (pre & replies & Hwf1 & Hh1 & Hy1 & Hrep & Hcount1 & Hroles & Hlr1).
  destruct (IH st1 Hwf1 Hrun)
    as (app & ys & Hwf' & Hh & Hy & Hsub & Hfrom & Hcount & Htool).
  exists ((pre ++ replies) ++ app), ((f :: replies) ++ ys).
  split; [done|].
  split; [by rewrite Hh, Hh1, !(assoc_L (++))|].
  split; [by rewrite Hy, Hy1, !(assoc_L (++))|].
  split.
  { cbn. apply sublist_skip. by apply sublist_inserts_l. }
  split.
  { cbn. constructor; [left; by left|]. apply Forall_app. split.
    - eapply Forall_impl; [exact Hrep|]. by right.
    - eapply Forall_impl; [exact Hfrom|]. intros m [?|?]; [left; by right|by right]. }
  split.
  { rewrite !filter_app, !length_app, Hcount, Hcount1.
    rewrite (filter_carries_replies _ Hrep), filter_cons.
    destruct (carries_tool_calls f); cbn.
    - by rewrite decide_True.
    - by rewrite decide_False. }
  intros Hlr Hfs. cbn in Hfs. apply andb_true_iff in Hfs as [Hf Hfs].
  apply negb_true_iff in Hf.
  destruct Htool as [Hlr' Hfilter]; [rewrite Hlr1; by apply role_after_not_tool|done|].
  split; [done|].
  rewrite !filter_app, Hfilter, (filter_tool_pre _ _ Hlr Hroles).
  rewrite filter_cons_False by by rewrite Hf.
  by rewrite (filter_tool_replies _ Hrep).
Qed.

(** The same for a round that returns: the flush at its end adds at
    most a turn of the role in force, without tool calls. *)
Lemma round_stream (__input : Message) (st st' : run_state W) :
  wf st → round _call_llm _call_tool __input st = Return st' →
  let fs := (_call_llm __input (history st) (world st)).1 in
  ∃ app ys,
    wf st' ∧
    history st' = history st ++ app ∧
    yielded st' = yielded st ++ ys ∧
    fs `sublist_of` ys ∧
    Forall (λ m, m ∈ fs ∨ is_tool_reply m) ys ∧
    length (filter (λ m, carries_tool_calls m = true) app)
    = length (filter (λ f, carries_tool_calls f = true) fs) ∧
    (last_role st ≠ Some TOOL →
     forallb (λ f, negb (role_is TOOL f)) fs = true →
     last_role st' ≠ Some TOOL ∧
     filter (λ m, role_is TOOL m = true) app
     = filter (λ m, role_is TOOL m = true) ys).
Proof.
  intros Hwf. unfold round.
  destruct (_call_llm __input (history st) (world st)) as [fs w]. cbn [fst].
  destruct (for_responses _call_tool fs (set_world w st)) as [st1|e st1] eqn:E1;
    cbn [bind]; [|done].
  intros [= <-].
  destruct (for_responses_stream fs (set_world w st) st1)
    as (app & ys & Hwf1 & Hh & Hy & Hsub & Hfrom & Hcount & Htool); [done..|].
  pose proof (extends_flush st1 Hwf1) as (Hwf2 & Hh2 & _).
  assert (Hlr2 : last_role (flush st1) = last_role st1)
    by by unfold flush; destruct (content_cache st1).
  assert (Hy2 : yielded (flush st1) = yielded st1)
    by by unfold flush; destruct (content_cache st1).
  eexists (app ++ _), ys.
  split; [exact Hwf2|].
  split.
  { change (history (log_round _ (flush st1))) with (history (flush st1)).
    rewrite Hh2, Hh. change (history (set_world w st)) with (history st).
    by rewrite (assoc_L (++)). }
  split; [cbn; by rewrite Hy2, Hy|].
  split; [done|]. split; [done|]. split.
  { rewrite filter_app, length_app, Hcount.
    destruct (content_cache st1); [cbn; lia|].
    rewrite filter_cons_False by done. cbn. lia. }
  intros Hlr Hfs. destruct (Htool Hlr Hfs) as [Hlr1 Hfilter].
  split; [cbn; by rewrite Hlr2|].
  rewrite filter_app, Hfilter.
  destruct (content_cache st1); [by rewrite app_nil_r|].
  rewrite filter_cons_False, app_nil_r; [done|].
  unfold role_is. cbn. destruct (last_role st1) as [r|]; [|done].
  intros Heq%String.eqb_eq. congruence.
Qed.

Lemma while_loop_break
    (fuel : nat) (__input : Message) (st st1 : run_state W) (turn : Message) :
  tool_call_counter st < MAX_CONSECUTIVE_TOOL_CALL_NUM →
  round _call_llm _call_tool __input st = Return st1 →
  last (history st1) = Some turn → role_is TOOL turn = false →
  while_loop MAX_CONSECUTIVE_TOOL_CALL_NUM _call_llm _call_tool (S fuel) __input st
  = Done (Return st1).
Proof.
  intros Hc Hround Hlast Hrole. cbn [FuncCallAgent.while_loop].
  by rewrite bool_decide_eq_true_2, Hround, Hlast, Hrole.
Qed.

(** Line 62: tool calls in a turn that is not the assistant's. *)
Lemma on_response_assertion (f : Message) (tcs : list ToolCall) (st : run_state W) :
  truthy_list (tool_calls f) = Some tcs →
  role_after f st ≠ Some ASSISTANT →
  ∃ st', on_response _call_tool f st
         = Raised (AssertionError "Tool calls can only be made by the assistant.") st' ∧
         tool_trace st' = tool_trace st ∧
         tool_call_counter st' = tool_call_counter st ∧
         yielded st' = yielded st ++ [f] ∧
         (content_cache st = [] →
          heap st' = heap st ∧ llm_chat_history st' = llm_chat_history st).
Proof.
  intros Htcs Hrole. unfold on_response, on_tool_calls. rewrite Htcs.
  assert (Hlr : last_role (on_content f (on_role f (yield f st))) = role_after f st).
  { unfold on_content, on_role, role_after.
    by destruct (truthy_str (content f)), (truthy_str (role f)). }
  rewrite bool_decide_eq_false_2 by by rewrite Hlr.
  eexists. split; [done|].
  unfold on_content, on_role, flush. cbn.
  destruct (truthy_str (content f)), (truthy_str (role f)),
    (content_cache st); cbn; repeat split; done.
Qed.

(** Fragments that neither name a role nor carry tool calls only feed
    the cache and the stream. *)
Lemma for_responses_continuation (fs : list Message) (st : run_state W) :
  forallb continues_turn fs = true →
  forallb (λ f, negb (carries_tool_calls f)) fs = true →
  ∃ st', for_responses _call_tool fs st = Return st' ∧
         heap st' = heap st ∧ llm_chat_history st' = llm_chat_history st ∧
         last_role st' = last_role st ∧
         content_cache st' = content_cache st ++ contents fs ∧
         yielded st' = yielded st ++ fs ∧
         tool_trace st' = tool_trace st ∧
         tool_call_counter st' = tool_call_counter st ∧
         world st' = world st ∧ rounds st' = rounds st.
Proof.
  revert st. induction fs as [|f fs IH]; intros st Hroles Hcalls.
  { exists st. rewrite !app_nil_r. by cbn. }
  cbn in Hroles, Hcalls.
  apply andb_true_iff in Hroles as [Hrole Hroles].
  apply andb_true_iff in Hcalls as [Hcall Hcalls].
  apply bool_decide_eq_true in Hrole. apply negb_true_iff in Hcall.
  assert (Hnone : truthy_list (tool_calls f) = None).
  { unfold carries_tool_calls in Hcall. apply bool_decide_eq_false in Hcall.
    destruct (truthy_list (tool_calls f)); [|done]. by destruct Hcall. }
  cbn [FuncCallAgent.for_responses].
  rewrite (on_response_no_tool_calls _call_tool f st Hnone). cbn [bind].
  destruct (IH (on_content f (on_role f (yield f st))) Hroles Hcalls)
    as (st' & Hrun & Hheap & Hloc & Hlr & Hcache & Hy & Ht & Hc & Hw & Hr).
  exists st'. split; [done|].
  assert (Hcontents : contents (f :: fs)
                      = option_list (truthy_str (content f)) ++ contents fs).
  { unfold contents. cbn. by destruct (truthy_str (content f)). }
  rewrite Hcontents. revert Hheap Hloc Hlr Hcache Hy Ht Hc Hw Hr.
  unfold on_content, on_role. rewrite Hrole.
  destruct (truthy_str (content f)) as [c|]; cbn; intros -> -> -> -> -> -> -> -> ->;
    by rewrite <- ?(assoc_L (++)).
Qed.

End Stream.
End StreamFacts.

Import Observations StreamFacts.

(** X1.  The working history only grows: whatever the backend, the tools
    and the fuel, and however the run ends, the history it leaves starts
    with the caller's history. *)
Theorem run_history_append_only
    {W : Type} (MAX_CONSECUTIVE_TOOL_CALL_NUM : nat)
    (_call_llm : Message → list Message → W → list Message * W)
    (_call_tool : string → string → W → tool_result * W)
    (fuel : nat) (__input : Message) (σ : store) (caller_history : loc) (w : W) :
  view σ caller_history `prefix_of`
  history (final (_run MAX_CONSECUTIVE_TOOL_CALL_NUM _call_llm _call_tool
                    fuel __input σ caller_history w)).
Proof.
  unfold _run. destruct (enter_spec σ caller_history w) as (Hwf & Hh & _).
  destruct (extends_while_loop MAX_CONSECUTIVE_TOOL_CALL_NUM _call_llm _call_tool
              fuel __input _ Hwf) as (app & _ & Happ & _).
  rewrite Happ, Hh. by exists app.
Qed.

(** X2.  Tool calls in a fragment that opens or continues a turn other
    than the assistant's make [_run] raise the assertion of line 62: the
    fragment has been yielded, no tool is called, and nothing is added to
    the history. *)
Theorem tool_calls_outside_assistant_turn
    {W : Type} (MAX_CONSECUTIVE_TOOL_CALL_NUM : nat)
    (_call_llm : Message → list Message → W → list Message * W)
    (_call_tool : string → string → W → tool_result * W)
    (__input : Message) (σ : store) (caller_history : loc) (w w1 : W)
    (f : Message) (rest : list Message) (tcs : list ToolCall) (fuel : nat) :
  0 < MAX_CONSECUTIVE_TOOL_CALL_NUM →
  _call_llm __input (view σ caller_history) w = (f :: rest, w1) →
  truthy_list (tool_calls f) = Some tcs →
  truthy_str (role f) ≠ Some ASSISTANT →
  ∃ st',
    _run MAX_CONSECUTIVE_TOOL_CALL_NUM _call_llm _call_tool
      (S fuel) __input σ caller_history w
    = Done (Raised (AssertionError "Tool calls can only be made by the assistant.") st') ∧
    tool_trace st' = [] ∧
    yielded st' = [f] ∧
    history st' = view σ caller_history.
Proof.
  intros Hmax Hllm Htcs Hrole. unfold _run.
  destruct (enter_spec σ caller_history w)
    as (Hwf & Hh & Hlr & Hcache & Hc & Hw & Hy & Ht & _).
  set (st0 := enter σ caller_history w) in *. clearbody st0.
  destruct (on_response_assertion _call_tool f tcs (set_world w1 st0))
    as (st' & Hf & Ht' & _ & Hy' & Hheap); [done| |].
  { unfold role_after. cbn. rewrite Hlr. by destruct (truthy_str (role f)). }
  destruct (Hheap Hcache) as [Hheap' Hloc'].
  exists st'. split.
  - apply while_loop_raise; [lia|]. unfold round.
    rewrite Hh, Hw, Hllm. cbn [FuncCallAgent.for_responses]. by rewrite Hf.
  - rewrite Ht', Hy'. cbn. rewrite Ht, Hy. repeat split.
    unfold history. by rewrite Hheap', Hloc'.
Qed.

Lemma tool_calls_outside_assistant_turn_witness :
  ∃ st',
    _run 3 (λ _ _ w, ([Examples.fragment (Some "user") None (Some [A])], w))
      tools 1 user_turn user_store 1 0
    = Done (Raised (AssertionError "Tool calls can only be made by the assistant.") st') ∧
    tool_trace st' = [] ∧
    yielded st' = [Examples.fragment (Some "user") None (Some [A])] ∧
    history st' = [user_turn].
Proof.
  apply (tool_calls_outside_assistant_turn 3
           (λ _ _ w, ([Examples.fragment (Some "user") None (Some [A])], w))
           tools user_turn user_store 1 0 0
           (Examples.fragment (Some "user") None (Some [A])) [] [A] 0).
  - lia.
  - reflexivity.
  - reflexivity.
  - discriminate.
Defined.

(** X3.  A round that returns has passed every fragment of the response
    on to the caller, unchanged and in order; whatever else it yielded is
    a tool-result turn. *)
Theorem round_passes_fragments_through
    {W : Type} (_call_llm : Message → list Message → W → list Message * W)
    (_call_tool : string → string → W → tool_result * W)
    (__input : Message) (st st' : run_state W) :
  wf st →
  round _call_llm _call_tool __input st = Return st' →
  let fs := (_call_llm __input (history st) (world st)).1 in
  ∃ ys, yielded st' = yielded st ++ ys ∧
        fs `sublist_of` ys ∧
        Forall (λ m, m ∈ fs ∨ is_tool_reply m) ys.
Proof.
  intros Hwf Hround.
  destruct (round_stream _call_llm _call_tool __input st st' Hwf Hround)
    as (app & ys & _ & _ & Hy & Hsub & Hfrom & _).
  by exists ys.
Qed.

Lemma round_passes_fragments_through_witness :
  let st := enter user_store 1 0 in
  let st' := state_of (round (always_calls [A; C; B]) tools user_turn st) in
  ∃ ys, yielded st' = yielded st ++ ys ∧
        [Examples.fragment (Some ASSISTANT) None (Some [A; C; B])] `sublist_of` ys.
Proof.
  destruct (round_passes_fragments_through (always_calls [A; C; B]) tools user_turn
              (enter user_store 1 0)
              (state_of (round (always_calls [A; C; B]) tools user_turn
                           (enter user_store 1 0))))
    as (ys & Hy & Hsub & _).
  - exists [2]. split; [reflexivity|]. repeat constructor. by exists user_turn.
  - by vm_compute.
  - by exists ys.
Defined.

(** X4.  In a round that returns, the turns with tool calls added to the
    history are as many as the fragments with tool calls in the response,
    which is also by how much the counter went up. *)
Theorem tool_call_turns_counted
    {W : Type} (_call_llm : Message → list Message → W → list Message * W)
    (_call_tool : string → string → W → tool_result * W)
    (__input : Message) (st st' : run_state W) :
  wf st →
  round _call_llm _call_tool __input st = Return st' →
  let fs := (_call_llm __input (history st) (world st)).1 in
  ∃ app, history st' = history st ++ app ∧
         length (filter (λ m, carries_tool_calls m = true) app)
         = length (filter (λ f, carries_tool_calls f = true) fs) ∧
         tool_call_counter st'
         = tool_call_counter st
           + length (filter (λ m, carries_tool_calls m = true) app).
Proof.
  intros Hwf Hround.
  destruct (round_stream _call_llm _call_tool __input st st' Hwf Hround)
    as (app & ys & _ & Hh & _ & _ & _ & Hcount & _).
  pose proof (round_counter _call_llm _call_tool __input st) as Hc.
  rewrite Hround in Hc. destruct Hc as [Hc _].
  exists app. split; [done|]. split; [done|]. by rewrite Hcount.
Qed.

Lemma tool_call_turns_counted_witness :
  let st := enter empty_history_store 0 0 in
  let st' := state_of (round two_batches tools user_turn st) in
  ∃ app, history st' = history st ++ app ∧
         length (filter (λ m, carries_tool_calls m = true) app) = 2 ∧
         tool_call_counter st' = 2.
Proof.
  destruct (tool_call_turns_counted two_batches tools user_turn
              (enter empty_history_store 0 0)
              (state_of (round two_batches tools user_turn
                           (enter empty_history_store 0 0))))
    as (app & Hh & Hcount & Hc).
  - exists []. split; [reflexivity|]. constructor.
  - by vm_compute.
  - exists app. split; [done|]. rewrite Hc, Hcount. by vm_compute.
Defined.

(** X5.  When no fragment of the response has role [TOOL] and the turn in
    progress is not a tool's, the turns of role [TOOL] that a round adds
    to the history are exactly the turns of role [TOOL] it yields, in the
    same order: the caller sees every tool result that is recorded, and
    nothing else as one. *)
Theorem tool_replies_yielded_as_recorded
    {W : Type} (_call_llm : Message → list Message → W → list Message * W)
    (_call_tool : string → string → W → tool_result * W)
    (__input : Message) (st st' : run_state W) :
  wf st →
  last_role st ≠ Some TOOL →
  forallb (λ f, negb (role_is TOOL f))
    (_call_llm __input (history st) (world st)).1 = true →
  round _call_llm _call_tool __input st = Return st' →
  ∃ app ys, history st' = history st ++ app ∧
            yielded st' = yielded st ++ ys ∧
            filter (λ m, role_is TOOL m = true) app
            = filter (λ m, role_is TOOL m = true) ys ∧
            last_role st' ≠ Some TOOL.
Proof.
  intros Hwf Hlr Hfs Hround.
  destruct (round_stream _call_llm _call_tool __input st st' Hwf Hround)
    as (app & ys & _ & Hh & Hy & _ & _ & _ & Htool).
  destruct (Htool Hlr Hfs) as [Hlr' Hfilter].
  by exists app, ys.
Qed.

Lemma tool_replies_yielded_as_recorded_witness :
  let st := enter user_store 1 0 in
  let st' := state_of (round (always_calls [A; C; B]) tools user_turn st) in
  ∃ app ys, history st' = history st ++ app ∧
            yielded st' = yielded st ++ ys ∧
            filter (λ m, role_is TOOL m = true) app
            = filter (λ m, role_is TOOL m = true) ys.
Proof.
  destruct (tool_replies_yielded_as_recorded (always_calls [A; C; B]) tools user_turn
              (enter user_store 1 0)
              (state_of (round (always_calls [A; C; B]) tools user_turn
                           (enter user_store 1 0))))
    as (app & ys & Hh & Hy & Hfilter & _).
  - exists [2]. split; [reflexivity|]. repeat constructor. by exists user_turn.
  - discriminate.
  - reflexivity.
  - by vm_compute.
  - by exists app, ys.
Defined.

(** X6.  An answer streamed in pieces becomes one turn: when the first
    fragment of the first response names a role other than [TOOL], the
    others name none, none carries tool calls and some content is not
    empty, [_run] returns after that one round, having called no tool,
    yielded the fragments as they came, and added a single turn of that
    role whose content is the contents joined. *)
Theorem plain_answer_coalesced
    {W : Type} (MAX_CONSECUTIVE_TOOL_CALL_NUM : nat)
    (_call_llm : Message → list Message → W → list Message * W)
    (_call_tool : string → string → W → tool_result * W)
    (__input : Message) (σ : store) (caller_history : loc) (w w1 : W)
    (f : Message) (rest : list Message) (r : string) (fuel : nat) :
  0 < MAX_CONSECUTIVE_TOOL_CALL_NUM →
  _call_llm __input (view σ caller_history) w = (f :: rest, w1) →
  truthy_str (role f) = Some r → r ≠ TOOL →
  forallb continues_turn rest = true →
  forallb (λ f, negb (carries_tool_calls f)) (f :: rest) = true →
  contents (f :: rest) ≠ [] →
  ∃ st',
    _run MAX_CONSECUTIVE_TOOL_CALL_NUM _call_llm _call_tool
      (S fuel) __input σ caller_history w = Done (Return st') ∧
    history st' = view σ caller_history
                  ++ [content_message (Some r) (join (contents (f :: rest)))] ∧
    yielded st' = f :: rest ∧
    tool_trace st' = [] ∧
    rounds st' = [0].
Proof.
  intros Hmax Hllm Hrole Hr Hroles Hcalls Hcontents. unfold _run.
  destruct (enter_spec σ caller_history w)
    as (Hwf & Hh & Hlr & Hcache & Hc & Hw & Hy & Ht & Hrounds).
  set (st0 := enter σ caller_history w) in *. clearbody st0.
  cbn [forallb] in Hcalls. apply andb_true_iff in Hcalls as [Hcall Hcalls].
  apply negb_true_iff in Hcall.
  assert (Hnone : truthy_list (tool_calls f) = None).
  { unfold carries_tool_calls in Hcall. apply bool_decide_eq_false in Hcall.
    destruct (truthy_list (tool_calls f)); [|done]. by destruct Hcall. }
  set (st1 := on_content f (on_role f (yield f (set_world w1 st0)))).
  assert (H1 : heap st1 = heap st0 ∧ llm_chat_history st1 = llm_chat_history st0 ∧
               last_role st1 = Some r ∧
               content_cache st1 = option_list (truthy_str (content f)) ∧
               yielded st1 = [f] ∧ tool_trace st1 = [] ∧
               tool_call_counter st1 = 0 ∧ rounds st1 = []).
  { unfold st1, on_content, on_role, flush. rewrite Hrole. cbn.
    rewrite Hcache.
    destruct (truthy_str (content f)); cbn; by rewrite ?Hcache, Hy, Ht, Hc, Hrounds. }
  destruct H1 as (Hheap1 & Hloc1 & Hlr1 & Hcache1 & Hy1 & Ht1 & Hc1 & Hr1).
  destruct (for_responses_continuation _call_tool rest st1 Hroles Hcalls)
    as (st2 & Hrun & Hheap2 & Hloc2 & Hlr2 & Hcache2 & Hy2 & Ht2 & Hc2 & _ & Hr2).
  assert (Hcache2' : content_cache st2 = contents (f :: rest)).
  { rewrite Hcache2, Hcache1. unfold contents. cbn.
    by destruct (truthy_str (content f)). }
  assert (Hwf2 : wf st2) by (unfold wf; by rewrite Hheap2, Hloc2, Hheap1, Hloc1).
  assert (Hh2 : history st2 = view σ caller_history)
    by (unfold history; rewrite Hheap2, Hloc2, Hheap1, Hloc1; exact Hh).
  set (m := content_message (Some r) (join (contents (f :: rest)))).
  assert (Hflush : flush st2 = set_content_cache [] (append m st2)).
  { unfold flush, m. rewrite Hcache2', Hlr2, Hlr1.
    by destruct (contents (f :: rest)). }
  destruct (extends_append m st2 Hwf2) as (_ & Hh3 & _).
  assert (Hround : round _call_llm _call_tool __input st0
                   = Return (log_round (tool_call_counter st2 - tool_call_counter st0)
                               (flush st2))).
  { unfold round. rewrite Hh, Hw, Hllm. cbn [FuncCallAgent.for_responses].
    rewrite (on_response_no_tool_calls _call_tool f _ Hnone). cbn [bind].
    fold st1. by rewrite Hrun. }
  eexists. split.
  - eapply (while_loop_break _ _ _ _ _ _ _ m); [lia|exact Hround| |].
    + rewrite Hflush.
      change (history (log_round _ (set_content_cache [] (append m st2))))
        with (history (append m st2)).
      by rewrite Hh3, last_snoc.
    + unfold role_is. cbn. by apply String.eqb_neq.
  - rewrite Hflush. cbn [yielded tool_trace rounds log_round set_content_cache append].
    change (history (log_round _ (set_content_cache [] (append m st2))))
      with (history (append m st2)).
    rewrite Hh3, Hh2, Hy2, Hy1, Ht2, Ht1, Hr2, Hr1, Hc2, Hc1, Hc. done.
Qed.

Lemma plain_answer_coalesced_witness :
  ∃ st',
    _run 3 (λ _ _ w, ([Examples.fragment (Some ASSISTANT) (Some "Hi") None;
                       Examples.fragment None (Some " there") None;
                       Examples.fragment None None None], w))
      tools 1 user_turn user_store 1 0 = Done (Return st') ∧
    history st' = [user_turn; content_message (Some ASSISTANT) "Hi there"] ∧
    yielded st' = [Examples.fragment (Some ASSISTANT) (Some "Hi") None;
                   Examples.fragment None (Some " there") None;
                   Examples.fragment None None None] ∧
    tool_trace st' = [] ∧
    rounds st' = [0].
Proof.
  apply (plain_answer_coalesced 3
           (λ _ _ w, ([Examples.fragment (Some ASSISTANT) (Some "Hi") None;
                       Examples.fragment None (Some " there") None;
                       Examples.fragment None None None], w))
           tools user_turn user_store 1 0 0
           (Examples.fragment (Some ASSISTANT) (Some "Hi") None)
           [Examples.fragment None (Some " there") None;
            Examples.fragment None None None] ASSISTANT 0).
  - lia.
  - reflexivity.
  - reflexivity.
  - discriminate.
  - reflexivity.
  - reflexivity.
  - discriminate.
Defined.


(** ** More on the update pass and on attribute assignment *)

Module UpdateMore.
Import ModuleBase UpdateFacts ModuleBaseSpec.

Section Walk.
Context {task : Type}.
Implicit Types (m : module task) (c : collected task).

(** Every visited node comes right after the whole walk of its own
    submodules. *)
Lemma postorder_infix :
  ∀ self m, m ∈ postorder self →
            ∃ pre post, postorder self = pre ++ postorder m ++ post.
Proof.
  fix IH 1. intros [l t d e children] m. cbn [postorder].
  intros [Hin|Hin]%elem_of_app.
  - assert (∃ pre post, flat_map postorder children = pre ++ postorder m ++ post)
      as (pre & post & Heq).
    { induction children as [|child cs IHcs]; [by apply elem_of_nil in Hin|].
      cbn [flat_map] in Hin |- *. apply elem_of_app in Hin as [Hin|Hin].
      - destruct (IH child m Hin) as (pre & post & ->).
        exists pre, (post ++ flat_map postorder cs). by rewrite <- !(assoc_L (++)).
      - destruct (IHcs Hin) as (pre & post & ->).
        exists (postorder child ++ pre), post. by rewrite <- !(assoc_L (++)). }
    exists pre, (post ++ [Module l t d e children]).
    rewrite Heq. by rewrite <- !(assoc_L (++)).
  - apply list_elem_of_singleton in Hin as ->.
    exists [], []. by rewrite app_nil_r.
Qed.

Lemma stack_cost_cons (node : module task) (it : list (module task))
    (below : list (module task * list (module task))) :
  stack_cost ((node, it) :: below)
  = 2 * list_sum (map size it) + 1 + stack_cost below.
Proof. done. Qed.

Lemma walk_out_of_fuel (fuel : nat) :
  ∀ (stack : list (module task * list (module task))) c,
    fuel < stack_cost stack → walk fuel stack c = None.
Proof.
  induction fuel as [|fuel IH]; intros [|[node it] below] c Hfuel;
    try (by cbn in Hfuel; lia); [done|].
  rewrite stack_cost_cons in Hfuel.
  cbn [walk]. destruct it as [|top it]; apply IH.
  - cbn in Hfuel. lia.
  - rewrite !stack_cost_cons. cbn [map] in Hfuel.
    change (list_sum (?a :: ?l)) with (a + list_sum l) in Hfuel.
    rewrite (size_submodules top) in Hfuel. lia.
Qed.

Lemma collect_enough_fuel (fuel : nat) (self : module task) :
  2 * size self - 1 ≤ fuel →
  collect fuel true self = Some (collection (postorder self)).
Proof.
  intros Hfuel. unfold collect. rewrite (size_submodules self) in Hfuel.
  replace fuel with (2 * list_sum (map size (submodules self)) + 1
                     + (fuel - (2 * list_sum (map size (submodules self)) + 1)))
    by lia.
  rewrite (walk_frame _ _ _ _ _ _ (Nat.le_refl _)).
  change (visit self ?c) with (visit_all [self] c).
  rewrite <- visit_all_app, <- postorder_submodules, visit_all_spec.
  by destruct (fuel - _).
Qed.

Lemma launch_server c :
  launch "server" c
  = match deploy_tasks c with
    | [] => []
    | _ :: _ => [Start (DPES (deploy_tasks c))]
    end.
Proof.
  unfold launch. rewrite bool_decide_eq_false_2 by done. cbn [andb app].
  destruct (deploy_tasks c); [done|]. by rewrite app_nil_r.
Qed.

End Walk.

Lemma last_assigned_cons (name n : string) (v : value)
    (rest : list (string * value)) :
  last_assigned name ((n, v) :: rest)
  = match last_assigned name rest with
    | Some v' => Some v'
    | None => if decide (n = name) then Some v else None
    end.
Proof.
  unfold last_assigned. rewrite filter_cons. cbn [fst].
  destruct (decide (n = name)) as [->|Hne].
  - destruct (filter (λ a, a.1 = name) rest) as [|a l] eqn:E; [done|].
    rewrite last_cons. by destruct (last (a :: l)) eqn:El.
  - by destruct (last (filter (λ a, a.1 = name) rest)).
Qed.

End UpdateMore.

Import ModuleBaseSpec UpdateMore.

(** X7.  With [recursive=False], [update] asks the node itself for its
    descriptors and no other node, however many submodules it has. *)
Theorem update_flat_visits_root_only
    {task : Type} (self : module task) (mode : string) (fuel : nat) :
  mode = "train" ∨ mode = "server" →
  0 < fuel →
  update fuel mode false self
  = Some (Return (collection [self], launch mode (collection [self]))).
Proof.
  intros Hmode Hfuel. unfold update. rewrite (collect_flat fuel self Hfuel).
  by destruct Hmode as [-> | ->].
Qed.

Lemma update_flat_visits_root_only_witness :
  (λ c, label <$> visited c) <$> collected_by (update 1 "train" false two_children)
  = Some ["root"].
Proof.
  rewrite (update_flat_visits_root_only two_children "train" 1);
    [reflexivity|by left|lia].
Defined.

(** X8.  In the order [update] visits a tree, every node comes right
    after the complete walk of its own submodules: all its descendants
    are visited before it, and no node of another branch in between. *)
Theorem update_visits_descendants_first
    {task : Type} (self : module task) (mode : string) (fuel : nat)
    (c : collected task) :
  2 * size self ≤ fuel →
  collected_by (update fuel mode true self) = Some c →
  ∀ m, m ∈ visited c →
       ∃ pre post,
         visited c = pre ++ (flat_map postorder (submodules m) ++ [m]) ++ post.
Proof.
  intros Hfuel. unfold update, collected_by.
  rewrite (collect_recursive fuel self Hfuel).
  destruct (_ || _); cbn; [|done]. intros [= <-] m Hm. cbn in Hm |- *.
  destruct (postorder_infix self m Hm) as (pre & post & ->).
  exists pre, post. by rewrite (postorder_submodules m).
Qed.

Lemma update_visits_descendants_first_witness :
  ∃ pre post,
    postorder two_children
    = pre ++ (flat_map postorder (submodules two_children) ++ [two_children]) ++ post.
Proof.
  apply (update_visits_descendants_first two_children "train" 6
           (collection (postorder two_children))).
  - vm_compute. lia.
  - reflexivity.
  - apply list_elem_of_In. cbn. auto.
Defined.

(** X9.  The walk of a tree of n nodes takes exactly 2n - 1 turns of the
    [while] loop of [update]: with that much fuel it ends, with less it
    does not. *)
Theorem update_walk_turns
    {task : Type} (self : module task) (fuel : nat) :
  (2 * size self - 1 ≤ fuel →
   collect fuel true self = Some (collection (postorder self))) ∧
  (fuel < 2 * size self - 1 → collect fuel true self = None).
Proof.
  split; [apply collect_enough_fuel|].
  intros Hfuel. apply walk_out_of_fuel.
  rewrite stack_cost_cons. rewrite (size_submodules self) in Hfuel.
  unfold stack_cost. cbn. lia.
Qed.

Lemma update_walk_turns_witness :
  collect 5 true two_children = Some (collection (postorder two_children)) ∧
  collect 4 true two_children = None.
Proof.
  split.
  - apply (update_walk_turns two_children 5). vm_compute. lia.
  - apply (update_walk_turns two_children 4). vm_compute. lia.
Defined.

(** X10.  [start] and [update_server] never train and never evaluate:
    whatever descriptors the nodes have, they launch the deploy
    descriptors, collected in post-order, as one [DPES] batch, and
    nothing at all when no node has a deploy descriptor. *)
Theorem start_deploys_only
    {task : Type} (self : module task) (fuel : nat) :
  2 * size self ≤ fuel →
  let c := collection (postorder self) in
  start fuel self = update_server fuel true self ∧
  start fuel self
  = Some (Return (c, match deploy_tasks c with
                     | [] => []
                     | _ :: _ => [Start (DPES (deploy_tasks c))]
                     end)) ∧
  deploy_tasks c = omap _get_deploy_tasks (postorder self).
Proof.
  intros Hfuel. cbn zeta. split; [done|]. split; [|done].
  unfold start, update. rewrite (collect_recursive fuel self Hfuel).
  cbn. by rewrite launch_server.
Qed.

Lemma start_deploys_only_witness :
  start 6 two_children
  = Some (Return (collection (postorder two_children),
                  [Start (DPES ["deploy child1"])])).
Proof.
  destruct (start_deploys_only two_children 6) as (_ & Hstart & _).
  - vm_compute. lia.
  - exact Hstart.
Defined.



(** X12.  A series of assignments to attributes other than [submodules]
    registers the assigned modules in assignment order, repeats included,
    and never unregisters one: [submodules] grows by exactly the modules
    assigned, every assigned attribute holds the value assigned last, and
    every other attribute is as before. *)
Theorem assignments_register_in_order
    (self : gmap string value) (items : list value)
    (assignments : list (string * value)) :
  self !! "submodules" = Some (VList items) →
  Forall (λ a, a.1 ≠ "submodules") assignments →
  ∃ self',
    setattrs self assignments = Return self' ∧
    self' !! "submodules"
    = Some (VList (items ++ filter (λ v, isinstance_ModuleBase v = true)
                               assignments.*2)) ∧
    ∀ name, name ≠ "submodules" →
            self' !! name
            = match last_assigned name assignments with
              | Some v => Some v
              | None => self !! name
              end.
Proof.
  revert self items.
  induction assignments as [|[n v] rest IH]; intros self items Hsub Hnames.
  { exists self. rewrite app_nil_r. by repeat split. }
  apply Forall_cons in Hnames as [Hn Hnames]. cbn [fst] in Hn.
  cbn [setattrs]. unfold __setattr__. rewrite Hsub.
  destruct (isinstance_ModuleBase v) eqn:Ev; cbn [bind].
  - destruct (IH (<[n := v]> (<["submodules" := VList (items ++ [v])]> self))
                (items ++ [v])) as (self' & Hrun & Hsub' & Hattrs);
      [by rewrite lookup_insert_ne, lookup_insert_eq|done|].
    exists self'. split; [done|]. split.
    + rewrite Hsub'. cbn [fmap list_fmap snd]. rewrite filter_cons_True by done.
      by rewrite <- (assoc_L (++)).
    + intros name Hname. rewrite (Hattrs name Hname), last_assigned_cons.
      destruct (last_assigned name rest); [done|].
      destruct (decide (n = name)) as [->|Hne].
      * by rewrite lookup_insert_eq.
      * by rewrite !lookup_insert_ne.
  - destruct (IH (<[n := v]> self) items) as (self' & Hrun & Hsub' & Hattrs);
      [by rewrite lookup_insert_ne|done|].
    exists self'. split; [done|]. split.
    + rewrite Hsub'. cbn [fmap list_fmap snd].
      by rewrite filter_cons_False by by rewrite Ev.
    + intros name Hname. rewrite (Hattrs name Hname), last_assigned_cons.
      destruct (last_assigned name rest); [done|].
      destruct (decide (n = name)) as [->|Hne].
      * by rewrite lookup_insert_eq.
      * by rewrite lookup_insert_ne.
Qed.

Lemma assignments_register_in_order_witness :
  ∃ self',
    setattrs fresh_instance
      [("m1", VModule 1); ("title", VStr "demo"); ("m2", VModule 2);
       ("m1", VModule 2)] = Return self' ∧
    self' !! "submodules" = Some (VList [VModule 1; VModule 2; VModule 2]) ∧
    self' !! "m1" = Some (VModule 2).
Proof.
  destruct (assignments_register_in_order fresh_instance []
              [("m1", VModule 1); ("title", VStr "demo"); ("m2", VModule 2);
               ("m1", VModule 2)]) as (self' & Hrun & Hsub & Hattrs).
  - by vm_compute.
  - repeat constructor; discriminate.
  - exists self'. split; [done|]. split; [done|].
    rewrite (Hattrs "m1"); [reflexivity|discriminate].
Defined.

(** ** Texts *)

Module PyStrFacts.
Import PyStr.

Lemma chars_app (a b : string) : chars (a +:+ b) = chars a ++ chars b.
Proof.
  induction a as [|c a IH]; [done|].
  change (c :: chars (a +:+ b) = c :: chars a ++ chars b). by rewrite IH.
Qed.

Lemma text_app (a b : list Ascii.ascii) : text (a ++ b) = text a +:+ text b.
Proof.
  induction a as [|c a IH]; [done|].
  change (String c (text (a ++ b)) = String c (text a +:+ text b)). by rewrite IH.
Qed.

Lemma text_chars (s : string) : text (chars s) = s.
Proof. apply String.string_of_list_ascii_of_string. Qed.

Lemma chars_text (l : list Ascii.ascii) : chars (text l) = l.
Proof. apply String.list_ascii_of_string_of_list_ascii. Qed.

Lemma chars_inj (a b : string) : chars a = chars b → a = b.
Proof. intros H. by rewrite <- (text_chars a), <- (text_chars b), H. Qed.

Lemma starts_with_spec (old s : list Ascii.ascii) :
  starts_with old s = true ↔ ∃ b, s = old ++ b.
Proof.
  revert s. induction old as [|a old IH]; intros s.
  { cbn. split; [by exists s|done]. }
  destruct s as [|c s]; cbn.
  { split; [done|]. by intros [b ?]. }
  rewrite andb_true_iff, bool_decide_eq_true, IH. split.
  - intros [-> [b ->]]. by exists b.
  - intros [b [= -> ->]]. split; [done|]. by exists b.
Qed.

Lemma starts_with_app (old b : list Ascii.ascii) : starts_with old (old ++ b) = true.
Proof. apply starts_with_spec. by exists b. Qed.

Lemma replace_first_unfold (old new s : list Ascii.ascii) :
  replace_first old new s
  = if starts_with old s then new ++ drop (length old) s
    else match s with
         | [] => []
         | c :: s => c :: replace_first old new s
         end.
Proof. by destruct s. Qed.

(** The leftmost occurrence is the one replaced. *)
Lemma replace_first_at (old new a b : list Ascii.ascii) :
  (∀ a1 a2, a = a1 ++ a2 → a2 ≠ [] → starts_with old (a2 ++ old ++ b) = false) →
  replace_first old new (a ++ old ++ b) = a ++ new ++ b.
Proof.
  induction a as [|c a IH]; intros Hfirst.
  - rewrite replace_first_unfold. cbn [app].
    by rewrite starts_with_app, drop_app_length.
  - rewrite replace_first_unfold.
    rewrite (Hfirst [] (c :: a)) by done. cbn [app]. f_equal. apply IH.
    intros a1 a2 -> Ha2. by apply (Hfirst (c :: a1) a2).
Qed.

Lemma replace_first_absent (old new s : list Ascii.ascii) :
  (∀ a b, s ≠ a ++ old ++ b) → replace_first old new s = s.
Proof.
  induction s as [|c s IH]; intros Habsent.
  - cbn. destruct (starts_with old []) eqn:E; [|done].
    apply starts_with_spec in E as [b Hb]. by destruct (Habsent [] b).
  - cbn [replace_first]. destruct (starts_with old (c :: s)) eqn:E.
    + apply starts_with_spec in E as [b Hb]. by destruct (Habsent [] b).
    + f_equal. apply IH. intros a b ->. by apply (Habsent (c :: a) b).
Qed.

Lemma reversed_chars (s : string) : chars (reversed s) = rev (chars s).
Proof. unfold reversed. apply chars_text. Qed.

(** Reversing, replacing the leftmost occurrence of the reversed [old]
    and reversing again replaces the rightmost occurrence of [old]. *)
Lemma replace_last (old new pre post : string) :
  (∀ p1 p2, post = p1 +:+ p2 → p1 ≠ "" →
            ¬ ∃ a, pre +:+ old +:+ p1 = a +:+ old) →
  reversed (replace1 (reversed old) (reversed new) (reversed (pre +:+ old +:+ post)))
  = pre +:+ new +:+ post.
Proof.
  intros Hlast. unfold replace1. rewrite !reversed_chars, !chars_app.
  rewrite !rev_app_distr, <- (assoc_L (++)).
  rewrite replace_first_at.
  - unfold reversed. rewrite chars_text, !rev_app_distr, !rev_involutive.
    rewrite <- (assoc_L (++)), !text_app, !text_chars. done.
  - intros a1 a2 Hpost Ha2.
    destruct (starts_with (rev (chars old)) (a2 ++ rev (chars old) ++ rev (chars pre)))
      eqn:E; [|done].
    apply starts_with_spec in E as [x Hx]. exfalso.
    apply (Hlast (text (rev a2)) (text (rev a1))).
    + apply chars_inj. rewrite chars_app, !chars_text, <- rev_app_distr, <- Hpost.
      by rewrite rev_involutive.
    + intros Hempty. apply (f_equal chars) in Hempty. rewrite chars_text in Hempty.
      cbn in Hempty. apply (f_equal (@rev _)) in Hempty.
      rewrite rev_involutive in Hempty. done.
    + exists (text (rev x)). apply chars_inj.
      rewrite !chars_app, !chars_text.
      apply (f_equal (@rev _)) in Hx.
      rewrite !rev_app_distr, !rev_involutive, <- (assoc_L (++)) in Hx. done.
Qed.

Lemma replace_last_absent (old new s : string) :
  ¬ occurs old s →
  reversed (replace1 (reversed old) (reversed new) (reversed s)) = s.
Proof.
  intros Habsent. unfold replace1. rewrite !reversed_chars.
  rewrite replace_first_absent.
  - unfold reversed. by rewrite chars_text, rev_involutive, text_chars.
  - intros a b Hs. apply Habsent. exists (text (rev b)), (text (rev a)).
    apply chars_inj. rewrite !chars_app, !chars_text.
    apply (f_equal (@rev _)) in Hs.
    rewrite !rev_app_distr, !rev_involutive, <- (assoc_L (++)) in Hs. done.
Qed.

(** The last piece of a split is an end of the text, and the whole text
    when the separator does not occur. *)
Lemma last_piece_suffix (sep : list Ascii.ascii) :
  ∀ s skip piece whole,
    s `suffix_of` whole → piece `suffix_of` whole →
    last_piece sep s skip piece `suffix_of` whole.
Proof.
  induction s as [|c s IH]; intros skip piece whole Hs Hpiece; [done|].
  assert (Hs' : s `suffix_of` whole).
  { etrans; [|exact Hs]. by apply suffix_cons_r. }
  cbn [last_piece]. destruct skip as [|skip]; [|by apply IH].
  destruct (starts_with sep (c :: s)); apply IH; try done.
  etrans; [apply suffix_drop|exact Hs].
Qed.

Lemma last_piece_absent (sep : list Ascii.ascii) :
  ∀ s piece,
    (∀ a b, s ≠ a ++ sep ++ b) → last_piece sep s 0 piece = piece.
Proof.
  induction s as [|c s IH]; intros piece Habsent; [done|].
  cbn [last_piece]. destruct (starts_with sep (c :: s)) eqn:E.
  - apply starts_with_spec in E as [b Hb]. by destruct (Habsent [] b).
  - apply IH. intros a b ->. by apply (Habsent (c :: a) b).
Qed.

Lemma split_last_spec (sep s piece : string) :
  split_last sep s = inr piece →
  (∃ a, s = a +:+ piece) ∧ (¬ occurs sep s → piece = s).
Proof.
  unfold split_last. destruct (chars sep) as [|c l] eqn:Esep; [done|].
  intros [= <-]. split.
  - destruct (last_piece_suffix (c :: l) (chars s) 0 (chars s) (chars s))
      as [a Ha]; [done..|].
    exists (text a). apply chars_inj. by rewrite chars_app, !chars_text.
  - intros Habsent. rewrite last_piece_absent; [apply text_chars|].
    intros a b Hs. apply Habsent. exists (text a), (text b).
    apply chars_inj. by rewrite !chars_app, !chars_text, Esep.
Qed.

(** After the scan, [piece] is what follows the occurrence found last:
    the scan finds none, or the text is something, the separator and the
    piece. *)
Lemma last_piece_found (sep : list Ascii.ascii) :
  ∀ s skip piece whole,
    s `suffix_of` whole →
    last_piece sep s skip piece = piece ∨
    ∃ a, whole = a ++ sep ++ last_piece sep s skip piece.
Proof.
  induction s as [|c s IH]; intros skip piece whole Hs; [by left|].
  assert (Hs' : s `suffix_of` whole).
  { etrans; [|exact Hs]. by apply suffix_cons_r. }
  cbn [last_piece]. destruct skip as [|skip].
  - destruct (starts_with sep (c :: s)) eqn:E; [|by apply IH].
    right. apply starts_with_spec in E as [b Hb].
    rewrite Hb, drop_app_length.
    destruct (IH (length sep - 1) b whole Hs') as [-> | H]; [|done].
    destruct Hs as [pre Hpre]. exists pre. by rewrite Hpre, Hb.
  - by apply IH.
Qed.

(** No occurrence of the separator is left in the piece. *)
Lemma last_piece_clean (sep : list Ascii.ascii) :
  sep ≠ [] →
  ∀ s skip piece p,
    piece = p ++ drop skip s →
    (∀ a b, piece = a ++ sep ++ b → length p ≤ length a) →
    ∀ a b, last_piece sep s skip piece ≠ a ++ sep ++ b.
Proof.
  intros Hsep. induction s as [|c s IH]; intros skip piece p Hpiece Hp a b.
  - cbn [last_piece]. intros Hocc. specialize (Hp a b Hocc).
    rewrite drop_nil, app_nil_r in Hpiece. subst p.
    rewrite Hocc, !length_app in Hp. destruct sep; [done|]. cbn in Hp. lia.
  - cbn [last_piece]. destruct skip as [|skip].
    + destruct (starts_with sep (c :: s)) eqn:E.
      * apply (IH _ _ []); [|intros; cbn; lia].
        destruct sep as [|x sep]; [done|]. cbn. by rewrite Nat.sub_0_r.
      * apply (IH _ _ (p ++ [c])).
        { by rewrite Hpiece, <- (assoc_L (++)). }
        intros a' b' Hocc. specialize (Hp a' b' Hocc).
        rewrite length_app. cbn.
        destruct (decide (length a' = length p)) as [Hlen|]; [|lia].
        exfalso. rewrite Hpiece in Hocc. cbn in Hocc.
        apply app_inj_1 in Hocc as [_ Hocc]; [|done].
        assert (starts_with sep (c :: s) = true) as Htrue
          by (apply starts_with_spec; by exists b').
        congruence.
    + by apply (IH _ _ p).
Qed.

Lemma occurs_chars (old s : string) :
  occurs old s ↔ ∃ a b, chars s = a ++ chars old ++ b.
Proof.
  split.
  - intros (a & b & ->). exists (chars a), (chars b). by rewrite !chars_app.
  - intros (a & b & H). exists (text a), (text b). apply chars_inj.
    by rewrite !chars_app, !chars_text.
Qed.

(** [s.split(sep)[-1]] is the end of [s] that follows the separator found
    last, it holds no separator, and it is [s] when [s] holds none. *)
Lemma split_last_after (sep s piece : string) :
  split_last sep s = inr piece →
  ¬ occurs sep piece ∧ (occurs sep s → ∃ a, s = a +:+ sep +:+ piece).
Proof.
  unfold split_last. destruct (chars sep) as [|c l] eqn:Esep; [done|].
  intros [= <-].
  assert (Hclean : ¬ occurs sep (text (last_piece (c :: l) (chars s) 0 (chars s)))).
  { rewrite occurs_chars, chars_text, Esep. intros (a & b & H). revert H.
    apply (last_piece_clean (c :: l) ltac:(done) _ _ _ []); [done|].
    intros; cbn; lia. }
  split; [done|]. intros Hocc.
  destruct (last_piece_found (c :: l) (chars s) 0 (chars s) (chars s)) as [Hsame|[a Ha]];
    [done| |].
  - rewrite Hsame, text_chars in Hclean. done.
  - exists (text a). apply chars_inj. by rewrite !chars_app, !chars_text, Esep.
Qed.

(** [/generate] does not overlap with itself: an occurrence that ends
    after another one lies wholly after it. *)
Lemma generate_no_border (pre p1 a : list Ascii.ascii) :
  p1 ≠ [] →
  pre ++ chars "/generate" ++ p1 = a ++ chars "/generate" →
  ∃ x, p1 = x ++ chars "/generate".
Proof.
  intros Hp1 Heq.
  destruct (suffix_weak_total (chars "/generate") p1 (a ++ chars "/generate"))
    as [[x Hx]|[k Hk]].
  - by apply suffix_app_r.
  - rewrite <- Heq. by do 2 apply suffix_app_r.
  - by exists x.
  - assert (Heq' : pre ++ chars "/generate" = a ++ k).
    { apply (app_inv_tail p1). rewrite <- !(assoc_L (++)), Heq. by rewrite <- Hk. }
    destruct (suffix_weak_total k (chars "/generate") (a ++ k)) as [[j Hj]|[j Hj]].
    + by apply suffix_app_r.
    + rewrite <- Heq'. by apply suffix_app_r.
    + destruct k as [|c k]; [by exists []|].
      destruct j as [|c' j].
      { apply (f_equal length) in Hk. rewrite Hj, !length_app in Hk.
        destruct p1; [done|]. cbn in Hk. lia. }
      exfalso. cbn in Hk, Hj. injection Hk as Hc Hk. injection Hj as _ Hj.
      assert (Hin : In c (j ++ c :: k)) by (apply in_app_iff; right; by left).
      rewrite <- Hj, <- Hc in Hin. cbn in Hin. intuition discriminate.
    + apply (f_equal length) in Hk. rewrite Hj, !length_app in Hk.
      destruct p1; [done|]. cbn in Hk. lia.
Qed.

Lemma generate_last (pre post : string) :
  ¬ occurs "/generate" post →
  ∀ p1 p2, post = p1 +:+ p2 → p1 ≠ "" →
           ¬ ∃ a, pre +:+ "/generate" +:+ p1 = a +:+ "/generate".
Proof.
  intros Hpost p1 p2 -> Hp1 [a Ha]. apply Hpost.
  apply (f_equal chars) in Ha. rewrite !chars_app in Ha.
  apply generate_no_border in Ha as [x Hx].
  - exists (text x), p2. apply chars_inj.
    by rewrite !chars_app, chars_text, Hx, <- (assoc_L (++)).
  - intros Hnil. apply Hp1. apply chars_inj. by rewrite Hnil.
Qed.

Lemma occurs_length (old s : string) :
  occurs old s → length (chars old) ≤ length (chars s).
Proof.
  intros (a & b & H)%occurs_chars. rewrite H, !length_app. lia.
Qed.

End PyStrFacts.

(** ** UrlModule *)

Module UrlFacts.
Import PyStr PyStrFacts UrlModule UrlModuleSpec.

Section Transport.
Context {W : Type}.
Variable post : string → body → W → reply * W.
Variable format : string → gmap string string → exn + string.

Lemma send_spec (to : string) (b : body) (st : state W) :
  send post to b st
  = ((post to b (world st)).1,
     {| self := self st; world := (post to b (world st)).2;
        sent := sent st ++ [(to, b)] |}).
Proof. unfold send. by destruct (post to b (world st)). Qed.

Lemma prompt_without_prompt_url (p : string) (rs : option string) (upd : bool)
    (st : state W) :
  _prompt_url (self st) = None → prompt post p rs upd st = Return st.
Proof. intros H. unfold prompt. by rewrite H. Qed.

(** A call of [forward] on an instance that formats its prompt itself. *)
Lemma forward_local (i : option string) (kw : gmap string string) (st : state W) :
  _remote_prompt (self st) = false →
  let st' := state_of (forward post format i kw st).1 in
  self st' = self st ∧
  ∃ new, sent st' = sent st ++ new ∧ Forall formatted_input new.*2.
Proof.
  intros Hlocal. unfold forward.
  destruct (_url (self st)) as [to|]; [|by split; [|exists []; rewrite app_nil_r]].
  destruct (xorb _ _); [|by split; [|exists []; rewrite app_nil_r]].
  rewrite Hlocal. destruct (format _ _) as [e|t];
    [by split; [|exists []; rewrite app_nil_r]|].
  rewrite send_spec. cbn -[split_last].
  assert (Hnew : Forall formatted_input [(to, ForwardBody {["input" := t]})].*2).
  { repeat constructor. by exists t. }
  destruct ((post _ _ _).1) as [txt|e]; [|by split; [|eexists]].
  destruct (_response_split (self st)) as [sep|]; [|by split; [|eexists]].
  destruct (split_last sep txt); by split; [|eexists].
Qed.

Lemma step_local (c : call) (st : state W) :
  _remote_prompt (self st) = false → _prompt_url (self st) = None →
  let st' := step post format c st in
  (_remote_prompt (self st') = false ∧ _prompt_url (self st') = None) ∧
  (_prompt (self st') = _prompt (self st) ∧
   _response_split (self st') = _response_split (self st)) ∧
  ∃ new, sent st' = sent st ++ new ∧ Forall formatted_input new.*2.
Proof.
  intros Hlocal Hnone. destruct c as [u|p rs upd|i kw]; cbn [step].
  - cbn. rewrite Hlocal. repeat split; try done. exists []. by rewrite app_nil_r.
  - rewrite prompt_without_prompt_url by done. cbn.
    repeat split; try done. exists []. by rewrite app_nil_r.
  - destruct (forward_local i kw st Hlocal) as [-> Hsent]. by repeat split.
Qed.

Lemma calls_local (cs : list call) :
  ∀ st : state W,
    _remote_prompt (self st) = false → _prompt_url (self st) = None →
    let st' := calls post format cs st in
    (_prompt (self st') = _prompt (self st) ∧
     _response_split (self st') = _response_split (self st)) ∧
    ∃ new, sent st' = sent st ++ new ∧ Forall formatted_input new.*2.
Proof.
  induction cs as [|c cs IH]; intros st Hlocal Hnone.
  { cbn. repeat split. exists []. by rewrite app_nil_r. }
  destruct (step_local c st Hlocal Hnone) as ([Hl Hn] & [Hp Hs] & new & Hnew & Hall).
  destruct (IH _ Hl Hn) as ([Hp' Hs'] & new' & Hnew' & Hall').
  change (calls post format (c :: cs) st)
    with (calls post format cs (step post format c st)).
  cbv zeta in *. split; [split; congruence|].
  exists (new ++ new'). rewrite Hnew', Hnew, (assoc_L (++)). split; [done|].
  rewrite fmap_app. by apply Forall_app.
Qed.

End Transport.
End UrlFacts.

Import PyStr PyStrFacts UrlModule UrlModuleSpec UrlFacts.

(** X13.  On an instance that keeps its prompt on the server, [url] sets
    the prompt URL to the new URL with its last [/generate] replaced by
    [/prompt]; an earlier [/generate] in the URL stays. *)
Theorem prompt_url_at_last_generate (self : instance) (pre post : string) :
  _remote_prompt self = true →
  ¬ occurs "/generate" post →
  _prompt_url (url self (pre +:+ "/generate" +:+ post))
  = Some (pre +:+ "/prompt" +:+ post).
Proof.
  intros Hremote Hpost. cbn [url _prompt_url]. rewrite Hremote. f_equal.
  apply replace_last. by apply generate_last.
Qed.

Lemma prompt_url_at_last_generate_witness :
  _prompt_url (url (__init__ None true) "http://host/generate/v1/generate?n=1")
  = Some "http://host/generate/v1/prompt?n=1".
Proof.
  apply (prompt_url_at_last_generate (__init__ None true)
           "http://host/generate/v1" "?n=1").
  - reflexivity.
  - intros H%occurs_length. vm_compute in H. lia.
Defined.

(** X14.  When the new URL holds no [/generate], [url] on such an instance
    makes the prompt URL the URL itself: a later [prompt] is posted to the
    address that [forward] posts to. *)
Theorem prompt_url_without_generate (self : instance) (u : string) :
  _remote_prompt self = true →
  ¬ occurs "/generate" u →
  _prompt_url (url self u) = _url (url self u).
Proof.
  intros Hremote Hu. cbn [url _prompt_url _url]. rewrite Hremote. f_equal.
  by apply replace_last_absent.
Qed.

Lemma prompt_url_without_generate_witness :
  _prompt_url (url (__init__ None true) "/chat") = Some "/chat".
Proof.
  apply (prompt_url_without_generate (__init__ None true) "/chat").
  - reflexivity.
  - intros H%occurs_length. vm_compute in H. lia.
Defined.

(** X15.  An instance made with [remote_prompt=False] keeps the prompt and
    the separator of [__init__] through every sequence of calls of [url],
    [prompt] and [forward], whether they return or raise: [prompt] never
    assigns them.  Every request it sent carries one text under [input]. *)
Theorem local_prompt_is_fixed
    {W : Type} (post : string → body → W → reply * W)
    (format : string → gmap string string → exn + string)
    (u : option string) (w : W) (cs : list call) :
  let st := calls post format cs (fresh u false w) in
  _prompt (self st) = "{input}" ∧
  _response_split (self st) = None ∧
  Forall formatted_input (sent st).*2.
Proof.
  destruct (calls_local post format cs (fresh u false w))
    as ([Hp Hs] & new & Hnew & Hall); [done..|].
  cbv zeta. rewrite Hp, Hs, Hnew. done.
Qed.

(** X16.  [forward] never changes the instance and sends at most one
    request.  Either nothing is sent, the world is left alone and the call
    raises; or the URL is set, exactly one of the positional input and the
    keywords was given, one request went to the URL, and the call returns a
    value unless it raised after the request. *)
Theorem forward_one_request_or_none
    {W : Type} (post : string → body → W → reply * W)
    (format : string → gmap string string → exn + string)
    (__input : option string) (kw : gmap string string) (st : state W) :
  let r := forward post format __input kw st in
  let st' := state_of r.1 in
  self st' = self st ∧
  ((sent st' = sent st ∧ world st' = world st ∧
    r.2 = None ∧ is_Some (raised r.1)) ∨
   (∃ to b, _url (self st) = Some to ∧
            (__input = None ↔ kw ≠ ∅) ∧
            sent st' = sent st ++ [(to, ForwardBody b)] ∧
            world st' = (post to (ForwardBody b) (world st)).2 ∧
            (is_Some r.2 ↔ raised r.1 = None))).
Proof.
  unfold forward. destruct (_url (self st)) as [to|];
    [|by split; [|left]].
  destruct (xorb _ _) eqn:Hxor; [|by split; [|left]].
  assert (Hcall : __input = None ↔ kw ≠ ∅).
  { rewrite <- (map_size_empty_iff kw).
    destruct __input, (decide (base.size kw = 0)) as [Hsz|Hsz];
      rewrite ?bool_decide_eq_true_2, ?bool_decide_eq_false_2 in Hxor by done;
      try done; by split. }
  set (kw' := match __input with Some x => <["input" := x]> kw | None => kw end).
  destruct (if _remote_prompt (self st) then inr kw' else _) as [e|b] eqn:Hfmt.
  - destruct (_remote_prompt (self st)); [done|].
    destruct (format _ _); [|done]. by split; [|left].
  - clear Hfmt. rewrite send_spec. cbn -[split_last].
    destruct ((post _ _ _).1) as [txt|e].
    + destruct (_remote_prompt (self st));
        [|destruct (_response_split (self st)) as [sep|];
          [destruct (split_last sep txt)|]];
        (split; [done|]); right; exists to, b;
        repeat split;
        first [done | apply Hcall | by intros [? ?] | by intros; eexists].
    + (split; [done|]); right; exists to, b;
        repeat split;
        first [done | apply Hcall | by intros [? ?] | by intros; eexists].
Qed.

(** X17.  A value that [forward] returns is an end of the text of the
    reply to the one request it sent.  It is the whole text when the
    prompt is kept on the server or no separator is set; otherwise it
    holds no separator and, when the text holds one, it is what follows
    a separator in the text. *)
Theorem forward_result_is_end_of_reply
    {W : Type} (post : string → body → W → reply * W)
    (format : string → gmap string string → exn + string)
    (__input : option string) (kw : gmap string string) (st : state W)
    (o : outcome (state W)) (v : string) :
  forward post format __input kw st = (o, Some v) →
  ∃ to b t,
    _url (self st) = Some to ∧
    last (sent (state_of o)) = Some (to, ForwardBody b) ∧
    (post to (ForwardBody b) (world st)).1 = Text t ∧
    (∃ a, t = a +:+ v) ∧
    (_remote_prompt (self st) = true ∨ _response_split (self st) = None → v = t) ∧
    (∀ sep, _remote_prompt (self st) = false →
            _response_split (self st) = Some sep →
            ¬ occurs sep v ∧ (occurs sep t → ∃ a, t = a +:+ sep +:+ v)).
Proof.
  unfold forward. destruct (_url (self st)) as [to|]; [|done].
  destruct (xorb _ _); [|done].
  destruct (if _remote_prompt (self st) then _ else _) as [e|b]; [done|].
  rewrite send_spec. cbn -[split_last].
  destruct ((post to (ForwardBody b) (world st)).1) as [t|e] eqn:Hreply; [|done].
  assert (Hwhole : ∃ a, t = a +:+ t) by by exists "".
  destruct (_remote_prompt (self st)) eqn:Hremote.
  { intros [= <- <-]. exists to, b, t. cbn. rewrite last_snoc.
    repeat split; try done. }
  destruct (_response_split (self st)) as [sep|] eqn:Hsplit.
  - destruct (split_last sep t) as [e|piece] eqn:Hpiece; [done|].
    intros [= <- <-]. exists to, b, t. cbn. rewrite last_snoc.
    do 3 (split; [done|]). split; [by apply (split_last_spec sep)|].
    split; [by intros [?|?]|]. intros sep' _ [= <-].
    by apply (split_last_after _ t).
  - intros [= <- <-]. exists to, b, t. cbn. rewrite last_snoc.
    repeat split; try done.
Qed.

Lemma forward_result_is_end_of_reply_witness :
  (forward server format_input (Some "is it late?") ∅ splitting).2 = Some "yes" ∧
  ¬ occurs "A: " "yes".
Proof.
  split; [by vm_compute|].
  destruct (forward_result_is_end_of_reply server format_input
              (Some "is it late?") ∅ splitting
              (forward server format_input (Some "is it late?") ∅ splitting).1
              "yes")
    as (to & b & t & _ & _ & _ & _ & _ & Hsplit).
  - by vm_compute.
  - apply (Hsplit "A: "); reflexivity.
Defined.

(** X18.  The instance that stands in for a [ServerModule] or a
    [TrainableModule] when it is pickled has the URL and the flag of the
    original and nothing else of it: its prompt and separator are those
    of [__init__] and it has no prompt URL, so that no call of [prompt]
    on it sends or changes anything.  Making it sends no request. *)
Theorem pickled_stand_in_keeps_url_only
    {W : Type} (post : string → body → W → reply * W) (st st' : state W) :
  __reduce__ post st = Return st' →
  is_Some (_url (self st)) ∧
  self st' = __init__ (_url (self st)) (_remote_prompt (self st)) ∧
  world st' = world st ∧ sent st' = sent st ∧
  ∀ p rs update_remote, prompt post p rs update_remote st' = Return st'.
Proof.
  unfold __reduce__. destruct (_url (self st)) as [u|]; [|done].
  rewrite prompt_without_prompt_url by done. intros [= <-].
  by repeat split.
Qed.

Lemma pickled_stand_in_keeps_url_only_witness :
  let st := state_of (prompt server "Q: {input} A: " (Some "A: ") true deployed) in
  _prompt (self st) = "Q: {input} A: " ∧
  _prompt (self (state_of (__reduce__ server st))) = "{input}".
Proof.
  split; [by vm_compute|].
  destruct (pickled_stand_in_keeps_url_only server
              (state_of (prompt server "Q: {input} A: " (Some "A: ") true deployed))
              (state_of (__reduce__ server
                 (state_of (prompt server "Q: {input} A: " (Some "A: ") true deployed)))))
    as (_ & Hself & _).
  - by vm_compute.
  - by rewrite Hself.
Defined.

(** X19.  When the prompt is kept on the server, [forward] on the pickled
    stand-in does what [forward] on the original does: the same request,
    the same value or exception, the same world afterwards. *)
Theorem pickled_stand_in_forwards_alike
    {W : Type} (post : string → body → W → reply * W)
    (format : string → gmap string string → exn + string)
    (st st' : state W) (__input : option string) (kw : gmap string string) :
  _remote_prompt (self st) = true →
  __reduce__ post st = Return st' →
  let r := forward post format __input kw st in
  let r' := forward post format __input kw st' in
  r'.2 = r.2 ∧ raised r'.1 = raised r.1 ∧
  world (state_of r'.1) = world (state_of r.1) ∧
  sent (state_of r'.1) = sent (state_of r.1).
Proof.
  intros Hremote. unfold __reduce__.
  destruct (_url (self st)) as [u|] eqn:Hurl; [|done].
  rewrite prompt_without_prompt_url by done. intros [= <-].
  unfold forward. cbn [self _url _remote_prompt __init__ world sent].
  rewrite Hurl, Hremote. destruct (xorb _ _); [|done].
  rewrite !send_spec. cbn.
  by destruct ((post _ _ _).1).
Qed.

Lemma pickled_stand_in_forwards_alike_witness :
  let st := state_of (prompt server "Q: {input} A: " (Some "A: ") true deployed) in
  (forward server format_input (Some "is it late?") ∅
     (state_of (__reduce__ server st))).2
  = (forward server format_input (Some "is it late?") ∅ st).2.
Proof.
  destruct (pickled_stand_in_forwards_alike server format_input
              (state_of (prompt server "Q: {input} A: " (Some "A: ") true deployed))
              (state_of (__reduce__ server
                 (state_of (prompt server "Q: {input} A: " (Some "A: ") true deployed))))
              (Some "is it late?") ∅)
    as (Hvalue & _).
  - by vm_compute.
  - by vm_compute.
  - exact Hvalue.
Defined.

(** X20.  [prompt] changes the instance only after the server confirmed:
    either the call sends nothing and leaves everything as it is, or it
    posts the new prompt and separator to the prompt URL of an instance
    that keeps its prompt on the server, and then the instance takes them
    over when the reply is the confirmation, and stays as it was and the
    call raises when it is not. *)
Theorem prompt_set_only_when_confirmed
    {W : Type} (post : string → body → W → reply * W)
    (p : string) (rs : option string) (update_remote : bool) (st : state W) :
  let o := prompt post p rs update_remote st in
  o = Return st ∨
  ∃ to, truthy_str (_prompt_url (self st)) = Some to ∧
        _remote_prompt (self st) = true ∧ update_remote = true ∧
        sent (state_of o) = sent st ++ [(to, PromptBody p rs)] ∧
        world (state_of o) = (post to (PromptBody p rs) (world st)).2 ∧
        ((post to (PromptBody p rs) (world st)).1 = Text "set prompt done!" ∧
         raised o = None ∧
         _prompt (self (state_of o)) = p ∧
         _response_split (self (state_of o)) = rs ∧
         _url (self (state_of o)) = _url (self st) ∧
         _prompt_url (self (state_of o)) = _prompt_url (self st)
         ∨
         (post to (PromptBody p rs) (world st)).1 ≠ Text "set prompt done!" ∧
         is_Some (raised o) ∧ self (state_of o) = self st).
Proof.
  unfold prompt. destruct (truthy_str _) as [to|]; [|by left].
  destruct (_remote_prompt (self st)); [|by left].
  destruct update_remote; [|by left].
  destruct (_ || _); [|by left].
  right. exists to. rewrite send_spec. cbn.
  destruct ((post _ _ _).1) as [r|e].
  - destruct (decide (r = "set prompt done!")) as [->|Hr].
    + rewrite !bool_decide_eq_true_2 by done. repeat split; try done. by left.
    + rewrite !bool_decide_eq_false_2 by congruence. repeat split; try done.
      right. repeat split; [congruence|by eexists].
  - repeat split; try done. right. repeat split; [done|by eexists].
Qed.

(** X21.  A call of [prompt] that returned has nothing left to do: the
    same call again returns at once, sending nothing. *)
Theorem prompt_idempotent
    {W : Type} (post : string → body → W → reply * W)
    (p : string) (rs : option string) (update_remote : bool) (st st' : state W) :
  prompt post p rs update_remote st = Return st' →
  prompt post p rs update_remote st' = Return st'.
Proof.
  unfold prompt.
  destruct (truthy_str (_prompt_url (self st))) as [to|] eqn:Hto;
    [|intros [= <-]; by rewrite Hto].
  destruct (_remote_prompt (self st) && update_remote && _) eqn:Hcond;
    [|intros [= <-]; by rewrite Hto, Hcond].
  rewrite send_spec. cbn.
  destruct ((post _ _ _).1) as [r|e]; [|done].
  destruct (bool_decide (r = "set prompt done!")); [|done].
  intros [= <-]. cbn. rewrite Hto.
  rewrite !bool_decide_eq_true_2 by done. cbn.
  by rewrite andb_false_r.
Qed.

Lemma prompt_idempotent_witness :
  let st' := state_of (prompt server "Q: {input} A: " (Some "A: ") true deployed) in
  sent st' = [("http://host:8000/prompt", PromptBody "Q: {input} A: " (Some "A: "))] ∧
  prompt server "Q: {input} A: " (Some "A: ") true st' = Return st'.
Proof.
  split; [by vm_compute|].
  apply (prompt_idempotent server "Q: {input} A: " (Some "A: ") true deployed).
  by vm_compute.
Defined.

(** ** [update] with hooks that raise *)

Module HookFacts.
Import ModuleBase UpdateFacts UpdateHooks.

Section Walk.
Context {task : Type}.
Implicit Types (m : module (exn + task)) (c : collected task).

Lemma visit_first_exception m c :
  UpdateHooks.visit m c
  = match first_exception m with
    | Some e => inl e
    | None => inr (ModuleBase.visit (returning m) c)
    end.
Proof. by destruct m as [l [[e|t]|] [[e'|d]|] [[e''|ev]|] children]. Qed.

Lemma visit_each_app (ms1 ms2 : list (module (exn + task))) c :
  visit_each (ms1 ++ ms2) c
  = match visit_each ms1 c with
    | inl e => inl e
    | inr c => visit_each ms2 c
    end.
Proof.
  revert c. induction ms1 as [|m ms1 IH]; intros c; [done|].
  cbn [app visit_each]. by destruct (UpdateHooks.visit m c).
Qed.

(** A frame on the stack is worked off in post-order, up to the first
    exception. *)
Lemma walk_frame_hooks (n : nat) :
  ∀ (it : list (module (exn + task))) (node : module (exn + task))
    (below : list (module (exn + task) * list (module (exn + task))))
    c (fuel : nat),
    list_sum (map size it) ≤ n →
    UpdateHooks.walk (2 * list_sum (map size it) + 1 + fuel) ((node, it) :: below) c
    = match visit_each (flat_map postorder it ++ [node]) c with
      | inl e => Some (inl e)
      | inr c => UpdateHooks.walk fuel below c
      end.
Proof.
  assert (Hleaf : ∀ node below c fuel,
    UpdateHooks.walk (1 + fuel) ((node, []) :: below) c
    = match visit_each [node] c with
      | inl e => Some (inl e)
      | inr c => UpdateHooks.walk fuel below c
      end).
  { intros. cbn. by destruct (UpdateHooks.visit node c). }
  induction n as [|n IH]; intros it node below c fuel Hn.
  - destruct it as [|top it]; [apply Hleaf|].
    cbn in Hn. pose proof (size_pos top). lia.
  - destruct it as [|top it]; [apply Hleaf|].
    cbn [map list_sum] in *. pose proof (size_pos top) as Hpos.
    rewrite (size_submodules top) in *.
    change (list_sum (S ?a :: ?l)) with (S a + list_sum l) in *.
    replace (2 * (S (list_sum (map size (submodules top)))
                  + list_sum (map size it)) + 1 + fuel)
      with (S (2 * list_sum (map size (submodules top)) + 1
               + (2 * list_sum (map size it) + 1 + fuel))) by lia.
    cbn [UpdateHooks.walk]. rewrite (IH (submodules top)) by lia.
    rewrite <- (postorder_submodules top).
    cbn [flat_map]. rewrite <- (assoc_L (++)), visit_each_app.
    destruct (visit_each (postorder top) c) as [e|c']; [done|].
    by rewrite (IH it) by lia.
Qed.

Lemma visit_each_raises (before after : list (module (exn + task))) m c (e : exn) :
  Forall (λ m, first_exception m = None) before →
  first_exception m = Some e →
  visit_each (before ++ m :: after) c = inl e.
Proof.
  intros Hbefore Hm. revert c.
  induction Hbefore as [|m' before Hm' _ IH]; intros c.
  - cbn. by rewrite visit_first_exception, Hm.
  - cbn [app visit_each]. by rewrite visit_first_exception, Hm'.
Qed.

Lemma visit_each_returns (ms : list (module (exn + task))) c :
  Forall (λ m, first_exception m = None) ms →
  visit_each ms c = inr (visit_all (returning <$> ms) c).
Proof.
  intros Hms. revert c. induction Hms as [|m ms Hm _ IH]; intros c; [done|].
  cbn [visit_each]. by rewrite visit_first_exception, Hm, IH.
Qed.

Lemma postorder_returning m :
  postorder (returning m) = returning <$> postorder m.
Proof.
  revert m. fix IH 1. intros [l t d e children]. cbn.
  rewrite fmap_app. f_equal.
  induction children as [|m ms IHms]; [done|].
  cbn. rewrite fmap_app, IHms, (IH m). done.
Qed.

End Walk.
End HookFacts.

Import HookFacts.

(** X22.  An exception raised by a hook leaves [update]: when the hooks
    of the nodes before [m] in post-order return and one of [m] raises,
    [update] raises that exception and starts no flow, in either mode.
    [start] asks for the train and evaluation tasks too, so that a hook
    for a phase it does not run makes it raise. *)
Theorem update_raises_first_hook_exception
    {task : Type} (self : module (exn + task)) (mode : string) (fuel : nat)
    (before after : list (module (exn + task))) (m : module (exn + task))
    (e : exn) :
  mode = "train" ∨ mode = "server" →
  2 * size self ≤ fuel →
  postorder self = before ++ m :: after →
  Forall (λ m, UpdateHooks.first_exception m = None) before →
  UpdateHooks.first_exception m = Some e →
  UpdateHooks.update fuel mode true self = Some (inl e).
Proof.
  intros Hmode Hfuel Horder Hbefore Hm. unfold UpdateHooks.update.
  replace (bool_decide (mode = "train") || bool_decide (mode = "server"))
    with true by (by destruct Hmode as [-> | ->]).
  rewrite (size_submodules self) in Hfuel.
  replace fuel with (2 * list_sum (map size (submodules self)) + 1
                     + (fuel - (2 * list_sum (map size (submodules self)) + 1)))
    by lia.
  rewrite (walk_frame_hooks _ _ _ _ _ _ (Nat.le_refl _)).
  rewrite <- postorder_submodules, Horder.
  by rewrite (visit_each_raises before after m _ e).
Qed.

Lemma update_raises_first_hook_exception_witness :
  UpdateHooks.start 6 UpdateHooks.no_mode
  = Some (inl (OtherError "RuntimeError: mode must be train or finetune")).
Proof.
  apply (update_raises_first_hook_exception UpdateHooks.no_mode "server" 6
           [UpdateHooks.web] [UpdateHooks.no_mode] UpdateHooks.model_without_mode).
  - by right.
  - vm_compute. lia.
  - reflexivity.
  - by repeat constructor.
  - reflexivity.
Defined.

(** X23.  When every hook returns, [update] collects in post-order and
    launches by the mode, as it does on the tree of the returned tasks:
    a hook that raises is the only way in which the two differ. *)
Theorem update_when_hooks_return
    {task : Type} (self : module (exn + task)) (mode : string) (fuel : nat) :
  mode = "train" ∨ mode = "server" →
  2 * size self ≤ fuel →
  Forall (λ m, UpdateHooks.first_exception m = None) (postorder self) →
  UpdateHooks.update fuel mode true self
  = Some (inr (collection (postorder (UpdateHooks.returning self)),
               launch mode (collection (postorder (UpdateHooks.returning self))))) ∧
  ModuleBase.update fuel mode true (UpdateHooks.returning self)
  = Some (Return (collection (postorder (UpdateHooks.returning self)),
                  launch mode (collection (postorder (UpdateHooks.returning self))))).
Proof.
  intros Hmode Hfuel Hreturn. split.
  - unfold UpdateHooks.update.
    replace (bool_decide (mode = "train") || bool_decide (mode = "server"))
      with true by (by destruct Hmode as [-> | ->]).
    rewrite (size_submodules self) in Hfuel.
    replace fuel with (2 * list_sum (map size (submodules self)) + 1
                       + (fuel - (2 * list_sum (map size (submodules self)) + 1)))
      by lia.
    rewrite (walk_frame_hooks _ _ _ _ _ _ (Nat.le_refl _)).
    rewrite <- postorder_submodules, (visit_each_returns _ _ Hreturn).
    rewrite visit_all_spec, <- postorder_returning.
    by destruct (fuel - _).
  - unfold ModuleBase.update.
    replace (bool_decide (mode = "train") || bool_decide (mode = "server"))
      with true by (by destruct Hmode as [-> | ->]).
    rewrite collect_recursive; [done|].
    by rewrite <- length_postorder, postorder_returning, length_fmap, length_postorder.
Qed.

Lemma update_when_hooks_return_witness :
  UpdateHooks.start 6 UpdateHooks.with_mode
  = Some (inr (collection (postorder (UpdateHooks.returning UpdateHooks.with_mode)),
               [Start (DPES ["deploy web"; "deploy model"; "deploy service"])])).
Proof.
  destruct (update_when_hooks_return UpdateHooks.with_mode "server" 6) as [Hrun _].
  - by right.
  - vm_compute. lia.
  - by repeat constructor.
  - exact Hrun.
Defined.

(** ** TrainableModule *)

Module TrainableFacts.
Import ModuleBase ModuleBaseSpec PyStr PyStrFacts TrainableModule UpdateMore.

Lemma underscore_not_key (k : string) : "_" +:+ k ∉ keys.
Proof. intros H%list_elem_of_In. cbn in H. intuition discriminate. Qed.

Lemma is_key (k : string) : In k keys → k ∈ keys.
Proof. apply list_elem_of_In. Qed.

Lemma submodules_not_key : "submodules" ∉ keys.
Proof. intros H%list_elem_of_In. cbn in H. intuition discriminate. Qed.

Lemma getattr_key (self : gmap string value) (k : string) :
  k ∈ keys → self !! k = None → getattr self k = inr (_setattr k).
Proof.
  intros Hk Hnone. unfold getattr, __getattr__.
  by rewrite Hnone, bool_decide_eq_true_2.
Qed.

Lemma read_option (self : gmap string value) (k : string) :
  k ∈ keys → read self ("_" +:+ k) = inr (default VNone (self !! ("_" +:+ k))).
Proof.
  intros Hk. unfold read, getattr.
  destruct (self !! ("_" +:+ k)) as [v|]; [done|].
  unfold __getattr__.
  rewrite bool_decide_eq_false_2 by apply underscore_not_key.
  change (chars ("_" +:+ k)) with (chars "_" ++ chars k).
  rewrite starts_with_app. cbn [andb].
  change (drop 1 (chars "_" ++ chars k)) with (chars k).
  by rewrite text_chars, bool_decide_eq_true_2.
Qed.

(** What [__init__] leaves. *)
Lemma init_spec (base_model target_path : value) :
  ∃ self items,
    TrainableModule.__init__ base_model target_path = Return self ∧
    self !! "submodules" = Some (VList items) ∧
    (∀ k, k ∈ keys → self !! k = None) ∧
    (∀ k, k ∈ keys → default VNone (self !! ("_" +:+ k)) = initial k).
Proof.
  exists (state_of (TrainableModule.__init__ base_model target_path)).
  destruct base_model, target_path;
    (eexists; split; [reflexivity|]; split; [reflexivity|]; split;
     intros k Hk%list_elem_of_In; cbn in Hk;
     repeat (destruct Hk as [<-|Hk]; [reflexivity|]); destruct Hk).
Qed.

Section Calls.
Variable call : value → list value → exn + value.

(** A series of builder calls on an instance whose dictionary holds no
    option name: every call returns, and each option holds the value of
    the last call for it. *)
Lemma configures_spec (bs : list (string * value)) :
  ∀ (self : gmap string value) (items : list value),
    self !! "submodules" = Some (VList items) →
    (∀ k, k ∈ keys → self !! k = None) →
    Forall (λ b, b.1 ∈ keys) bs →
    ∃ self',
      configures call bs self = Return self' ∧
      ∀ k, k ∈ keys →
           self' !! ("_" +:+ k)
           = match last_assigned k bs with
             | Some v => Some v
             | None => self !! ("_" +:+ k)
             end.
Proof.
  induction bs as [|[key v] bs IH]; intros self items Hsub Hnone Hkeys.
  { by exists self. }
  apply Forall_cons in Hkeys as [Hkey Hkeys]. cbn [fst] in Hkey.
  cbn [configures]. unfold configure. rewrite getattr_key by auto.
  unfold call_setattr, __setattr__. rewrite Hsub.
  assert (Hname : "_" +:+ key ≠ "submodules") by done.
  assert (Hfresh : ∀ k, k ∈ keys → "_" +:+ key ≠ k).
  { intros k Hk <-. by apply (underscore_not_key key). }
  assert (Hsubk : ∀ k, k ∈ keys → "submodules" ≠ k).
  { intros k Hk <-. by apply submodules_not_key. }
  destruct (isinstance_ModuleBase v); cbn [bind].
  - destruct (IH (<["_" +:+ key := v]> (<["submodules" := VList (items ++ [v])]> self))
                (items ++ [v])) as (self' & Hrun & Hopts); [| |done|].
    { by rewrite lookup_insert_ne, lookup_insert_eq. }
    { intros k Hk. rewrite !lookup_insert_ne by auto. auto. }
    exists self'. split; [done|]. intros k Hk.
    rewrite (Hopts k Hk), last_assigned_cons.
    destruct (last_assigned k bs); [done|].
    destruct (decide (key = k)) as [->|Hne].
    + by rewrite lookup_insert_eq.
    + rewrite !lookup_insert_ne; [done|done|]. by intros [= ?].
  - destruct (IH (<["_" +:+ key := v]> self) items) as (self' & Hrun & Hopts);
      [| |done|].
    { by rewrite lookup_insert_ne. }
    { intros k Hk. rewrite lookup_insert_ne by auto. auto. }
    exists self'. split; [done|]. intros k Hk.
    rewrite (Hopts k Hk), last_assigned_cons.
    destruct (last_assigned k bs); [done|].
    destruct (decide (key = k)) as [->|Hne].
    + by rewrite lookup_insert_eq.
    + rewrite lookup_insert_ne; [done|]. by intros [= ?].
Qed.

(** The options of an instance made by [__init__] and configured by
    builder calls. *)
Lemma configured_options (base_model target_path : value)
    (bs : list (string * value)) :
  Forall (λ b, b.1 ∈ keys) bs →
  ∃ self',
    bind (TrainableModule.__init__ base_model target_path) (configures call bs)
    = Return self' ∧
    ∀ k, k ∈ keys →
         default VNone (self' !! ("_" +:+ k))
         = default (initial k) (last_assigned k bs).
Proof.
  intros Hkeys.
  destruct (init_spec base_model target_path)
    as (self & items & -> & Hsub & Hnone & Hinit).
  destruct (configures_spec bs self items Hsub Hnone Hkeys) as (self' & Hrun & Hopts).
  exists self'. split; [done|]. intros k Hk. rewrite (Hopts k Hk).
  destruct (last_assigned k bs); [done|]. by apply Hinit.
Qed.

End Calls.
End TrainableFacts.

Import TrainableFacts.

(** X24.  The builder calls of a [TrainableModule] round-trip: on an
    instance fresh from [__init__], any series of calls [self.key(v)] for
    option names returns, and reading [self._key] afterwards gives the
    value of the last call for [key], and for an option never set what
    [__init__] left: [lazyllm.finetune.auto] for [finetune], [None] for
    the others, [train] and [deploy] among them. *)
Theorem builder_options_round_trip
    (call : value → list value → exn + value)
    (base_model target_path : value) (bs : list (string * value)) :
  Forall (λ b, b.1 ∈ TrainableModule.keys) bs →
  ∃ self',
    bind (TrainableModule.__init__ base_model target_path)
         (TrainableModule.configures call bs) = Return self' ∧
    ∀ k, k ∈ TrainableModule.keys →
         TrainableModule.read self' ("_" +:+ k)
         = inr (default (TrainableModule.initial k) (last_assigned k bs)).
Proof.
  intros Hkeys.
  destruct (configured_options call base_model target_path bs Hkeys)
    as (self' & Hrun & Hopts).
  exists self'. split; [done|]. intros k Hk.
  by rewrite read_option, Hopts.
Qed.

Lemma builder_options_round_trip_witness :
  ∃ self',
    bind (TrainableModule.__init__ (VStr "base") (VStr "target"))
         (TrainableModule.configures TrainableModule.call_gives_callee
            [("mode", VStr "train"); ("trainset", VStr "data.json");
             ("mode", VStr "finetune")]) = Return self' ∧
    TrainableModule.read self' "_mode" = inr (VStr "finetune") ∧
    TrainableModule.read self' "_deploy" = inr VNone.
Proof.
  destruct (builder_options_round_trip TrainableModule.call_gives_callee
              (VStr "base") (VStr "target")
              [("mode", VStr "train"); ("trainset", VStr "data.json");
               ("mode", VStr "finetune")]) as (self' & Hrun & Hopts).
  - repeat constructor; apply is_key; cbn; tauto.
  - exists self'. split; [done|]. split.
    + apply (Hopts "mode"), is_key. cbn. tauto.
    + apply (Hopts "deploy"), is_key. cbn. tauto.
Defined.

(** X25.  [_get_train_tasks] of a configured [TrainableModule] raises
    unless the mode was set: with the last [mode(..)] call absent or for
    a value other than the texts [train] and [finetune] it raises the
    [RuntimeError] of line 287; with the mode [train] and no [train(..)]
    call it raises too, [_train] being the [None] of [__init__]. *)
Theorem train_tasks_need_mode
    (call : value → list value → exn + value)
    (os_path_join : value → string → exn + value)
    (base_model target_path : value) (bs : list (string * value))
    (self' : gmap string value) :
  Forall (λ b, b.1 ∈ TrainableModule.keys) bs →
  bind (TrainableModule.__init__ base_model target_path)
       (TrainableModule.configures call bs) = Return self' →
  match last_assigned "mode" bs with
  | Some mode =>
      if TrainableModule.equals mode "train" then
        last_assigned "train" bs = None →
        ∃ e, TrainableModule._get_train_tasks call os_path_join self' = inl e
      else if TrainableModule.equals mode "finetune" then True
      else TrainableModule._get_train_tasks call os_path_join self'
           = inl (OtherError "RuntimeError: mode must be train or finetune")
  | None =>
      TrainableModule._get_train_tasks call os_path_join self'
      = inl (OtherError "RuntimeError: mode must be train or finetune")
  end.
Proof.
  intros Hkeys Hrun.
  destruct (configured_options call base_model target_path bs Hkeys)
    as (self'' & Hrun' & Hopts).
  rewrite Hrun in Hrun'. injection Hrun' as <-.
  assert (Hmode : TrainableModule.read self' "_mode"
                  = inr (default VNone (last_assigned "mode" bs))).
  { assert (Hin : "mode" ∈ TrainableModule.keys) by (apply is_key; cbn; tauto).
    exact (eq_trans (read_option self' "mode" Hin) (f_equal inr (Hopts "mode" Hin))). }
  assert (Htrain : TrainableModule.read self' "_train"
                   = inr (default VNone (last_assigned "train" bs))).
  { assert (Hin : "train" ∈ TrainableModule.keys) by (apply is_key; cbn; tauto).
    exact (eq_trans (read_option self' "train" Hin) (f_equal inr (Hopts "train" Hin))). }
  unfold TrainableModule._get_train_tasks. rewrite Hmode.
  destruct (last_assigned "mode" bs) as [mode|]; cbn [default from_option id]; [|done].
  destruct (TrainableModule.equals mode "train"); [|by destruct (TrainableModule.equals _ _)].
  intros Hnone. unfold TrainableModule.trainer. rewrite Htrain, Hnone.
  cbn [default from_option id].
  destruct (TrainableModule.read self' "base_model"); [by eexists|].
  destruct (TrainableModule.read self' "target_path"); [by eexists|].
  destruct (os_path_join _ _); by eexists.
Qed.

Lemma train_tasks_need_mode_witness :
  TrainableModule._get_train_tasks TrainableModule.call_gives_callee
    TrainableModule.join_texts
    (state_of (bind (TrainableModule.__init__ (VStr "base") (VStr "target"))
                    (TrainableModule.configures TrainableModule.call_gives_callee
                       [("trainset", VStr "data.json")])))
  = inl (OtherError "RuntimeError: mode must be train or finetune").
Proof.
  apply (train_tasks_need_mode TrainableModule.call_gives_callee
           TrainableModule.join_texts (VStr "base") (VStr "target")
           [("trainset", VStr "data.json")]).
  - repeat constructor; apply is_key; cbn; tauto.
  - reflexivity.
Defined.

(** ** Module.__new__ *)

(** X26.  A call [Module(action=..)] never makes an [ActionModule]: with
    no positional argument and the keyword [action], [__new__] raises the
    [KeyError] of [kw['modules']], and when the keyword [modules] is
    there too it makes a [SequenceModule] of that one argument. *)
Theorem action_keyword_makes_no_action_module
    (isinstance_Module isinstance_FlowBase : value → bool)
    (kw : gmap string value) :
  is_Some (kw !! "action") →
  Factory.__new__ isinstance_Module isinstance_FlowBase [] kw
  = match kw !! "modules" with
    | Some modules => inr (Factory.SequenceModule [modules])
    | None => inl (OtherError "KeyError: modules")
    end.
Proof.
  intros Haction. unfold Factory.__new__, Factory.item. cbn.
  rewrite (bool_decide_eq_false_2 (1 ≤ 0)) by lia.
  rewrite !(bool_decide_eq_true_2 (0 = 0)) by done.
  rewrite !(bool_decide_eq_false_2 (0 = 1)) by done. cbn [andb].
  destruct (kw !! "modules") as [modules|] eqn:Hmodules.
  - by rewrite (bool_decide_eq_true_2 (is_Some (Some modules))) by by eexists.
  - rewrite (bool_decide_eq_false_2 (is_Some None)) by (by intros [? ?]).
    by rewrite (bool_decide_eq_true_2 (is_Some (kw !! "action"))).
Qed.

Lemma action_keyword_makes_no_action_module_witness :
  Factory.__new__ Factory.neither Factory.neither []
    {["action" := VOther "Pipeline(..)"]}
  = inl (OtherError "KeyError: modules").
Proof.
  rewrite (action_keyword_makes_no_action_module Factory.neither Factory.neither
             {["action" := VOther "Pipeline(..)"]}).
  - reflexivity.
  - exists (VOther "Pipeline(..)"). reflexivity.
Defined.

(** X27.  [__new__] makes no [TrainableModule]: a call that none of the
    tests before the last accepts raises [TypeError].  Such are the calls
    with two or more positional arguments of which the first is no
    [Module], and the calls with keywords only that have none of
    [modules], [action] and [url], [base_model] and [target_path] among
    them. *)
Theorem trainable_module_is_never_made
    (isinstance_Module isinstance_FlowBase : value → bool)
    (args : list value) (kw : gmap string value) :
  (2 ≤ length args ∧ from_option isinstance_Module false (args !! 0) = false) ∨
  (args = [] ∧ kw !! "modules" = None ∧ kw !! "action" = None ∧ kw !! "url" = None) →
  Factory.__new__ isinstance_Module isinstance_FlowBase args kw
  = inl (OtherError "TypeError: __init__() missing 2 required positional arguments").
Proof.
  intros [[Hlen Hfirst]|(-> & Hmodules & Haction & Hurl)]; unfold Factory.__new__.
  - rewrite Hfirst, andb_false_r.
    destruct args as [|a [|b args]]; [cbn in Hlen; lia..|].
    assert (Hlist : Factory.list_of_modules isinstance_Module (a :: b :: args)
                    = inr None) by by destruct a.
    rewrite Hlist.
    rewrite !(bool_decide_eq_false_2 (length (a :: b :: args) = _)) by (cbn; lia).
    done.
  - cbn. rewrite Hmodules, Haction, Hurl.
    rewrite (bool_decide_eq_false_2 (1 ≤ 0)) by lia.
    rewrite !(bool_decide_eq_false_2 (0 = 1)) by done.
    by rewrite !(bool_decide_eq_false_2 (is_Some None)) by (by intros [? ?]).
Qed.

Lemma trainable_module_is_never_made_witness :
  Factory.__new__ Factory.neither Factory.neither []
    {["base_model" := VStr "llama"; "target_path" := VStr "out"]}
  = inl (OtherError "TypeError: __init__() missing 2 required positional arguments").
Proof.
  apply (trainable_module_is_never_made Factory.neither Factory.neither []
           {["base_model" := VStr "llama"; "target_path" := VStr "out"]}).
  right. by repeat split.
Defined.

(** ** WebModule *)

Module WebFacts.
Import PyStr PyStrFacts WebModule.

Lemma append_assoc (a b c : string) : (a +:+ b) +:+ c = a +:+ b +:+ c.
Proof. apply chars_inj. by rewrite !chars_app, (assoc_L (++)). Qed.

Lemma append_nil_r (a : string) : a +:+ "" = a.
Proof. apply chars_inj. by rewrite chars_app, app_nil_r. Qed.

Lemma after_first_unfold (old s : list Ascii.ascii) :
  after_first old s
  = if starts_with old s then Some (drop (length old) s)
    else match s with
         | [] => None
         | _ :: s => after_first old s
         end.
Proof. by destruct s. Qed.

Lemma after_first_here (old s : list Ascii.ascii) :
  after_first old (old ++ s) = Some s.
Proof. by rewrite after_first_unfold, starts_with_app, drop_app_length. Qed.

(** Characters that do not start [old] are passed over. *)
Lemma after_first_skip (old pre s : list Ascii.ascii) :
  Forall (λ c, head old ≠ Some c) pre → old ≠ [] →
  after_first old (pre ++ s) = after_first old s.
Proof.
  intros Hpre Hold. destruct old as [|o old]; [done|].
  induction Hpre as [|c pre Hc _ IH]; [done|].
  cbn [app]. rewrite after_first_unfold. cbn [starts_with].
  rewrite bool_decide_eq_false_2 by (intros ->; by apply Hc). cbn [andb].
  apply IH.
Qed.

(** The text before the separator that precedes a last [None]. *)
Lemma rsplit_head_open_turn (x : string) :
  rsplit_head "\<eou\>" (x +:+ "\<eou\>" +:+ "None") = inr x.
Proof.
  assert (Hfound : after_first (rev (chars "\<eou\>"))
                     (rev (chars (x +:+ "\<eou\>" +:+ "None")))
                   = Some (rev (chars x))).
  { rewrite !chars_app, !rev_app_distr, <- (assoc_L (++)).
    rewrite after_first_skip; [apply after_first_here| |done].
    cbn. repeat constructor; discriminate. }
  unfold rsplit_head. rewrite Hfound. cbn [chars String.list_ascii_of_string].
  by rewrite rev_involutive, text_chars.
Qed.

Lemma join_with_cons (sep x y : string) (l : list string) :
  join_with sep (x :: y :: l) = x +:+ sep +:+ join_with sep (y :: l).
Proof. done. Qed.

(** What is appended to the last text is appended to the joined text. *)
Lemma join_with_last (sep x y : string) (l : list string) :
  join_with sep (l ++ [x +:+ y]) = join_with sep (l ++ [x]) +:+ y.
Proof.
  induction l as [|a l IH]; [done|].
  destruct l as [|b l]; cbn [app] in *.
  - rewrite !join_with_cons. cbn [join_with]. by rewrite !append_assoc.
  - rewrite (join_with_cons sep a b), (join_with_cons sep a b), IH.
    by rewrite !append_assoc.
Qed.

Lemma set_answer_snoc (earlier : turns) (q : string) (a : option string)
    (new : string) :
  set_answer (earlier ++ [(q, a)]) new = inr (earlier ++ [(q, Some new)]).
Proof. unfold set_answer. by rewrite last_snoc, removelast_last. Qed.

Lemma add_answer_snoc (earlier : turns) (q a s : string) :
  add_answer (earlier ++ [(q, Some a)]) (Some s)
  = inr (earlier ++ [(q, Some (a +:+ s))]).
Proof. unfold add_answer. by rewrite last_snoc, removelast_last. Qed.

(** The loop over the pieces of a text. *)
Lemma for_items_pieces (earlier : turns) (q : string) (l : log)
    (chunks : list string) :
  ∀ a : string,
    for_items (Message ∘ Str <$> chunks) None (earlier ++ [(q, Some a)]) l
    = ((λ k, (Some (earlier ++ [(q, Some (a +:+ join (take k chunks)))]), l))
         <$> seq 1 (length chunks),
       inr (earlier ++ [(q, Some (a +:+ join chunks))], l)).
Proof.
  induction chunks as [|c chunks IH]; intros a.
  { cbn. by rewrite append_nil_r. }
  cbn [fmap list_fmap for_items compose get_log_and_message].
  rewrite add_answer_snoc, IH. cbn [length seq fmap list_fmap].
  f_equal.
  - f_equal.
    + cbn. by rewrite append_nil_r.
    + rewrite <- (fmap_S_seq 1 (length chunks)), <- list_fmap_compose.
      apply list_fmap_ext. intros _ k _. cbn. by rewrite append_assoc.
  - cbn. by rewrite append_assoc.
Qed.

Lemma same_but_last_answer_refl (h : turns) : same_but_last_answer h h.
Proof. by split. Qed.

Lemma same_but_last_answer_trans (h1 h2 h3 : turns) :
  same_but_last_answer h1 h2 → same_but_last_answer h2 h3 →
  same_but_last_answer h1 h3.
Proof. intros [? ?] [? ?]. split; congruence. Qed.

Lemma set_answer_same (h h' : turns) (a : string) :
  set_answer h a = inr h' → same_but_last_answer h h'.
Proof.
  unfold set_answer. destruct (last h) as [[q old]|] eqn:Hlast; [|done].
  intros [= <-]. apply last_Some in Hlast as [l ->]. cbn [fst].
  unfold same_but_last_answer.
  rewrite !removelast_last. split; [|done]. by rewrite !fmap_app.
Qed.

Lemma add_answer_same (h h' : turns) (s : option string) :
  add_answer h s = inr h' → same_but_last_answer h h'.
Proof.
  unfold add_answer. destruct (last h) as [[q old]|] eqn:Hlast; [|done].
  cbn [fst snd]. destruct old as [a|], s as [s|]; try done.
  intros [= <-]. apply last_Some in Hlast as [l ->].
  unfold same_but_last_answer.
  rewrite !removelast_last. split; [|done]. by rewrite !fmap_app.
Qed.

(** What the loop yields are histories that differ from the one it began
    with in the last answer only, and when it ends without an exception
    the history it ends with is the one it yielded last. *)
Lemma for_items_shape (h0 : turns) (items : list item) (ending : option exn) :
  ∀ (h : turns) (l : log),
    same_but_last_answer h0 h →
    let r := for_items items ending h l in
    Forall (λ y, ∃ h', y.1 = Some h' ∧ same_but_last_answer h0 h') r.1 ∧
    ∀ h' l', r.2 = inr (h', l') →
             same_but_last_answer h0 h' ∧
             last ((Some h, l) :: r.1) = Some (Some h', l').
Proof.
  induction items as [|s items IH]; intros h l Hsame.
  { cbn. split; [done|]. destruct ending; [done|]. by intros h' l' [= <- <-]. }
  cbn [for_items].
  destruct (match s with
            | Message s => let '(s, l) := get_log_and_message s l in (Some s, l)
            | Other _ => (None, l)
            end) as [s' l1].
  destruct (add_answer h s') as [e|h1] eqn:Hadd; [by split|].
  assert (Hsame1 : same_but_last_answer h0 h1).
  { eapply same_but_last_answer_trans; [done|]. by eapply add_answer_same. }
  specialize (IH h1 l1 Hsame1). cbv zeta in IH.
  destruct (for_items items ending h1 l1) as [ys r]. cbn [fst snd] in *.
  destruct IH as [Hys Hr]. split.
  - constructor; [|done]. by exists h1.
  - intros h' l' Hend. destruct (Hr h' l' Hend) as [Hsame' Hlast].
    split; [done|]. by rewrite last_cons_cons.
Qed.

End WebFacts.

Import PyStr WebFacts.

(** X28.  With the context in use, the wrapped module is given the whole
    conversation: for a history that ends in the turn [_prepare] added,
    the texts of the earlier turns and the new query, joined, with the
    awaited answer and its separator cut off.  Without it the module is
    given the last query alone.  On an empty history the first gives the
    empty text and the second raises [IndexError]. *)
Theorem context_input_is_conversation
    (earlier : WebModule.turns) (q : string) :
  WebModule.input true (earlier ++ [(q, None)])
  = inr (join_with "\<eos\>" ((WebModule.render <$> earlier) ++ [q])) ∧
  (∀ a, WebModule.input false (earlier ++ [(q, a)]) = inr q) ∧
  WebModule.input true [] = inr "" ∧
  WebModule.input false [] = inl IndexError.
Proof.
  split; [|split; [|by split]].
  - unfold WebModule.input. rewrite fmap_app. cbn [fmap list_fmap].
    change (WebModule.render (q, None)) with (q +:+ "\<eou\>" +:+ "None").
    rewrite join_with_last. apply rsplit_head_open_turn.
  - intros a. unfold WebModule.input. by rewrite last_snoc.
Qed.

(** X29.  When the wrapped module answers with a generator of texts that
    ends without an exception, [_respond_stream] yields once for every
    text, each time the history whose last answer is the texts so far
    put together, and once more at the end, the same history as the
    time before; the log is [None] throughout and the earlier turns and
    the query are as they were. *)
Theorem stream_accumulates_pieces
    (m : string → exn + WebModule.result) (use_context : bool)
    (earlier : WebModule.turns) (q : string) (a : option string)
    (chunks : list string) (i : string) :
  WebModule.input use_context (earlier ++ [(q, a)]) = inr i →
  m i = inr (WebModule.Generator
               (WebModule.Message ∘ WebModule.Str <$> chunks) None) →
  WebModule._respond_stream m use_context (earlier ++ [(q, a)])
  = ((λ k, (Some (earlier ++ [(q, Some (join (take k chunks)))]), WebModule.NoLog))
       <$> seq 1 (length chunks))
    ++ [(Some (earlier ++ [(q, Some (join chunks))]), WebModule.NoLog)].
Proof.
  intros Hinput Hm. unfold WebModule._respond_stream, WebModule.attempt.
  rewrite Hinput, Hm, set_answer_snoc, for_items_pieces. done.
Qed.

Lemma stream_accumulates_pieces_witness :
  WebModule._respond_stream WebModule.in_pieces false
    [("Is it late?", None)]
  = [(Some [("Is it late?", Some "It ")], WebModule.NoLog);
     (Some [("Is it late?", Some "It is ")], WebModule.NoLog);
     (Some [("Is it late?", Some "It is late.")], WebModule.NoLog);
     (Some [("Is it late?", Some "It is late.")], WebModule.NoLog)].
Proof.
  apply (stream_accumulates_pieces WebModule.in_pieces false []
           "Is it late?" None ["It "; "is "; "late."] "Is it late?");
    reflexivity.
Defined.

(** X30.  Whatever the wrapped module does, [_respond_stream] yields at
    least once.  Every history it yields is the one it was given but for
    the answer of the last turn.  All but the last of what it yields
    carry a history.  The last carries the history that was yielded just
    before, when there was one, or carries no history and the text of
    the exception that ended the attempt. *)
Theorem respond_stream_ends_with_state_or_error
    (m : string → exn + WebModule.result) (use_context : bool)
    (h : WebModule.turns) :
  ∃ ys y,
    WebModule._respond_stream m use_context h = ys ++ [y] ∧
    Forall (λ y', ∃ h', y'.1 = Some h' ∧ WebModule.same_but_last_answer h h') ys ∧
    match y.1 with
    | Some h' => WebModule.same_but_last_answer h h' ∧ (ys ≠ [] → last ys = Some y)
    | None => ∃ e, y.2 = WebModule.ErrorText e
    end.
Proof.
  unfold WebModule._respond_stream, WebModule.attempt.
  destruct (WebModule.input use_context h) as [e|i];
    [exists [], (None, WebModule.ErrorText e); cbn; by eauto|].
  destruct (m i) as [e|[[s|d]|items ending]];
    [exists [], (None, WebModule.ErrorText e); cbn; by eauto| |
     eexists [], (None, WebModule.ErrorText _); cbn; by eauto|].
  - destruct (WebModule.get_log_and_message s (WebModule.Log "")) as [a l].
    destruct (WebModule.set_answer h a) as [e|h1] eqn:Hset;
      [exists [], (None, WebModule.ErrorText e); cbn; by eauto|].
    exists [], (Some h1, l). cbn.
    split; [done|]. split; [done|]. split; [|done].
    by apply (set_answer_same h h1 a).
  - destruct (WebModule.set_answer h "") as [e|h1] eqn:Hset;
      [exists [], (None, WebModule.ErrorText e); cbn; by eauto|].
    pose proof (set_answer_same h h1 "" Hset) as Hsame.
    destruct (for_items_shape h items ending h1 WebModule.NoLog Hsame)
      as [Hys Hend].
    destruct (WebModule.for_items items ending h1 WebModule.NoLog) as [ys r].
    cbn [fst snd] in *.
    destruct r as [e|[h' l']].
    + exists ys, (None, WebModule.ErrorText e). cbn. by eauto.
    + destruct (Hend h' l' eq_refl) as [Hsame' Hlast].
      exists ys, (Some h', l'). cbn [fst].
      split; [done|]. split; [done|]. split; [done|].
      intros Hne. destruct ys as [|y ys]; [done|].
      by rewrite last_cons_cons in Hlast.
Qed.
